(** * libnetwork/osl/interface_linux.go: interfaces of a network sandbox

    A shallow embedding of the sandbox interface code (AddInterface, Remove,
    Statistics, the configurator pipeline, the route conflict check and the
    accessors of nwIface) and the properties its specification states.

    Layout:
    - [GoNet]: the parts of Go's net package the code calls (IP, IPMask,
      IPNet.Contains);
    - the netlink collaborator as a history-indexed oracle, and the trace of
      calls made to it;
    - the entity record, the registry and the lifecycle operations;
    - [Refs]: the accessors over a store of slices and pointers, where
      aliasing matters;
    - the theorems. *)

From stdpp Require Import gmap strings list pretty.
From Stdlib Require Import ZArith Lia.

Local Open Scope Z_scope.

(** ** Go's net package *)

Module GoNet.

(** A byte is a [Z]; the bitwise and of two bytes is [Z.land]. net.IP,
    net.IPMask and net.HardwareAddr are byte slices. *)
Definition IPv4len : nat := 4.
Definition IPv6len : nat := 16.

Record IPNet := { IP : list Z; Mask : list Z }.

Definition isZeros (p : list Z) : bool := forallb (Z.eqb 0) p.

(** func (ip IP) To4() IP; [None] is the nil result. *)
Definition To4 (ip : list Z) : option (list Z) :=
  if (length ip =? IPv4len)%nat then Some ip
  else if (length ip =? IPv6len)%nat && isZeros (take 10 ip)
          && (nth 10 ip 0 =? 255) && (nth 11 ip 0 =? 255)
       then Some (drop 12 ip)
       else None.

(** func networkNumberAndMask(n *IPNet) (ip IP, m IPMask); the result
    (nil, nil) is a pair of empty slices. *)
Definition networkNumberAndMask (n : IPNet) : list Z * list Z :=
  let ip :=
    match To4 (IP n) with
    | Some x => Some x
    | None => if (length (IP n) =? IPv6len)%nat then Some (IP n) else None
    end in
  match ip with
  | None => ([], [])
  | Some ip =>
      let m := Mask n in
      if (length m =? IPv4len)%nat then
        if (length ip =? IPv4len)%nat then (ip, m) else ([], [])
      else if (length m =? IPv6len)%nat then
        if (length ip =? IPv4len)%nat then (ip, drop 12 m) else (ip, m)
      else ([], [])
  end.

(** The comparison loop of Contains: for i := 0; i < l; i++. *)
Definition masked_eq (l : nat) (nn m ip : list Z) : bool :=
  forallb (fun i => Z.land (nth i nn 0) (nth i m 0) =? Z.land (nth i ip 0) (nth i m 0))
          (seq 0 l).

(** func (n *IPNet) Contains(ip IP) bool *)
Definition Contains (n : IPNet) (ip : list Z) : bool :=
  let '(nn, m) := networkNumberAndMask n in
  let ip := match To4 ip with Some x => x | None => ip end in
  let l := length ip in
  if negb (l =? length nn)%nat then false else masked_eq l nn m ip.

(** The bytes CIDRMask(ones, 8*l) writes: [ones] leading one bits. *)
Fixpoint cidr_bytes (ones l : nat) : list Z :=
  match l with
  | O => []
  | S l' =>
      if (8 <=? ones)%nat then 255 :: cidr_bytes (ones - 8) l'
      else Z.lxor 255 (Z.shiftr 255 (Z.of_nat ones)) :: cidr_bytes 0 l'
  end.

(** A network in canonical form: the address and the mask have one of the
    two lengths Contains accepts and the mask is ones followed by zeros. *)
Definition canonical (n : IPNet) : Prop :=
  let '(nn, m) := networkNumberAndMask n in
  nn <> [] /\ exists ones, m = cidr_bytes ones (length nn).

(** [a] contains [b] as sets of addresses. *)
Definition net_contains (a b : IPNet) : Prop :=
  forall ip, Contains b ip = true -> Contains a ip = true.

End GoNet.

Import GoNet.

(** The address Contains compares: its 4-byte form when it has one. *)
Definition norm_ip (ip : list Z) : list Z :=
  match To4 ip with Some x => x | None => ip end.

(** ** netlink and libnetwork/types values *)

Module netlink.

(** netlink.LinkStatistics: the 64-bit counters of a device. *)
Record LinkStatistics := {
  RxPackets : Z; TxPackets : Z; RxBytes : Z; TxBytes : Z;
  RxErrors : Z; TxErrors : Z; RxDropped : Z; TxDropped : Z
}.

(** A netlink.Link as this code reads it: the attributes behind Attrs(). *)
Record Link := { Name : string; Index : Z; Statistics : option LinkStatistics }.

(** netlink.Route, with the fields this code writes or reads. *)
Record Route := { Scope : Z; LinkIndex : Z; Dst : option IPNet }.

(** netlink.Addr; the embedded *net.IPNet may be nil. *)
Record Addr := { IPNet : option GoNet.IPNet; Label : string; Flags : Z }.

Definition FAMILY_V4 : Z := 2.
Definition FAMILY_V6 : Z := 10.
Definition SCOPE_LINK : Z := 253.

End netlink.

Module types.

(** types.InterfaceStatistics, with the fields Statistics fills in. *)
Record InterfaceStatistics := {
  RxBytes : Z; TxBytes : Z; RxPackets : Z; TxPackets : Z; RxDropped : Z; TxDropped : Z
}.

End types.

(** syscall.IFA_F_NODAD *)
Definition IFA_F_NODAD : Z := 2.

(** ** Errors

    An error a collaborator returns (netlink, netns, the sysctl toggle) is an
    [Errno]. An error this file builds with fmt.Errorf is an [Errorf] when
    its last verb prints another error, the cause, and an [ErrorNew] when it
    prints none: the constructor of [Msg] stands for the format string and
    carries the other formatted arguments. *)

Definition syserr := string.

Inductive Msg :=
| MsgMasterNotFound (master src : string)
| MsgCreateBridge (src : string)
| MsgLinkByName (src : string)
| MsgGetNamespace (path : string)
| MsgSetNamespace (src : string)
| MsgLinkDown
| MsgLinkUp
| MsgRoutes (ifaceName : string) (routes : list (option IPNet))
| MsgRename (ifaceName dst : string)
| MsgMAC (ifaceName : string) (mac : option (list Z))
| MsgIP (ifaceName : string) (addr : option IPNet)
| MsgIPv6 (ifaceName : string) (addr : option IPNet)
| MsgMaster (ifaceName dstMaster : string)
| MsgLinkLocal (ifaceName : string) (addrs : list (option IPNet))
| MsgEnableIPv6
| MsgConflict (address : IPNet) (route : netlink.Route)
| MsgDeleteBridge (src : string)
| MsgStatistics (dst path : string)
| MsgNoStatistics.

Inductive error :=
| Errno (e : syserr)
| Errorf (m : Msg) (cause : error)
| ErrorNew (m : Msg).

(** Messages handed to the logger. *)
Inductive LogMsg :=
| LogSetNameFailed (src : string) (err : syserr)
| LogSetNsFailed (src : string) (err : syserr)
| LogRollbackRename (dst src : string) (nerr : syserr) (err : error)
| LogRollbackMove (src : string) (nerr : syserr) (err : error)
| LogRetryLinkUp (err : syserr).

(** ** The collaborators

    Every call that leaves this file is an event; the trace lists the events
    in the order they were made. The collaborators are an oracle: the answer
    to a call is a function of the calls made before it. *)

(** n.nlHandle, the handle of the sandbox, and ns.NlHandle(), the handle of
    the caller's namespace. *)
Inductive Handle := NsHandle | HostHandle.

Inductive Call :=
| EvLinkByName (h : Handle) (name : string)
| EvLinkAdd (h : Handle) (bridgeName : string)
| EvLinkSetNsFd (h : Handle) (l : netlink.Link) (fd : Z)
| EvLinkSetDown (h : Handle) (l : netlink.Link)
| EvLinkSetUp (h : Handle) (l : netlink.Link)
| EvLinkSetName (h : Handle) (l : netlink.Link) (name : string)
| EvLinkDel (h : Handle) (l : netlink.Link)
| EvLinkSetHardwareAddr (h : Handle) (l : netlink.Link) (mac : list Z)
| EvLinkSetMaster (h : Handle) (l : netlink.Link) (bridgeName : string)
| EvAddrAdd (h : Handle) (l : netlink.Link) (a : netlink.Addr)
| EvRouteAdd (h : Handle) (r : netlink.Route)
| EvRouteList (h : Handle) (family : Z)
| EvGetFromPath (path : string)
| EvClose (fd : Z)
| EvSetIPv6 (path iface : string) (enable : bool)
| EvCheckLoV6
| EvSleep (ms : Z)
| EvLog (m : LogMsg).

Definition Trace := list Call.

Record Kernel := {
  (** the error of a call that returns only an error *)
  on_call : Trace -> Call -> option syserr;
  on_LinkByName : Trace -> Handle -> string -> syserr + netlink.Link;
  on_RouteList : Trace -> Handle -> Z -> syserr + list netlink.Route;
  on_GetFromPath : Trace -> string -> syserr + Z;
  (** what checkLoV6 leaves in the loopback flag of the registry *)
  on_checkLoV6 : Trace -> bool;
  (** ns.ParseHandlerInt(): the descriptor of the caller's namespace *)
  ParseHandlerInt : Z
}.

(** Computations that only talk to the collaborators. *)
Definition T (A : Type) : Type := Trace -> A * Trace.

Definition tret {A} (a : A) : T A := fun tr => (a, tr).
Definition tbind {A B} (m : T A) (f : A -> T B) : T B :=
  fun tr => let (a, tr') := m tr in f a tr'.

Declare Scope trace_scope.
Delimit Scope trace_scope with T.
Notation "x <- m ;; k" := (tbind m (fun x => k))
  (at level 100, m at next level, right associativity, only parsing) : trace_scope.

Section Collaborators.

Variable k : Kernel.

Definition call (c : Call) : T (option syserr) :=
  fun tr => (on_call k tr c, tr ++ [c]).

Definition emit (c : Call) : T unit := fun tr => (tt, tr ++ [c]).

Definition LinkByName (h : Handle) (name : string) : T (syserr + netlink.Link) :=
  fun tr => (on_LinkByName k tr h name, tr ++ [EvLinkByName h name]).

Definition RouteList (h : Handle) (family : Z) : T (syserr + list netlink.Route) :=
  fun tr => (on_RouteList k tr h family, tr ++ [EvRouteList h family]).

Definition GetFromPath (path : string) : T (syserr + Z) :=
  fun tr => (on_GetFromPath k tr path, tr ++ [EvGetFromPath path]).

Definition LinkAdd h name := call (EvLinkAdd h name).
Definition LinkSetNsFd h l fd := call (EvLinkSetNsFd h l fd).
Definition LinkSetDown h l := call (EvLinkSetDown h l).
Definition LinkSetUp h l := call (EvLinkSetUp h l).
Definition LinkSetName h l name := call (EvLinkSetName h l name).
Definition LinkDel h l := call (EvLinkDel h l).
Definition LinkSetHardwareAddr h l mac := call (EvLinkSetHardwareAddr h l mac).
Definition LinkSetMaster h l name := call (EvLinkSetMaster h l name).
Definition AddrAdd h l a := call (EvAddrAdd h l a).
Definition RouteAdd h r := call (EvRouteAdd h r).

(** Modelled from the spec: the per-namespace IPv6 enable toggle, keyed by
    namespace path and device name (setIPv6 is defined outside this file). *)
Definition setIPv6 path iface enable := call (EvSetIPv6 path iface enable).

Definition Sleep (ms : Z) : T unit := emit (EvSleep ms).
Definition Log (m : LogMsg) : T unit := emit (EvLog m).

End Collaborators.

(** ** The entity and the registry *)

(** An entity is known by its pointer; [heap] below holds the entities ever
    allocated and a pointer is an index in it. *)
Definition ptr := nat.

(** nwIface, by value: a nil slice or pointer is [None]. The back-reference
    [ns] points to the one registry of the state; [ns_path] is the path it
    reaches (i.ns.path), which no code of this file changes. *)
Record nwIface := {
  srcName : string;
  dstName : string;
  master : string;
  dstMaster : string;
  mac : option (list Z);
  address : option IPNet;
  addressIPv6 : option IPNet;
  llAddrs : list (option IPNet);
  routes : list (option IPNet);
  bridge : bool;
  ns_path : string
}.

Definition SrcName (i : nwIface) : string := srcName i.
Definition DstName (i : nwIface) : string := dstName i.
Definition DstMaster (i : nwIface) : string := dstMaster i.
Definition Bridge (i : nwIface) : bool := bridge i.
Definition Master (i : nwIface) : string := master i.

(** The accessors below return copies; by value a copy is the value itself
    ([Refs] has them over a store, where the difference shows). *)
Definition MacAddress (i : nwIface) : option (list Z) := mac i.
Definition Address (i : nwIface) : option IPNet := address i.
Definition AddressIPv6 (i : nwIface) : option IPNet := addressIPv6 i.
Definition LinkLocalAddresses (i : nwIface) : list (option IPNet) := llAddrs i.
Definition Routes (i : nwIface) : list (option IPNet) := routes i.

Definition set_dstName (v : string) (i : nwIface) : nwIface :=
  {| srcName := srcName i; dstName := v; master := master i; dstMaster := dstMaster i;
     mac := mac i; address := address i; addressIPv6 := addressIPv6 i;
     llAddrs := llAddrs i; routes := routes i; bridge := bridge i; ns_path := ns_path i |}.

Definition set_dstMaster (v : string) (i : nwIface) : nwIface :=
  {| srcName := srcName i; dstName := dstName i; master := master i; dstMaster := v;
     mac := mac i; address := address i; addressIPv6 := addressIPv6 i;
     llAddrs := llAddrs i; routes := routes i; bridge := bridge i; ns_path := ns_path i |}.

(** Modelled from the spec: the struct networkNamespace is declared outside
    this file; these are the attributes the spec lists for the registry and
    this file reads or writes. The lock is left out: the model runs one
    operation at a time. *)
Record networkNamespace := {
  path : string;
  iFaces : list ptr;
  nextIfIndex : gmap string Z;
  isDefault : bool;
  loV6Enabled : bool
}.

Definition set_iFaces (v : list ptr) (n : networkNamespace) : networkNamespace :=
  {| path := path n; iFaces := v; nextIfIndex := nextIfIndex n;
     isDefault := isDefault n; loV6Enabled := loV6Enabled n |}.

Definition set_nextIfIndex (v : gmap string Z) (n : networkNamespace) : networkNamespace :=
  {| path := path n; iFaces := iFaces n; nextIfIndex := v;
     isDefault := isDefault n; loV6Enabled := loV6Enabled n |}.

Definition set_loV6Enabled (v : bool) (n : networkNamespace) : networkNamespace :=
  {| path := path n; iFaces := iFaces n; nextIfIndex := nextIfIndex n;
     isDefault := isDefault n; loV6Enabled := v |}.

(** Modelled from the spec: the options of Add are defined outside this file;
    the spec lists them as {mac: set hardware address, address: set IPv4
    network, addressIPv6: set IPv6 network, linkLocalAddresses: append one,
    routes: append one, master: set master source name, bridge: mark as
    bridge}. *)
Inductive IfaceOption :=
| OptMac (m : list Z)
| OptAddress (a : IPNet)
| OptAddressIPv6 (a : IPNet)
| OptLinkLocalAddress (a : IPNet)
| OptRoute (r : IPNet)
| OptMaster (name : string)
| OptBridge.

Definition applyOption (i : nwIface) (o : IfaceOption) : nwIface :=
  match o with
  | OptMac m =>
      {| srcName := srcName i; dstName := dstName i; master := master i; dstMaster := dstMaster i;
         mac := Some m; address := address i; addressIPv6 := addressIPv6 i;
         llAddrs := llAddrs i; routes := routes i; bridge := bridge i; ns_path := ns_path i |}
  | OptAddress a =>
      {| srcName := srcName i; dstName := dstName i; master := master i; dstMaster := dstMaster i;
         mac := mac i; address := Some a; addressIPv6 := addressIPv6 i;
         llAddrs := llAddrs i; routes := routes i; bridge := bridge i; ns_path := ns_path i |}
  | OptAddressIPv6 a =>
      {| srcName := srcName i; dstName := dstName i; master := master i; dstMaster := dstMaster i;
         mac := mac i; address := address i; addressIPv6 := Some a;
         llAddrs := llAddrs i; routes := routes i; bridge := bridge i; ns_path := ns_path i |}
  | OptLinkLocalAddress a =>
      {| srcName := srcName i; dstName := dstName i; master := master i; dstMaster := dstMaster i;
         mac := mac i; address := address i; addressIPv6 := addressIPv6 i;
         llAddrs := llAddrs i ++ [Some a]; routes := routes i; bridge := bridge i;
         ns_path := ns_path i |}
  | OptRoute r =>
      {| srcName := srcName i; dstName := dstName i; master := master i; dstMaster := dstMaster i;
         mac := mac i; address := address i; addressIPv6 := addressIPv6 i;
         llAddrs := llAddrs i; routes := routes i ++ [Some r]; bridge := bridge i;
         ns_path := ns_path i |}
  | OptMaster name =>
      {| srcName := srcName i; dstName := dstName i; master := name; dstMaster := dstMaster i;
         mac := mac i; address := address i; addressIPv6 := addressIPv6 i;
         llAddrs := llAddrs i; routes := routes i; bridge := bridge i; ns_path := ns_path i |}
  | OptBridge =>
      {| srcName := srcName i; dstName := dstName i; master := master i; dstMaster := dstMaster i;
         mac := mac i; address := address i; addressIPv6 := addressIPv6 i;
         llAddrs := llAddrs i; routes := routes i; bridge := true; ns_path := ns_path i |}
  end.

Definition processInterfaceOptions (i : nwIface) (options : list IfaceOption) : nwIface :=
  fold_left applyOption options i.

(** ** The configurator pipeline *)

Section Configurators.

Variable k : Kernel.

Local Open Scope trace_scope.

(** The loop of checkRouteConflict over the routes the kernel returned. *)
Fixpoint conflictingRoute (address : IPNet) (routes : list netlink.Route) : option error :=
  match routes with
  | [] => None
  | route :: rest =>
      match netlink.Dst route with
      | Some dst =>
          if Contains dst (IP address) || Contains address (IP dst)
          then Some (ErrorNew (MsgConflict address route))
          else conflictingRoute address rest
      | None => conflictingRoute address rest
      end
  end.

Definition checkRouteConflict (nlh : Handle) (address : IPNet) (family : Z) : T (option error) :=
  r <- RouteList k nlh family ;;
  match r with
  | inl err => tret (Some (Errno err))
  | inr routes => tret (conflictingRoute address routes)
  end.

Definition sys (r : option syserr) : option error :=
  match r with Some e => Some (Errno e) | None => None end.

Definition setInterfaceMaster (nlh : Handle) (iface : netlink.Link) (i : nwIface) : T (option error) :=
  if String.eqb (DstMaster i) "" then tret None
  else r <- LinkSetMaster k nlh iface (DstMaster i) ;; tret (sys r).

Definition setInterfaceMAC (nlh : Handle) (iface : netlink.Link) (i : nwIface) : T (option error) :=
  match MacAddress i with
  | None => tret None
  | Some m => r <- LinkSetHardwareAddr k nlh iface m ;; tret (sys r)
  end.

Definition setInterfaceIP (nlh : Handle) (iface : netlink.Link) (i : nwIface) : T (option error) :=
  match Address i with
  | None => tret None
  | Some a =>
      c <- checkRouteConflict nlh a netlink.FAMILY_V4 ;;
      match c with
      | Some err => tret (Some err)
      | None =>
          r <- AddrAdd k nlh iface
                 {| netlink.IPNet := Address i; netlink.Label := ""; netlink.Flags := 0 |} ;;
          tret (sys r)
      end
  end.

Definition setInterfaceIPv6 (nlh : Handle) (iface : netlink.Link) (i : nwIface) : T (option error) :=
  match AddressIPv6 i with
  | None => tret None
  | Some a =>
      c <- checkRouteConflict nlh a netlink.FAMILY_V6 ;;
      match c with
      | Some err => tret (Some err)
      | None =>
          e <- setIPv6 k (ns_path i) (DstName i) true ;;
          match e with
          | Some err => tret (Some (Errorf MsgEnableIPv6 (Errno err)))
          | None =>
              r <- AddrAdd k nlh iface
                     {| netlink.IPNet := AddressIPv6 i; netlink.Label := "";
                        netlink.Flags := IFA_F_NODAD |} ;;
              tret (sys r)
          end
      end
  end.

Fixpoint addLinkLocalIPs (nlh : Handle) (iface : netlink.Link)
         (lls : list (option IPNet)) : T (option error) :=
  match lls with
  | [] => tret None
  | llIP :: rest =>
      r <- AddrAdd k nlh iface
             {| netlink.IPNet := llIP; netlink.Label := ""; netlink.Flags := 0 |} ;;
      match r with
      | Some err => tret (Some (Errno err))
      | None => addLinkLocalIPs nlh iface rest
      end
  end.

Definition setInterfaceLinkLocalIPs (nlh : Handle) (iface : netlink.Link) (i : nwIface)
  : T (option error) :=
  addLinkLocalIPs nlh iface (LinkLocalAddresses i).

Definition setInterfaceName (nlh : Handle) (iface : netlink.Link) (i : nwIface) : T (option error) :=
  r <- LinkSetName k nlh iface (DstName i) ;; tret (sys r).

Fixpoint addRoutes (nlh : Handle) (iface : netlink.Link)
         (rs : list (option IPNet)) : T (option error) :=
  match rs with
  | [] => tret None
  | route :: rest =>
      r <- RouteAdd k nlh
             {| netlink.Scope := netlink.SCOPE_LINK;
                netlink.LinkIndex := netlink.Index iface;
                netlink.Dst := route |} ;;
      match r with
      | Some err => tret (Some (Errno err))
      | None => addRoutes nlh iface rest
      end
  end.

Definition setInterfaceRoutes (nlh : Handle) (iface : netlink.Link) (i : nwIface) : T (option error) :=
  addRoutes nlh iface (Routes i).

Definition configurator : Type := Handle -> netlink.Link -> nwIface -> T (option error).

(** The table of configureInterface: each step with its message. *)
Definition ifaceConfigurators (iface : netlink.Link) (i : nwIface) : list (configurator * Msg) :=
  let ifaceName := netlink.Name iface in
  [ (setInterfaceName, MsgRename ifaceName (DstName i));
    (setInterfaceMAC, MsgMAC ifaceName (MacAddress i));
    (setInterfaceIP, MsgIP ifaceName (Address i));
    (setInterfaceIPv6, MsgIPv6 ifaceName (AddressIPv6 i));
    (setInterfaceMaster, MsgMaster ifaceName (DstMaster i));
    (setInterfaceLinkLocalIPs, MsgLinkLocal ifaceName (LinkLocalAddresses i)) ].

(** The loop of configureInterface over the table. *)
Fixpoint runConfigurators (nlh : Handle) (iface : netlink.Link) (i : nwIface)
         (configs : list (configurator * Msg)) : T (option error) :=
  match configs with
  | [] => tret None
  | config :: rest =>
      r <- config.1 nlh iface i ;;
      match r with
      | Some err => tret (Some (Errorf config.2 err))
      | None => runConfigurators nlh iface i rest
      end
  end.

Definition configureInterface (nlh : Handle) (iface : netlink.Link) (i : nwIface) : T (option error) :=
  runConfigurators nlh iface i (ifaceConfigurators iface i).

(** The activation loop of AddInterface: [cnt] retries are left and [err]
    is the error of the last attempt. *)
Fixpoint retryLinkSetUp (nlh : Handle) (iface : netlink.Link) (cnt : nat)
         (err : option syserr) : T (option syserr) :=
  match err with
  | None => tret None
  | Some e =>
      match cnt with
      | O => tret (Some e)
      | S cnt' =>
          _ <- Log (LogRetryLinkUp e) ;;
          _ <- Sleep 10 ;;
          err' <- LinkSetUp k nlh iface ;;
          retryLinkSetUp nlh iface cnt' err'
      end
  end.

Definition linkSetUpWithRetry (nlh : Handle) (iface : netlink.Link) : T (option syserr) :=
  err <- LinkSetUp k nlh iface ;;
  retryLinkSetUp nlh iface 3 err.

(** Statistics, on the entity behind the receiver. *)
Definition Statistics (i : nwIface) : T (error + types.InterfaceStatistics) :=
  r <- LinkByName k NsHandle (DstName i) ;;
  match r with
  | inl err => tret (inl (Errorf (MsgStatistics (DstName i) (ns_path i)) (Errno err)))
  | inr l =>
      match netlink.Statistics l with
      | None => tret (inl (ErrorNew MsgNoStatistics))
      | Some stats =>
          tret (inr {| types.RxBytes := netlink.RxBytes stats;
                       types.TxBytes := netlink.TxBytes stats;
                       types.RxPackets := netlink.RxPackets stats;
                       types.TxPackets := netlink.TxPackets stats;
                       types.RxDropped := netlink.RxDropped stats;
                       types.TxDropped := netlink.TxDropped stats |})
      end
  end.

End Configurators.

(** ** The state and the lifecycle operations *)

Record State := {
  heap : list nwIface;
  reg : networkNamespace;
  trace : Trace
}.

Definition set_heap (v : list nwIface) (s : State) : State :=
  {| heap := v; reg := reg s; trace := trace s |}.
Definition set_reg (v : networkNamespace) (s : State) : State :=
  {| heap := heap s; reg := v; trace := trace s |}.
Definition set_trace (v : Trace) (s : State) : State :=
  {| heap := heap s; reg := reg s; trace := v |}.

(** The frame of a running function: the state and the calls it deferred,
    the last deferred first. *)
Record Frame := { st : State; deferred : list Call }.

(** The body of a function that returns an error: [inl err] is "return
    err", taken at once; [inr a] goes on with [a]. *)
Definition E (A : Type) : Type := Frame -> (error + A) * Frame.

Definition eret {A} (a : A) : E A := fun f => (inr a, f).
Definition throw {A} (err : error) : E A := fun f => (inl err, f).
Definition ebind {A B} (m : E A) (g : A -> E B) : E B :=
  fun f => match m f with
           | (inl err, f') => (inl err, f')
           | (inr a, f') => g a f'
           end.
Definition gets {A} (g : State -> A) : E A := fun f => (inr (g (st f)), f).
Definition modify (g : State -> State) : E unit :=
  fun f => (inr tt, {| st := g (st f); deferred := deferred f |}).
Definition liftT {A} (m : T A) : E A :=
  fun f => let (a, tr) := m (trace (st f)) in
           (inr a, {| st := set_trace tr (st f); deferred := deferred f |}).

(** defer c *)
Definition defer (c : Call) : E unit :=
  fun f => (inr tt, {| st := st f; deferred := c :: deferred f |}).

(** A call of the function with body [m]: the body runs in a new frame and
    the deferred calls run when it returns, whichever way. *)
Definition func {A} (m : E A) : State -> (error + A) * State :=
  fun s => let (r, f) := m {| st := s; deferred := [] |} in
           (r, set_trace (trace (st f) ++ deferred f) (st f)).

Declare Scope op_scope.
Delimit Scope op_scope with E.
Notation "x <- m ;; k" := (ebind m (fun x => k))
  (at level 100, m at next level, right associativity, only parsing) : op_scope.
Notation "m ;;; k" := (ebind m (fun _ => k))
  (at level 100, right associativity, only parsing) : op_scope.

(** if err != nil { return wrap(err) } *)
Definition check (wrap : error -> error) (r : option syserr) : E unit :=
  match r with Some err => throw (wrap (Errno err)) | None => eret tt end.

Definition checked {A} (wrap : error -> error) (r : syserr + A) : E A :=
  match r with inl err => throw (wrap (Errno err)) | inr a => eret a end.

(** The counter is a Go int: 64 bits, two's complement. *)
Definition wrap64 (z : Z) : Z := (z + 2 ^ 63) mod 2 ^ 64 - 2 ^ 63.

(** The scan of findDst over the registered entities. A registered pointer
    is never nil; one that is not in the heap is passed over. *)
Fixpoint findDstIn (h : list nwIface) (l : list ptr) (src : string) (isBridge : bool) : string :=
  match l with
  | [] => ""
  | p :: rest =>
      match h !! p with
      | Some i =>
          if String.eqb (SrcName i) src && (negb isBridge || Bridge i)
          then DstName i
          else findDstIn h rest src isBridge
      | None => findDstIn h rest src isBridge
      end
  end.

Definition findDst (s : State) (src : string) (isBridge : bool) : string :=
  findDstIn (heap s) (iFaces (reg s)) src isBridge.

(** The first index of [p] in the collection, from [index] on. *)
Fixpoint indexOf (p : ptr) (l : list ptr) (index : nat) : option nat :=
  match l with
  | [] => None
  | intf :: rest => if decide (intf = p) then Some index else indexOf p rest (S index)
  end.

(** The loop of Remove over i.ns.iFaces: the first element identical to the
    receiver is cut out, append(iFaces[:index], iFaces[index+1:]...). *)
Definition removeIface (p : ptr) (l : list ptr) : list ptr :=
  match indexOf p l 0 with
  | Some index => take index l ++ drop (S index) l
  | None => l
  end.

Section Lifecycle.

Variable k : Kernel.

Local Open Scope op_scope.

(** Modelled from the spec: checkLoV6 is defined outside this file; the
    spec has it as a fire-and-forget fix-up of the IPv6 loopback state of
    the namespace, with no error surfaced. *)
Definition checkLoV6 : E unit :=
  fun f => (inr tt,
            {| st := {| heap := heap (st f);
                        reg := set_loV6Enabled (on_checkLoV6 k (trace (st f))) (reg (st f));
                        trace := trace (st f) ++ [EvCheckLoV6] |};
               deferred := deferred f |}).

(** i := &nwIface{...}; i.processInterfaceOptions(options...) *)
Definition newIface (src dstPrefix : string) (options : list IfaceOption) : E (ptr * nwIface) :=
  s <- gets (fun s => s) ;;
  let i := processInterfaceOptions
             {| srcName := src; dstName := dstPrefix; master := ""; dstMaster := "";
                mac := None; address := None; addressIPv6 := None;
                llAddrs := []; routes := []; bridge := false;
                ns_path := path (reg s) |} options in
  modify (set_heap (heap s ++ [i])) ;;;
  eret (length (heap s), i).

(** A write to a field of the entity behind [p]. *)
Definition store (p : ptr) (i : nwIface) : E unit :=
  modify (fun s => set_heap (<[p := i]> (heap s)) s).

Definition resolveMaster (p : ptr) (i : nwIface) : E nwIface :=
  if negb (String.eqb (master i) "") then
    dm <- gets (fun s => findDst s (master i) true) ;;
    store p (set_dstMaster dm i) ;;;
    if String.eqb dm "" then throw (ErrorNew (MsgMasterNotFound (master i) (srcName i)))
    else eret (set_dstMaster dm i)
  else eret i.

Definition allocDstName (p : ptr) (i : nwIface) (dstPrefix : string) : E nwIface :=
  n <- gets reg ;;
  if isDefault n then
    store p (set_dstName (srcName i) i) ;;;
    eret (set_dstName (srcName i) i)
  else
    let c := default 0 (nextIfIndex n !! dstPrefix) in
    store p (set_dstName (dstPrefix +:+ pretty c) i) ;;;
    modify (fun s => set_reg (set_nextIfIndex (<[dstPrefix := wrap64 (c + 1)]> (nextIfIndex n))
                                              (reg s)) s) ;;;
    eret (set_dstName (dstPrefix +:+ pretty c) i).

(** What AddInterface does when configureInterface failed with [err]. *)
Definition rollbackPlacement (iface : netlink.Link) (i : nwIface) (err : error) : T unit :=
  (nerr <- LinkSetName k NsHandle iface (SrcName i) ;;
   _ <- match nerr with
        | Some ne => Log (LogRollbackRename (DstName i) (SrcName i) ne err)
        | None => tret tt
        end ;;
   nerr <- LinkSetNsFd k NsHandle iface (ParseHandlerInt k) ;;
   match nerr with
   | Some ne => Log (LogRollbackMove (SrcName i) ne err)
   | None => tret tt
   end)%T.

(** AddInterface, first part: the entity, its master and its destination
    name. *)
Definition nameIface (src dstPrefix : string) (options : list IfaceOption) : E (ptr * nwIface) :=
  pi <- newIface src dstPrefix options ;;
  i <- resolveMaster pi.1 pi.2 ;;
  i <- allocDstName pi.1 i dstPrefix ;;
  eret (pi.1, i).

(** AddInterface, second part: the placement of the device, the second
    lookup and the link set down. *)
Definition placeIface (i : nwIface) : E netlink.Link :=
  n <- gets reg ;;
  (if bridge i then
     r <- liftT (LinkAdd k NsHandle (srcName i)) ;;
     check (Errorf (MsgCreateBridge (srcName i))) r
   else
     r <- liftT (LinkByName k HostHandle (srcName i)) ;;
     iface <- checked (Errorf (MsgLinkByName (srcName i))) r ;;
     if negb (isDefault n) then
       r <- liftT (GetFromPath k (path n)) ;;
       newNs <- checked (Errorf (MsgGetNamespace (path n))) r ;;
       defer (EvClose newNs) ;;;
       r <- liftT (LinkSetNsFd k HostHandle iface newNs) ;;
       check (Errorf (MsgSetNamespace (srcName i))) r
     else eret tt) ;;;
  r <- liftT (LinkByName k NsHandle (srcName i)) ;;
  iface <- checked (Errorf (MsgLinkByName (srcName i))) r ;;
  r <- liftT (LinkSetDown k NsHandle iface) ;;
  check (Errorf MsgLinkDown) r ;;;
  eret iface.

(** AddInterface up to the call of configureInterface. *)
Definition addPrelude (src dstPrefix : string) (options : list IfaceOption)
  : E (ptr * nwIface * netlink.Link) :=
  pi <- nameIface src dstPrefix options ;;
  iface <- placeIface pi.2 ;;
  eret (pi, iface).

(** AddInterface from the call of configureInterface to the end. *)
Definition addConfigured (p : ptr) (i : nwIface) (iface : netlink.Link) : E unit :=
  cerr <- liftT (configureInterface k NsHandle iface i) ;;
  match cerr with
  | Some err => liftT (rollbackPlacement iface i err) ;;; throw err
  | None => eret tt
  end ;;;
  uerr <- liftT (linkSetUpWithRetry k NsHandle iface) ;;
  check (Errorf MsgLinkUp) uerr ;;;
  rerr <- liftT (setInterfaceRoutes k NsHandle iface i) ;;
  match rerr with
  | Some err => throw (Errorf (MsgRoutes (netlink.Name iface) (Routes i)) err)
  | None => eret tt
  end ;;;
  modify (fun s => set_reg (set_iFaces (iFaces (reg s) ++ [p]) (reg s)) s) ;;;
  checkLoV6.

Definition AddInterface (src dstPrefix : string) (options : list IfaceOption)
  : State -> (error + unit) * State :=
  func (x <- addPrelude src dstPrefix options ;; addConfigured x.1.1 x.1.2 x.2).

(** The body of Remove, with the receiver [p] and the entity [i] behind it. *)
Definition removeBody (p : ptr) (i : nwIface) : E unit :=
  n <- gets reg ;;
  r <- liftT (LinkByName k NsHandle (DstName i)) ;;
  iface <- checked (fun err => err) r ;;
  r <- liftT (LinkSetDown k NsHandle iface) ;;
  check (fun err => err) r ;;;
  r <- liftT (LinkSetName k NsHandle iface (SrcName i)) ;;
  match r with
  | Some err => liftT (Log (LogSetNameFailed (SrcName i) err)) ;;; throw (Errno err)
  | None => eret tt
  end ;;;
  (if Bridge i then
     r <- liftT (LinkDel k NsHandle iface) ;;
     check (Errorf (MsgDeleteBridge (SrcName i))) r
   else if negb (isDefault n) then
     r <- liftT (LinkSetNsFd k NsHandle iface (ParseHandlerInt k)) ;;
     match r with
     | Some err => liftT (Log (LogSetNsFailed (SrcName i) err)) ;;; throw (Errno err)
     | None => eret tt
     end
   else eret tt) ;;;
  modify (fun s => set_reg (set_iFaces (removeIface p (iFaces (reg s))) (reg s)) s) ;;;
  checkLoV6.

Definition Remove (p : ptr) (i : nwIface) : State -> (error + unit) * State :=
  func (removeBody p i).

(** A method called on the pointer [p]: [None] is the nil dereference. *)
Definition method {A} (p : ptr) (f : nwIface -> State -> A) (s : State) : option A :=
  match heap s !! p with
  | Some i => Some (f i s)
  | None => None
  end.

(** The calls a client makes on one registry, in sequence. *)
Inductive Op :=
| OpAdd (src dstPrefix : string) (options : list IfaceOption)
| OpRemove (p : ptr)
| OpStatistics (p : ptr).

Definition runOp (s : State) (o : Op) : State :=
  match o with
  | OpAdd src dstPrefix options => (AddInterface src dstPrefix options s).2
  | OpRemove p =>
      match method p (Remove p) s with Some r => r.2 | None => s end
  | OpStatistics p =>
      match method p (fun i s => set_trace (Statistics k i (trace s)).2 s) s with
      | Some s' => s'
      | None => s
      end
  end.

Definition runOps (s : State) (ops : list Op) : State := fold_left runOp ops s.

End Lifecycle.

(** ** The accessors over a store

    The fields of nwIface that are slices or pointers, with the memory they
    share. A location is an index in the store; a slice of this file is nil
    or one whole backing array, since no code here takes a sub-slice of
    these fields. *)

Module Refs.

Abbreviation loc := nat.
Abbreviation slice := (option nat).

(** A net.IPNet struct in memory: two byte slices. *)
Record IPNet := { IP : slice; Mask : slice }.

Record Store := {
  bytes : list (list Z);
  nets : list IPNet;
  arrays : list (list (option loc))
}.

Record nwIface := {
  srcName : string;
  dstName : string;
  master : string;
  dstMaster : string;
  mac : slice;
  address : option loc;
  addressIPv6 : option loc;
  llAddrs : slice;
  routes : slice;
  bridge : bool;
  ns_path : string
}.

Definition bytesAt (st : Store) (a : loc) : list Z := default [] (bytes st !! a).
Definition arrayAt (st : Store) (a : loc) : list (option loc) := default [] (arrays st !! a).

(** make and new: the fresh location is the next index. *)
Definition allocBytes (v : list Z) (st : Store) : loc * Store :=
  (length (bytes st),
   {| bytes := bytes st ++ [v]; nets := nets st; arrays := arrays st |}).
Definition allocNet (n : IPNet) (st : Store) : loc * Store :=
  (length (nets st),
   {| bytes := bytes st; nets := nets st ++ [n]; arrays := arrays st |}).
Definition allocArray (v : list (option loc)) (st : Store) : loc * Store :=
  (length (arrays st),
   {| bytes := bytes st; nets := nets st; arrays := arrays st ++ [v] |}).

(** a[j] = q on a backing array of pointers *)
Definition setElem (a : loc) (j : nat) (q : option loc) (st : Store) : Store :=
  {| bytes := bytes st; nets := nets st;
     arrays := <[a := <[j := q]> (arrayAt st a)]> (arrays st) |}.

(** Modelled from the spec: types.GetMacCopy is one of the copy-safety
    helpers the spec names as collaborators; a nil address stays nil and
    any other is copied into a new array. *)
Definition GetMacCopy (from : slice) (st : Store) : slice * Store :=
  match from with
  | None => (None, st)
  | Some a => let (b, st') := allocBytes (bytesAt st a) st in (Some b, st')
  end.

(** Modelled from the spec: types.GetIPCopy, as GetMacCopy. *)
Definition GetIPCopy (from : slice) (st : Store) : slice * Store :=
  match from with
  | None => (None, st)
  | Some a => let (b, st') := allocBytes (bytesAt st a) st in (Some b, st')
  end.

(** Modelled from the spec: types.GetIPNetCopy; nil stays nil, and a
    network is copied into a new struct with a new mask and a new
    address. *)
Definition GetIPNetCopy (from : option loc) (st : Store) : option loc * Store :=
  match from with
  | None => (None, st)
  | Some p =>
      match nets st !! p with
      | None => (None, st)
      | Some n =>
          let (bm, st1) :=
            allocBytes (match Mask n with Some a => bytesAt st a | None => [] end) st in
          let (ip, st2) := GetIPCopy (IP n) st1 in
          let (q, st3) := allocNet {| IP := ip; Mask := Some bm |} st2 in
          (Some q, st3)
      end
  end.

Definition MacAddress (i : nwIface) : Store -> slice * Store := GetMacCopy (mac i).
Definition Address (i : nwIface) : Store -> option loc * Store := GetIPNetCopy (address i).
Definition AddressIPv6 (i : nwIface) : Store -> option loc * Store :=
  GetIPNetCopy (addressIPv6 i).
Definition LinkLocalAddresses (i : nwIface) : slice := llAddrs i.

(** The loop of Routes: routes[index] = types.GetIPNetCopy(route). *)
Fixpoint copyRoutes (dst : loc) (index : nat) (rs : list (option loc)) (st : Store) : Store :=
  match rs with
  | [] => st
  | route :: rest =>
      let (c, st') := GetIPNetCopy route st in
      copyRoutes dst (S index) rest (setElem dst index c st')
  end.

Definition Routes (i : nwIface) (st : Store) : slice * Store :=
  let rs := match routes i with Some a => arrayAt st a | None => [] end in
  let (dst, st') := allocArray (replicate (length rs) None) st in
  (Some dst, copyRoutes dst 0 rs st').

(** *** What a reference denotes *)

Definition bytesOf (st : Store) (s : slice) : option (list Z) :=
  match s with Some a => Some (bytesAt st a) | None => None end.

Definition netOf (st : Store) (p : option loc) : option GoNet.IPNet :=
  match p with
  | None => None
  | Some p =>
      match nets st !! p with
      | None => None
      | Some n =>
          Some {| GoNet.IP := default [] (bytesOf st (IP n));
                  GoNet.Mask := default [] (bytesOf st (Mask n)) |}
      end
  end.

Definition netsOf (st : Store) (s : slice) : list (option GoNet.IPNet) :=
  match s with
  | Some a => map (netOf st) (arrayAt st a)
  | None => []
  end.

(** *** What a caller can write *)

Inductive Write :=
| WByte (a : loc) (j : nat) (v : Z)          (* b[j] = v on a byte slice *)
| WNetIP (p : loc) (s : slice)               (* p.IP = s *)
| WNetMask (p : loc) (s : slice)             (* p.Mask = s *)
| WElem (a : loc) (j : nat) (q : option loc) (* a[j] = q *).

Definition write (st : Store) (w : Write) : Store :=
  match w with
  | WByte a j v =>
      {| bytes := <[a := <[j := v]> (bytesAt st a)]> (bytes st);
         nets := nets st; arrays := arrays st |}
  | WNetIP p s =>
      {| bytes := bytes st;
         nets := match nets st !! p with
                 | Some n => <[p := {| IP := s; Mask := Mask n |}]> (nets st)
                 | None => nets st
                 end;
         arrays := arrays st |}
  | WNetMask p s =>
      {| bytes := bytes st;
         nets := match nets st !! p with
                 | Some n => <[p := {| IP := IP n; Mask := s |}]> (nets st)
                 | None => nets st
                 end;
         arrays := arrays st |}
  | WElem a j q => setElem a j q st
  end.

(** The write goes to memory that [st] does not have. *)
Definition freshFor (st : Store) (w : Write) : Prop :=
  match w with
  | WByte a _ _ => length (bytes st) <= a
  | WNetIP p _ | WNetMask p _ => length (nets st) <= p
  | WElem a _ _ => length (arrays st) <= a
  end%nat.

(** The write goes through the byte slice [s]. *)
Definition throughBytes (s : slice) (w : Write) : Prop :=
  match w with WByte a _ _ => s = Some a | _ => False end.

(** The write goes through the pointer [p]: to the struct or to the bytes
    of its address or mask. *)
Definition throughNet (st : Store) (p : option loc) (w : Write) : Prop :=
  match p with
  | None => False
  | Some p =>
      match w with
      | WNetIP q _ | WNetMask q _ => q = p
      | WByte a _ _ =>
          exists n, nets st !! p = Some n /\ (IP n = Some a \/ Mask n = Some a)
      | WElem _ _ _ => False
      end
  end.

(** The write goes through the slice of pointers [s]: to an element or
    through one. *)
Definition throughNets (st : Store) (s : slice) (w : Write) : Prop :=
  match s with
  | None => False
  | Some a =>
      match w with
      | WElem b _ _ => b = a
      | _ => exists p, p ∈ arrayAt st a /\ throughNet st p w
      end
  end.

(** Every reference the store or the entity holds points into the store. *)
Definition sliceIn {A} (l : list A) (s : slice) : Prop :=
  match s with Some a => (a < length l)%nat | None => True end.

Record wfStore (st : Store) : Prop := {
  wf_nets : forall p n, nets st !! p = Some n ->
              sliceIn (bytes st) (IP n) /\ sliceIn (bytes st) (Mask n);
  wf_arrays : forall a l q, arrays st !! a = Some l -> q ∈ l -> sliceIn (nets st) q
}.

Record wfIface (st : Store) (i : nwIface) : Prop := {
  wf_mac : sliceIn (bytes st) (mac i);
  wf_address : sliceIn (nets st) (address i);
  wf_addressIPv6 : sliceIn (nets st) (addressIPv6 i);
  wf_llAddrs : sliceIn (arrays st) (llAddrs i);
  wf_routes : sliceIn (arrays st) (routes i)
}.

End Refs.

(** The entity a stored one denotes. *)
Definition load (st : Refs.Store) (i : Refs.nwIface) : nwIface :=
  {| srcName := Refs.srcName i;
     dstName := Refs.dstName i;
     master := Refs.master i;
     dstMaster := Refs.dstMaster i;
     mac := Refs.bytesOf st (Refs.mac i);
     address := Refs.netOf st (Refs.address i);
     addressIPv6 := Refs.netOf st (Refs.addressIPv6 i);
     llAddrs := Refs.netsOf st (Refs.llAddrs i);
     routes := Refs.netsOf st (Refs.routes i);
     bridge := Refs.bridge i;
     ns_path := Refs.ns_path i |}.

(** [st'] has everything [st] has, at the same locations. *)
Definition extends (st st' : Refs.Store) : Prop :=
  Refs.bytes st `prefix_of` Refs.bytes st' /\
  Refs.nets st `prefix_of` Refs.nets st' /\
  Refs.arrays st `prefix_of` Refs.arrays st'.

(** The slice is nil or lies outside the list. *)
Definition sliceFresh {A} (l : list A) (s : Refs.slice) : Prop :=
  match s with Some a => (length l <= a)%nat | None => True end.

(** In [st], what was made after [st0] refers only to what was made after
    [st0]: a new struct to new bytes, a new array to new structs. *)
Definition newOnly (st0 st : Refs.Store) : Prop :=
  (forall p n, (length (Refs.nets st0) <= p)%nat -> Refs.nets st !! p = Some n ->
               sliceFresh (Refs.bytes st0) (Refs.IP n) /\
               sliceFresh (Refs.bytes st0) (Refs.Mask n)) /\
  (forall a l q, (length (Refs.arrays st0) <= a)%nat -> Refs.arrays st !! a = Some l ->
                 q ∈ l -> sliceFresh (Refs.nets st0) q).

(** ** The pipeline as the specification words it

    The six steps in their order, each with its message and the calls it
    makes when nothing fails; a step with nothing to do makes none. *)

Definition stepCalls (nlh : Handle) (iface : netlink.Link) (i : nwIface) : list (Msg * list Call) :=
  let ifaceName := netlink.Name iface in
  [ (MsgRename ifaceName (dstName i),
     [EvLinkSetName nlh iface (dstName i)]);
    (MsgMAC ifaceName (mac i),
     match mac i with
     | Some m => [EvLinkSetHardwareAddr nlh iface m]
     | None => []
     end);
    (MsgIP ifaceName (address i),
     match address i with
     | Some a =>
         [EvRouteList nlh netlink.FAMILY_V4;
          EvAddrAdd nlh iface
            {| netlink.IPNet := Some a; netlink.Label := ""; netlink.Flags := 0 |}]
     | None => []
     end);
    (MsgIPv6 ifaceName (addressIPv6 i),
     match addressIPv6 i with
     | Some a =>
         [EvRouteList nlh netlink.FAMILY_V6;
          EvSetIPv6 (ns_path i) (dstName i) true;
          EvAddrAdd nlh iface
            {| netlink.IPNet := Some a; netlink.Label := ""; netlink.Flags := IFA_F_NODAD |}]
     | None => []
     end);
    (MsgMaster ifaceName (dstMaster i),
     if String.eqb (dstMaster i) "" then [] else [EvLinkSetMaster nlh iface (dstMaster i)]);
    (MsgLinkLocal ifaceName (llAddrs i),
     map (fun ll => EvAddrAdd nlh iface
                      {| netlink.IPNet := ll; netlink.Label := ""; netlink.Flags := 0 |})
         (llAddrs i)) ].

(** A step that makes the calls [calls] when it succeeds and stops inside
    them when it fails. *)
Definition stepMakes (f : T (option error)) (calls : list Call) : Prop :=
  forall tr,
    match f tr with
    | (None, tr') => tr' = tr ++ calls
    | (Some _, tr') => exists d, d <> [] /\ d `prefix_of` calls /\ tr' = tr ++ d
    end.

(** ** Notions the properties are stated with *)

(** Every run of [m] relates the frame it starts in to the frame it ends in
    by [P]. *)
Definition keeps {A} (P : Frame -> Frame -> Prop) (m : E A) : Prop :=
  forall f r f', m f = (r, f') -> P f f'.

(** Every error [m] returns satisfies [Q]. *)
Definition raises {A} (Q : error -> Prop) (m : E A) : Prop :=
  forall f e f', m f = (inl e, f') -> Q e.

(** The calls that place a device: lookups, the creation of a bridge, the
    move between namespaces and the link set down. *)
Definition isPlacementCall (c : Call) : bool :=
  match c with
  | EvLinkByName _ _ | EvLinkAdd _ _ | EvGetFromPath _
  | EvLinkSetNsFd _ _ _ | EvLinkSetDown _ _ => true
  | _ => false
  end.

Definition isClose (c : Call) : bool :=
  match c with EvClose _ => true | _ => false end.

Definition isAddrAdd (c : Call) : bool :=
  match c with EvAddrAdd _ _ _ => true | _ => false end.

Definition isSetIPv6 (c : Call) : bool :=
  match c with EvSetIPv6 _ _ _ => true | _ => false end.

Definition isLinkSetUp (c : Call) : bool :=
  match c with EvLinkSetUp _ _ => true | _ => false end.

(** What the prelude of AddInterface may do to a frame: make placement
    calls, defer the Close of a namespace, and leave the collection, the
    path and the flags of the registry alone. *)
Definition placementStep (f f' : Frame) : Prop :=
  (exists d, trace (st f') = trace (st f) ++ d /\ forallb isPlacementCall d = true) /\
  (exists c, deferred f' = c ++ deferred f /\ forallb isClose c = true) /\
  iFaces (reg (st f')) = iFaces (reg (st f)) /\
  path (reg (st f')) = path (reg (st f)) /\
  isDefault (reg (st f')) = isDefault (reg (st f)) /\
  loV6Enabled (reg (st f')) = loV6Enabled (reg (st f)).

(** An error of the prelude: it is not the error of a configurator. *)
Definition isPlacementError (e : error) : bool :=
  match e with
  | ErrorNew (MsgMasterNotFound _ _) => true
  | Errorf (MsgCreateBridge _) (Errno _)
  | Errorf (MsgLinkByName _) (Errno _)
  | Errorf (MsgGetNamespace _) (Errno _)
  | Errorf (MsgSetNamespace _) (Errno _)
  | Errorf MsgLinkDown (Errno _) => true
  | _ => false
  end.

(** The calls of the activation loop up to the attempt that follows the
    failed attempts [errs]: each failed attempt, the log entry of its error
    and the delay. *)
Definition retryTrace (up : Call) (tr : Trace) (errs : list syserr) : Trace :=
  tr ++ concat (map (fun e => [up; EvLog (LogRetryLinkUp e); EvSleep 10]) errs).

(** What the rest of AddInterface, once the entity is named, and Remove
    may do to a frame: the heap, the counters and the default flag stay. *)
Definition effectStep (f f' : Frame) : Prop :=
  heap (st f') = heap (st f) /\
  nextIfIndex (reg (st f')) = nextIfIndex (reg (st f)) /\
  isDefault (reg (st f')) = isDefault (reg (st f)).

(** The first part of an AddInterface called in the state [s]. *)
Definition named (src dstPrefix : string) (options : list IfaceOption) (s : State)
  : (error + ptr * nwIface) * Frame :=
  nameIface src dstPrefix options {| st := s; deferred := [] |}.

(** The prefix and the destination name of a call that got a name. *)
Definition allocation (s : State) (o : Op) : list (string * string) :=
  match o with
  | OpAdd src dstPrefix options =>
      match (named src dstPrefix options s).1 with
      | inr pi => [(dstPrefix, dstName pi.2)]
      | inl _ => []
      end
  | _ => []
  end.

(** The names given out along a sequence of calls, in order. *)
Fixpoint allocations (k : Kernel) (s : State) (ops : list Op) : list (string * string) :=
  match ops with
  | [] => []
  | o :: rest => allocation s o ++ allocations k (runOp k s o) rest
  end.

(** How many of the prefixes [l] are [p]. *)
Definition countOf (p : string) (l : list string) : nat :=
  length (List.filter (String.eqb p) l).

(** The candidate network contains, or is contained by, the destination of
    some route of the list. *)
Definition conflictsWith (a : IPNet) (routes : list netlink.Route) : Prop :=
  exists route dst,
    route ∈ routes /\ netlink.Dst route = Some dst /\
    (net_contains a dst \/ net_contains dst a).

Definition noAddrAdd (d : list Call) : bool := forallb (fun c => negb (isAddrAdd c)) d.
Definition noSetIPv6 (d : list Call) : bool := forallb (fun c => negb (isSetIPv6 c)) d.

(** The test of checkRouteConflict holds for some route of the list: the
    destination of the route holds the address of the candidate, or the
    candidate holds the address of the destination. *)
Definition overlapsWith (a : IPNet) (routes : list netlink.Route) : Prop :=
  exists route dst,
    route ∈ routes /\ netlink.Dst route = Some dst /\
    Contains dst (IP a) || Contains a (IP dst) = true.

(** ** Notions of the further properties *)

(** The test of findDst on one entity. *)
Definition isDstFor (src : string) (isBridge : bool) (i : nwIface) : Prop :=
  srcName i = src /\ (isBridge = true -> bridge i = true).

(** Every registered pointer is in the heap and is registered once. *)
Definition wfState (s : State) : Prop :=
  NoDup (iFaces (reg s)) /\
  Forall (fun p => (p < length (heap s))%nat) (iFaces (reg s)).

(** Every call [m] makes satisfies [P]. *)
Definition makesOnly {A} (P : Call -> bool) (m : T A) : Prop :=
  forall tr, exists d, (m tr).2 = tr ++ d /\ forallb P d = true.

(** The calls AddInterface makes on the placed device before it adds the
    routes: those of the pipeline, of the rollback and of the activation,
    all on the handle of the sandbox. *)
Definition isConfigCall (c : Call) : bool :=
  match c with
  | EvLinkSetName NsHandle _ _ | EvLinkSetHardwareAddr NsHandle _ _
  | EvLinkSetMaster NsHandle _ _ | EvAddrAdd NsHandle _ _
  | EvRouteList NsHandle _ | EvLinkSetNsFd NsHandle _ _ | EvLinkSetUp NsHandle _
  | EvSetIPv6 _ _ _ | EvSleep _ | EvLog _ => true
  | _ => false
  end.

Definition isGetFromPath (c : Call) : bool :=
  match c with EvGetFromPath _ => true | _ => false end.

Definition isCheckLoV6 (c : Call) : bool :=
  match c with EvCheckLoV6 => true | _ => false end.

Definition isRouteAdd (c : Call) : bool :=
  match c with EvRouteAdd _ _ => true | _ => false end.

(** The call setInterfaceRoutes makes for one route: a link-scope route to
    it through the device. *)
Definition routeAdd (nlh : Handle) (iface : netlink.Link) (route : option IPNet) : Call :=
  EvRouteAdd nlh {| netlink.Scope := netlink.SCOPE_LINK;
                    netlink.LinkIndex := netlink.Index iface;
                    netlink.Dst := route |}.

(** The descriptors that the calls [d], made after [tr], got from
    GetFromPath. *)
Fixpoint opened (k : Kernel) (tr : Trace) (d : list Call) : list Z :=
  match d with
  | [] => []
  | c :: d' =>
      match c with
      | EvGetFromPath p =>
          match on_GetFromPath k tr p with inr fd => [fd] | inl _ => [] end
      | _ => []
      end ++ opened k (tr ++ [c]) d'
  end.









(** Collaborators that answer every call without an error, and whose
    routes conflict with no address of the entity [i]. *)
Definition quiet (k : Kernel) (i : nwIface) : Prop :=
  (forall tr c, on_call k tr c = None) /\
  (forall tr h name, exists l, on_LinkByName k tr h name = inr l) /\
  (forall tr p, exists fd, on_GetFromPath k tr p = inr fd) /\
  (forall tr h family a,
     address i = Some a \/ addressIPv6 i = Some a ->
     exists routes,
       on_RouteList k tr h family = inr routes /\ conflictingRoute a routes = None).

(** ** Stub collaborators and sample values *)

Module Stub.

Definition eth (name : string) : netlink.Link :=
  {| netlink.Name := name; netlink.Index := 7; netlink.Statistics := None |}.

(** A kernel where every device exists, [routes] is the routing table of
    either family and [fails] tells which error-only calls fail. *)
Definition kernel (fails : Trace -> Call -> option syserr)
           (routes : list netlink.Route) : Kernel :=
  {| on_call := fails;
     on_LinkByName := fun _ _ name => inr (eth name);
     on_RouteList := fun _ _ _ => inr routes;
     on_GetFromPath := fun _ _ => inr 9;
     on_checkLoV6 := fun _ => false;
     ParseHandlerInt := 3 |}.

Definition never : Trace -> Call -> option syserr := fun _ _ => None.

(** Link-up fails while fewer than [n] attempts were made. *)
Definition linkUpFails (n : nat) : Trace -> Call -> option syserr :=
  fun tr c =>
    if isLinkSetUp c && (length (filter (fun c => isLinkSetUp c = true) tr) <? n)%nat
    then Some "EBUSY" else None.

(** Adding an address fails, and so does the rename back to the source
    name. *)
Definition addrAndRenameFail (src : string) : Trace -> Call -> option syserr :=
  fun _ c =>
    match c with
    | EvAddrAdd _ _ _ => Some "EEXIST"
    | EvLinkSetName _ _ name => if String.eqb name src then Some "EBUSY" else None
    | _ => None
    end.

Definition sandbox : State :=
  {| heap := [];
     reg := {| path := "/var/run/netns/sb"; iFaces := []; nextIfIndex := ∅;
               isDefault := false; loV6Enabled := false |};
     trace := [] |}.

Definition host : State :=
  {| heap := [];
     reg := {| path := ""; iFaces := []; nextIfIndex := ∅;
               isDefault := true; loV6Enabled := false |};
     trace := [] |}.

Definition net (a b c d : Z) (ones : nat) : IPNet :=
  {| IP := [a; b; c; d]; Mask := cidr_bytes ones 4 |}.

Definition routeTo (n : IPNet) : netlink.Route :=
  {| netlink.Scope := 0; netlink.LinkIndex := 1; netlink.Dst := Some n |}.

(** The entity AddInterface builds for the device veth0 with prefix eth and
    the IPv4 address [a], first in the sandbox. *)
Definition veth0 (a : IPNet) : nwIface :=
  {| srcName := "veth0"; dstName := "eth0"; master := ""; dstMaster := "";
     mac := None; address := Some a; addressIPv6 := None; llAddrs := []; routes := [];
     bridge := false; ns_path := "/var/run/netns/sb" |}.

(** A store with one hardware address, one network 10.0.0.5/24 and one
    array holding it, and an entity whose fields all point there. *)
Definition memory : Refs.Store :=
  {| Refs.bytes := [[2; 66; 172; 17; 0; 2]; [10; 0; 0; 5]; [255; 255; 255; 0]];
     Refs.nets := [{| Refs.IP := Some 1%nat; Refs.Mask := Some 2%nat |}];
     Refs.arrays := [[Some 0%nat]] |}.

Definition stored : Refs.nwIface :=
  {| Refs.srcName := "veth0"; Refs.dstName := "eth0"; Refs.master := "";
     Refs.dstMaster := ""; Refs.mac := Some 0%nat; Refs.address := Some 0%nat;
     Refs.addressIPv6 := None; Refs.llAddrs := Some 0%nat; Refs.routes := Some 0%nat;
     Refs.bridge := false; Refs.ns_path := "/var/run/netns/sb" |}.

(** The store after Routes was called on [stored] in [memory]. *)
Definition copied : Refs.Store := Eval vm_compute in (Refs.Routes stored memory).2.

(** Two entities with the same names, both registered, in a sandbox; the
    device is a bridge in [twins true]. *)
Definition twin (isBridge : bool) : nwIface :=
  {| srcName := "veth0"; dstName := "eth0"; master := ""; dstMaster := "";
     mac := None; address := None; addressIPv6 := None; llAddrs := []; routes := [];
     bridge := isBridge; ns_path := "/var/run/netns/sb" |}.

Definition twins (isBridge : bool) : State :=
  {| heap := [twin isBridge; twin isBridge];
     reg := {| path := "/var/run/netns/sb"; iFaces := [0%nat; 1%nat]; nextIfIndex := ∅;
               isDefault := false; loV6Enabled := false |};
     trace := [] |}.

(** Deleting a device fails. *)
Definition delFails : Trace -> Call -> option syserr :=
  fun _ c => match c with EvLinkDel _ _ => Some "EBUSY" | _ => None end.

(** A run where adding the address fails and the rename back fails too:
    the kernel, the frame in which AddInterface calls configureInterface
    and the trace when configureInterface returns. *)
Definition addr1 : IPNet := net 192 168 1 5 24.
Definition kernelA : Kernel := kernel (addrAndRenameFail "veth0") [].
Definition placedA : Frame :=
  Eval vm_compute in
    (addPrelude kernelA "veth0" "eth" [OptAddress addr1] {| st := sandbox; deferred := [] |}).2.
Definition configuredA : Trace :=
  Eval vm_compute in
    (configureInterface kernelA NsHandle (eth "veth0") (veth0 addr1) (trace (st placedA))).2.

(** A run where link-up fails twice and then succeeds. *)
Definition kernelB : Kernel := kernel (linkUpFails 2) [].
Definition placedB : Frame :=
  Eval vm_compute in
    (addPrelude kernelB "veth0" "eth" [OptAddress addr1] {| st := sandbox; deferred := [] |}).2.
Definition configuredB : Trace :=
  Eval vm_compute in
    (configureInterface kernelB NsHandle (eth "veth0") (veth0 addr1) (trace (st placedB))).2.
Definition activatedB : Trace :=
  Eval vm_compute in (linkSetUpWithRetry kernelB NsHandle (eth "veth0") configuredB).2.



(** The sandbox after veth0 was added with the prefix eth, and the entity
    registered there. *)
Definition added : State :=
  Eval vm_compute in (AddInterface (kernel never []) "veth0" "eth" [] sandbox).2.
Definition plain : nwIface :=
  {| srcName := "veth0"; dstName := "eth0"; master := ""; dstMaster := "";
     mac := None; address := None; addressIPv6 := None; llAddrs := []; routes := [];
     bridge := false; ns_path := "/var/run/netns/sb" |}.


(** The frame in which veth0 is named in the sandbox, and the frame in
    which its placement stops when the link set down fails. *)
Definition namedPlain : Frame :=
  Eval vm_compute in (named "veth0" "eth" [] sandbox).2.

(** A run where the address 10.0.0.5/24 meets a route to 10.0.0.0/24: the
    kernel and the frame in which AddInterface calls configureInterface. *)
Definition addr0 : IPNet := net 10 0 0 5 24.
Definition kernelC : Kernel := kernel never [routeTo (net 10 0 0 0 24)].
Definition placedC : Frame :=
  Eval vm_compute in
    (addPrelude kernelC "veth0" "eth" [OptAddress addr0] {| st := sandbox; deferred := [] |}).2.

(** The address 10.0.0.5 under the mask 255.0.255.0, which is no prefix. *)
Definition gappy : IPNet := {| IP := [10; 0; 0; 5]; Mask := [255; 0; 255; 0] |}.

End Stub.

(** * Properties *)

Section GoNetFacts.

Lemma Contains_iff n ip :
  Contains n ip = true <->
  length (norm_ip ip) = length (networkNumberAndMask n).1 /\
  forall i, (i < length (norm_ip ip))%nat ->
    Z.land (nth i (networkNumberAndMask n).1 0) (nth i (networkNumberAndMask n).2 0)
    = Z.land (nth i (norm_ip ip) 0) (nth i (networkNumberAndMask n).2 0).
Proof.
  unfold Contains, norm_ip, masked_eq.
  destruct (networkNumberAndMask n) as [nn m]; simpl.
  set (x := match To4 ip with Some y => y | None => ip end).
  destruct (Nat.eqb_spec (length x) (length nn)) as [E|E]; simpl.
  - rewrite forallb_forall. split.
    + intros H. split; [done|]. intros i Hi.
      apply Z.eqb_eq, H, in_seq. lia.
    + intros [_ H] i Hi%in_seq. apply Z.eqb_eq, H. lia.
  - split; [done|]. intros [? _]. done.
Qed.

Lemma length_cidr_bytes l : forall ones, length (cidr_bytes ones l) = l.
Proof. induction l as [|l IH]; intros ones; simpl; [done|]. case_match; simpl; by rewrite IH. Qed.

Lemma cidr_head_small (p : nat) :
  (p < 8)%nat ->
  Z.land (Z.lxor 255 (Z.shiftr 255 (Z.of_nat p))) 255 = Z.lxor 255 (Z.shiftr 255 (Z.of_nat p)).
Proof. intros H. do 8 (destruct p as [|p]; [reflexivity|]). lia. Qed.

Lemma cidr_head_le (p q : nat) :
  (p <= q)%nat -> (q < 8)%nat ->
  Z.land (Z.lxor 255 (Z.shiftr 255 (Z.of_nat p))) (Z.lxor 255 (Z.shiftr 255 (Z.of_nat q)))
  = Z.lxor 255 (Z.shiftr 255 (Z.of_nat p)).
Proof.
  intros Hpq Hq.
  do 8 (destruct q as [|q];
        [do 8 (destruct p as [|p]; [reflexivity || lia|]); lia|]).
  lia.
Qed.

Lemma cidr_zero_bytes l i : nth i (cidr_bytes 0 l) 0 = 0.
Proof.
  revert i; induction l as [|l IH]; intros [|i]; simpl; try done.
Qed.

(** A shorter prefix mask is bitwise below a longer one. *)
Lemma cidr_bytes_le l : forall p q i,
  (p <= q)%nat ->
  Z.land (nth i (cidr_bytes p l) 0) (nth i (cidr_bytes q l) 0) = nth i (cidr_bytes p l) 0.
Proof.
  induction l as [|l IH]; intros p q i Hpq.
  - by destruct i.
  - cbn [cidr_bytes].
    destruct (Nat.leb_spec 8 p) as [Hp|Hp], (Nat.leb_spec 8 q) as [Hq|Hq]; try lia.
    + destruct i as [|i]; simpl; [reflexivity|]. apply IH. lia.
    + destruct i as [|i]; simpl; [by apply cidr_head_small|].
      rewrite cidr_zero_bytes. apply Z.land_0_l.
    + destruct i as [|i]; simpl; [by apply cidr_head_le|].
      rewrite cidr_zero_bytes. apply Z.land_0_l.
Qed.

Lemma masked_transfer x y mp mq :
  Z.land mp mq = mp -> Z.land x mq = Z.land y mq -> Z.land x mp = Z.land y mp.
Proof.
  intros Hm Hxy. rewrite <- Hm.
  rewrite (Z.land_comm mp mq), !Z.land_assoc. by rewrite Hxy.
Qed.

Lemma norm_ip_network n :
  (networkNumberAndMask n).1 <> [] -> norm_ip (IP n) = (networkNumberAndMask n).1.
Proof.
  unfold networkNumberAndMask, norm_ip.
  destruct (To4 (IP n)) as [x|] eqn:E4; simpl.
  - repeat case_match; simpl; done.
  - destruct (length (IP n) =? IPv6len)%nat; simpl; [|done].
    repeat case_match; simpl; done.
Qed.

(** A canonical network contains its own address. *)
Lemma Contains_self n :
  (networkNumberAndMask n).1 <> [] -> Contains n (IP n) = true.
Proof.
  intros H. apply Contains_iff. rewrite (norm_ip_network n H). done.
Qed.

(** Two canonical networks: one holds the other's address exactly when one
    of them includes the other. *)
Lemma overlap_iff_nested a b :
  canonical a -> canonical b ->
  (Contains b (IP a) || Contains a (IP b) = true) <->
  (net_contains a b \/ net_contains b a).
Proof.
  unfold canonical, net_contains.
  destruct (networkNumberAndMask a) as [na ma] eqn:Ea.
  destruct (networkNumberAndMask b) as [nb mb] eqn:Eb.
  intros [Hna [pa Hma]] [Hnb [pb Hmb]].
  assert (Ha1 : (networkNumberAndMask a).1 = na) by (by rewrite Ea).
  assert (Hb1 : (networkNumberAndMask b).1 = nb) by (by rewrite Eb).
  assert (Ha2 : (networkNumberAndMask a).2 = ma) by (by rewrite Ea).
  assert (Hb2 : (networkNumberAndMask b).2 = mb) by (by rewrite Eb).
  assert (Hnested : length na = length nb ->
      (forall i, (i < length na)%nat ->
         Z.land (nth i na 0) (nth i (cidr_bytes (Nat.min pa pb) (length na)) 0)
         = Z.land (nth i nb 0) (nth i (cidr_bytes (Nat.min pa pb) (length na)) 0)) ->
      (forall ip, Contains b ip = true -> Contains a ip = true) \/
      (forall ip, Contains a ip = true -> Contains b ip = true)).
  { intros Hlen Hcommon.
    destruct (Nat.le_ge_cases pa pb) as [Hle|Hle].
    - left. intros ip Hin. apply Contains_iff in Hin as [Hl Hin].
      rewrite Hb1, Hb2 in *. apply Contains_iff. rewrite Ha1, Ha2.
      split; [lia|]. intros i Hi.
      rewrite Nat.min_l in Hcommon by done.
      subst ma mb. rewrite Hcommon by lia.
      apply (masked_transfer _ _ _ (nth i (cidr_bytes pb (length nb)) 0)).
      + rewrite Hlen. by apply cidr_bytes_le.
      + by apply Hin.
    - right. intros ip Hin. apply Contains_iff in Hin as [Hl Hin].
      rewrite Ha1, Ha2 in *. apply Contains_iff. rewrite Hb1, Hb2.
      split; [lia|]. intros i Hi.
      rewrite Nat.min_r in Hcommon by done.
      subst ma mb. rewrite <- Hlen, <- Hcommon by lia.
      apply (masked_transfer _ _ _ (nth i (cidr_bytes pa (length na)) 0)).
      + by apply cidr_bytes_le.
      + by apply Hin. }
  split.
  - intros [Hc|Hc]%orb_true_iff.
    + apply Contains_iff in Hc as [Hl Hc].
      rewrite (norm_ip_network a) in Hl, Hc by (by rewrite Ha1).
      rewrite Ha1, Hb1, ?Hb2 in *.
      apply Hnested; [done|]. intros i Hi.
      subst mb. symmetry.
      apply (masked_transfer _ _ _ (nth i (cidr_bytes pb (length nb)) 0)).
      * rewrite Hl. apply cidr_bytes_le. lia.
      * by apply Hc.
    + apply Contains_iff in Hc as [Hl Hc].
      rewrite (norm_ip_network b) in Hl, Hc by (by rewrite Hb1).
      rewrite Ha1, Hb1, ?Ha2 in *.
      apply Hnested; [done|]. intros i Hi.
      subst ma.
      apply (masked_transfer _ _ _ (nth i (cidr_bytes pa (length na)) 0)).
      * apply cidr_bytes_le. lia.
      * apply Hc. lia.
  - intros [H|H]; apply orb_true_iff.
    + right. apply H, Contains_self. by rewrite Hb1.
    + left. apply H, Contains_self. by rewrite Ha1.
Qed.

End GoNetFacts.

(** ** The configurator pipeline *)

Section PipelineFacts.

Variable k : Kernel.
Variable nlh : Handle.
Variable iface : netlink.Link.

Ltac t_run :=
  unfold tbind, tret, call, emit, RouteList, LinkByName,
    LinkSetName, LinkSetHardwareAddr, LinkSetMaster, AddrAdd, setIPv6, sys; simpl.

Lemma prefix_one {A} (c : A) (l : list A) : [c] `prefix_of` c :: l.
Proof. by exists l. Qed.

Lemma setInterfaceName_makes i :
  stepMakes (setInterfaceName k nlh iface i) [EvLinkSetName nlh iface (dstName i)].
Proof.
  intros tr. unfold setInterfaceName, DstName. t_run.
  destruct (on_call k tr _); [|done].
  eexists; split; [|split; [|done]]; [done|apply prefix_one].
Qed.

Lemma setInterfaceMAC_makes i :
  stepMakes (setInterfaceMAC k nlh iface i)
    (match mac i with Some m => [EvLinkSetHardwareAddr nlh iface m] | None => [] end).
Proof.
  intros tr. unfold setInterfaceMAC, MacAddress. destruct (mac i) as [m|]; t_run.
  - destruct (on_call k tr _); [|done].
    eexists; split; [|split; [|done]]; [done|apply prefix_one].
  - by rewrite app_nil_r.
Qed.

Lemma checkRouteConflict_trace address family tr :
  (checkRouteConflict k nlh address family tr).2 = tr ++ [EvRouteList nlh family].
Proof. unfold checkRouteConflict. t_run. by destruct (on_RouteList k tr nlh family). Qed.

Lemma setInterfaceIP_makes i :
  stepMakes (setInterfaceIP k nlh iface i)
    (match address i with
     | Some a =>
         [EvRouteList nlh netlink.FAMILY_V4;
          EvAddrAdd nlh iface
            {| netlink.IPNet := Some a; netlink.Label := ""; netlink.Flags := 0 |}]
     | None => []
     end).
Proof.
  intros tr. unfold setInterfaceIP, Address. destruct (address i) as [a|]; simpl.
  - unfold tbind at 1.
    pose proof (checkRouteConflict_trace a netlink.FAMILY_V4 tr) as Htr.
    destruct (checkRouteConflict k nlh a netlink.FAMILY_V4 tr) as [c tr1]; simpl in Htr; subst tr1.
    destruct c as [err|]; t_run.
    + eexists; split; [|split; [|done]]; [done|apply prefix_one].
    + destruct (on_call k _ _).
      * exists [EvRouteList nlh netlink.FAMILY_V4;
                EvAddrAdd nlh iface
                  {| netlink.IPNet := Some a; netlink.Label := ""; netlink.Flags := 0 |}].
        split; [done|]. split; [done|]. by rewrite <- app_assoc.
      * by rewrite <- app_assoc.
  - unfold tret. by rewrite app_nil_r.
Qed.

Lemma setInterfaceIPv6_makes i :
  stepMakes (setInterfaceIPv6 k nlh iface i)
    (match addressIPv6 i with
     | Some a =>
         [EvRouteList nlh netlink.FAMILY_V6;
          EvSetIPv6 (ns_path i) (dstName i) true;
          EvAddrAdd nlh iface
            {| netlink.IPNet := Some a; netlink.Label := ""; netlink.Flags := IFA_F_NODAD |}]
     | None => []
     end).
Proof.
  intros tr. unfold setInterfaceIPv6, AddressIPv6, DstName.
  destruct (addressIPv6 i) as [a|]; simpl.
  - unfold tbind at 1.
    pose proof (checkRouteConflict_trace a netlink.FAMILY_V6 tr) as Htr.
    destruct (checkRouteConflict k nlh a netlink.FAMILY_V6 tr) as [c tr1]; simpl in Htr; subst tr1.
    destruct c as [err|]; t_run.
    + eexists; split; [|split; [|done]]; [done|apply prefix_one].
    + destruct (on_call k _ _); simpl.
      * exists [EvRouteList nlh netlink.FAMILY_V6; EvSetIPv6 (ns_path i) (dstName i) true].
        split; [done|]. split; [by eexists [_]|]. by rewrite <- app_assoc.
      * destruct (on_call k _ _); simpl.
        -- eexists. split; [|split; [done|]]; [done|]. by rewrite <- !app_assoc.
        -- by rewrite <- !app_assoc.
  - unfold tret. by rewrite app_nil_r.
Qed.

Lemma setInterfaceMaster_makes i :
  stepMakes (setInterfaceMaster k nlh iface i)
    (if String.eqb (dstMaster i) "" then [] else [EvLinkSetMaster nlh iface (dstMaster i)]).
Proof.
  intros tr. unfold setInterfaceMaster, DstMaster.
  destruct (String.eqb (dstMaster i) ""); t_run.
  - by rewrite app_nil_r.
  - destruct (on_call k tr _); [|done].
    eexists; split; [|split; [|done]]; [done|apply prefix_one].
Qed.

Lemma addLinkLocalIPs_makes lls :
  stepMakes (addLinkLocalIPs k nlh iface lls)
    (map (fun ll => EvAddrAdd nlh iface
                      {| netlink.IPNet := ll; netlink.Label := ""; netlink.Flags := 0 |}) lls).
Proof.
  induction lls as [|ll lls IH]; intros tr; simpl.
  - unfold tret. by rewrite app_nil_r.
  - t_run. destruct (on_call k tr _).
    + eexists; split; [|split; [|done]]; [done|apply prefix_one].
    + specialize (IH (tr ++ [EvAddrAdd nlh iface
                        {| netlink.IPNet := ll; netlink.Label := ""; netlink.Flags := 0 |}])).
      destruct (addLinkLocalIPs k nlh iface lls _) as [[err|] tr'].
      * destruct IH as (d & Hd & Hp & ->).
        eexists (_ :: d). split; [done|]. split; [by apply prefix_cons|].
        by rewrite <- app_assoc.
      * rewrite IH. by rewrite <- app_assoc.
Qed.

(** The loop over a table whose steps make the calls listed beside them. *)
Lemma runConfigurators_steps i configs steps :
  Forall2 (fun c s => c.2 = s.1 /\ stepMakes (c.1 nlh iface i) s.2) configs steps ->
  forall tr,
    match runConfigurators nlh iface i configs tr with
    | (None, tr') => tr' = tr ++ concat (map snd steps)
    | (Some err, tr') =>
        exists j f msg calls cause d,
          configs !! j = Some (f, msg) /\ steps !! j = Some (msg, calls) /\
          err = Errorf msg cause /\
          f nlh iface i (tr ++ concat (map snd (take j steps))) = (Some cause, tr') /\
          d <> [] /\ d `prefix_of` calls /\
          tr' = tr ++ concat (map snd (take j steps)) ++ d
    end.
Proof.
  induction 1 as [|[f msg] [msg' calls] configs steps [Hmsg Hstep] _ IH]; intros tr; simpl in *.
  - unfold tret. by rewrite app_nil_r.
  - subst msg'. unfold tbind. specialize (Hstep tr).
    destruct (f nlh iface i tr) as [[cause|] tr1] eqn:Ef.
    + destruct Hstep as (d & Hd & Hp & ->). unfold tret.
      exists 0%nat, f, msg, calls, cause, d; simpl. rewrite app_nil_r.
      repeat split; done.
    + subst tr1. specialize (IH (tr ++ calls)).
      destruct (runConfigurators nlh iface i configs (tr ++ calls)) as [[err|] tr'].
      * destruct IH as (j & g & m & cs & cause & d & ? & ? & ? & ? & ? & ? & ->).
        exists (S j), g, m, cs, cause, d; simpl.
        rewrite <- !app_assoc in *. repeat split; done.
      * rewrite IH. by rewrite <- app_assoc.
Qed.

Lemma ifaceConfigurators_steps i :
  Forall2 (fun c s => c.2 = s.1 /\ stepMakes (c.1 nlh iface i) s.2)
          (ifaceConfigurators k iface i) (stepCalls nlh iface i).
Proof.
  unfold ifaceConfigurators, stepCalls, DstName, MacAddress, Address, AddressIPv6,
    DstMaster, LinkLocalAddresses.
  repeat (apply List.Forall2_cons; [split; [done|simpl]|]); [..|apply List.Forall2_nil].
  - apply setInterfaceName_makes.
  - apply setInterfaceMAC_makes.
  - apply setInterfaceIP_makes.
  - apply setInterfaceIPv6_makes.
  - apply setInterfaceMaster_makes.
  - apply addLinkLocalIPs_makes.
Qed.

End PipelineFacts.

(** ** AddInterface, phase by phase *)

Section Keeps.

Context {P : Frame -> Frame -> Prop}.
Hypothesis P_refl : forall f, P f f.
Hypothesis P_trans : forall f g h, P f g -> P g h -> P f h.

Lemma keeps_eret {A} (a : A) : keeps P (eret a).
Proof. intros f r f' [= <- <-]. apply P_refl. Qed.

Lemma keeps_throw {A} e : keeps P (@throw A e).
Proof. intros f r f' [= <- <-]. apply P_refl. Qed.

Lemma keeps_gets {A} (g : State -> A) : keeps P (gets g).
Proof. intros f r f' [= <- <-]. apply P_refl. Qed.

Lemma keeps_ebind {A B} (m : E A) (g : A -> E B) :
  keeps P m -> (forall a, keeps P (g a)) -> keeps P (ebind m g).
Proof.
  intros Hm Hg f r f'. unfold ebind.
  destruct (m f) as [[e|a] f1] eqn:Em; intros H.
  - simplify_eq. by eapply Hm.
  - eapply P_trans; [by eapply Hm|by eapply Hg].
Qed.

Lemma keeps_check wrap r : keeps P (check wrap r).
Proof. destruct r; [apply keeps_throw|apply keeps_eret]. Qed.

Lemma keeps_checked {A} wrap (r : syserr + A) : keeps P (checked wrap r).
Proof. destruct r; [apply keeps_throw|apply keeps_eret]. Qed.

End Keeps.

Section Raises.

Context {Q : error -> Prop}.

Lemma raises_eret {A} (a : A) : raises Q (eret a).
Proof. intros f e f' [=]. Qed.

Lemma raises_gets {A} (g : State -> A) : raises Q (gets g).
Proof. intros f e f' [=]. Qed.

Lemma raises_modify g : raises Q (modify g).
Proof. intros f e f' [=]. Qed.

Lemma raises_defer c : raises Q (defer c).
Proof. intros f e f' [=]. Qed.

Lemma raises_liftT {A} (m : T A) : raises Q (liftT m).
Proof. intros f e f'. unfold liftT. by destruct (m _). Qed.

Lemma raises_throw {A} e : Q e -> raises Q (@throw A e).
Proof. intros H f e' f' [= <- <-]. done. Qed.

Lemma raises_ebind {A B} (m : E A) (g : A -> E B) :
  raises Q m -> (forall a, raises Q (g a)) -> raises Q (ebind m g).
Proof.
  intros Hm Hg f e f'. unfold ebind.
  destruct (m f) as [[e1|a] f1] eqn:Em; intros H.
  - simplify_eq. by eapply Hm.
  - by eapply Hg.
Qed.

Lemma raises_check wrap r : (forall e, Q (wrap (Errno e))) -> raises Q (check wrap r).
Proof. intros H. destruct r; [by apply raises_throw|apply raises_eret]. Qed.

Lemma raises_checked {A} wrap (r : syserr + A) :
  (forall e, Q (wrap (Errno e))) -> raises Q (checked wrap r).
Proof. intros H. destruct r; [by apply raises_throw|apply raises_eret]. Qed.

End Raises.

Lemma placementStep_refl f : placementStep f f.
Proof.
  repeat split; try done.
  - exists []. by rewrite app_nil_r.
  - by exists [].
Qed.

Lemma placementStep_trans f g h : placementStep f g -> placementStep g h -> placementStep f h.
Proof.
  intros ((d1 & Hd1 & Hq1) & (c1 & Hc1 & Hk1) & ? & ? & ? & ?)
         ((d2 & Hd2 & Hq2) & (c2 & Hc2 & Hk2) & ? & ? & ? & ?).
  repeat split; try congruence.
  - exists (d1 ++ d2). rewrite Hd2, Hd1, forallb_app, Hq1, Hq2. by rewrite <- app_assoc.
  - exists (c2 ++ c1). rewrite Hc2, Hc1, forallb_app, Hk1, Hk2. by rewrite <- app_assoc.
Qed.

Lemma placementStep_heap f h :
  placementStep f {| st := set_heap h (st f); deferred := deferred f |}.
Proof.
  repeat split; try done.
  - exists []. by rewrite app_nil_r.
  - by exists [].
Qed.

Lemma placementStep_counter f m :
  placementStep f {| st := set_reg (set_nextIfIndex m (reg (st f))) (st f);
                     deferred := deferred f |}.
Proof.
  repeat split; try done.
  - exists []. by rewrite app_nil_r.
  - by exists [].
Qed.

Lemma placementStep_call f c :
  isPlacementCall c = true ->
  placementStep f {| st := set_trace (trace (st f) ++ [c]) (st f); deferred := deferred f |}.
Proof.
  intros Hc. repeat split; try done.
  - exists [c]. simpl. by rewrite Hc.
  - by exists [].
Qed.

Lemma placementStep_defer f fd :
  placementStep f {| st := st f; deferred := EvClose fd :: deferred f |}.
Proof.
  repeat split; try done.
  - exists []. by rewrite app_nil_r.
  - by exists [EvClose fd].
Qed.

Section AddFacts.

Variable k : Kernel.

Ltac e_run :=
  unfold ebind, eret, throw, gets, modify, liftT, defer, check, checked, store,
    set_heap, set_reg, set_trace, set_iFaces, set_nextIfIndex; simpl.

Lemma keeps_call c :
  isPlacementCall c = true -> keeps placementStep (liftT (call k c)).
Proof. intros Hc f r f' [= <- <-]. by apply placementStep_call. Qed.

Lemma keeps_LinkByName h name : keeps placementStep (liftT (LinkByName k h name)).
Proof. intros f r f' [= <- <-]. by apply placementStep_call. Qed.

Lemma keeps_GetFromPath p : keeps placementStep (liftT (GetFromPath k p)).
Proof. intros f r f' [= <- <-]. by apply placementStep_call. Qed.

Lemma keeps_store p i : keeps placementStep (store p i).
Proof. intros f r f' [= <- <-]. apply placementStep_heap. Qed.

Lemma keeps_defer fd : keeps placementStep (defer (EvClose fd)).
Proof. intros f r f' [= <- <-]. apply placementStep_defer. Qed.

Ltac keeps_tac :=
  repeat first
    [ apply (keeps_ebind placementStep_trans)
    | apply (keeps_eret placementStep_refl)
    | apply (keeps_throw placementStep_refl)
    | apply (keeps_gets placementStep_refl)
    | apply (keeps_check placementStep_refl)
    | apply (keeps_checked placementStep_refl)
    | apply keeps_store
    | apply keeps_defer
    | apply keeps_LinkByName
    | apply keeps_GetFromPath
    | by apply keeps_call
    | match goal with
      | |- keeps _ (if ?b then _ else _) => destruct b
      | |- keeps _ (match ?x with _ => _ end) => destruct x
      | |- forall _, _ => intro
      end ].

Lemma keeps_newIface src dstPrefix options :
  keeps placementStep (newIface src dstPrefix options).
Proof.
  unfold newIface. keeps_tac.
  intros f r f' [= <- <-]. apply placementStep_heap.
Qed.

Lemma keeps_resolveMaster p i : keeps placementStep (resolveMaster p i).
Proof. unfold resolveMaster. keeps_tac. Qed.

Lemma keeps_allocDstName p i dstPrefix : keeps placementStep (allocDstName p i dstPrefix).
Proof.
  unfold allocDstName. keeps_tac.
  intros f r f' [= <- <-]. apply placementStep_counter.
Qed.

Lemma keeps_nameIface src dstPrefix options :
  keeps placementStep (nameIface src dstPrefix options).
Proof.
  unfold nameIface.
  apply (keeps_ebind placementStep_trans); [apply keeps_newIface|intros pi].
  apply (keeps_ebind placementStep_trans); [apply keeps_resolveMaster|intros i1].
  apply (keeps_ebind placementStep_trans); [apply keeps_allocDstName|intros i2].
  apply (keeps_eret placementStep_refl).
Qed.

Lemma keeps_placeIface i : keeps placementStep (placeIface k i).
Proof. unfold placeIface, LinkAdd, LinkSetNsFd, LinkSetDown. keeps_tac. Qed.

(** The prelude makes placement calls only, defers at most the Close of the
    namespace, and leaves the collection, the path and the flags of the
    registry as they were. *)
Lemma keeps_addPrelude src dstPrefix options :
  keeps placementStep (addPrelude k src dstPrefix options).
Proof.
  unfold addPrelude.
  apply (keeps_ebind placementStep_trans); [apply keeps_nameIface|intros pi].
  apply (keeps_ebind placementStep_trans); [apply keeps_placeIface|intros iface].
  apply (keeps_eret placementStep_refl).
Qed.

(** The errors of the prelude. *)
Lemma raises_addPrelude src dstPrefix options :
  raises (fun e => isPlacementError e = true) (addPrelude k src dstPrefix options).
Proof.
  unfold addPrelude, nameIface, placeIface, newIface, resolveMaster, allocDstName, store.
  repeat first
    [ apply raises_ebind
    | apply raises_eret
    | apply raises_gets
    | apply raises_modify
    | apply raises_defer
    | apply raises_liftT
    | by apply raises_throw
    | by apply raises_check
    | by apply raises_checked
    | match goal with
      | |- raises _ (if ?b then _ else _) => destruct b
      | |- raises _ (match ?x with _ => _ end) => destruct x
      | |- forall _, _ => intro
      end ].
Qed.

Lemma addConfigured_run p i iface f1 :
  addConfigured k p i iface f1 =
  match configureInterface k NsHandle iface i (trace (st f1)) with
  | (Some err, tr1) =>
      (inl err,
       {| st := set_trace (rollbackPlacement k iface i err tr1).2 (st f1);
          deferred := deferred f1 |})
  | (None, tr1) =>
      match linkSetUpWithRetry k NsHandle iface tr1 with
      | (Some e, tr2) =>
          (inl (Errorf MsgLinkUp (Errno e)),
           {| st := set_trace tr2 (st f1); deferred := deferred f1 |})
      | (None, tr2) =>
          match setInterfaceRoutes k NsHandle iface i tr2 with
          | (Some e, tr3) =>
              (inl (Errorf (MsgRoutes (netlink.Name iface) (Routes i)) e),
               {| st := set_trace tr3 (st f1); deferred := deferred f1 |})
          | (None, tr3) =>
              (inr tt,
               {| st := {| heap := heap (st f1);
                           reg := set_loV6Enabled (on_checkLoV6 k tr3)
                                    (set_iFaces (iFaces (reg (st f1)) ++ [p]) (reg (st f1)));
                           trace := tr3 ++ [EvCheckLoV6] |};
                  deferred := deferred f1 |})
          end
      end
  end.
Proof.
  unfold addConfigured, checkLoV6. e_run.
  destruct (configureInterface k NsHandle iface i (trace (st f1))) as [[err|] tr1]; simpl.
  - by destruct (rollbackPlacement k iface i err tr1).
  - destruct (linkSetUpWithRetry k NsHandle iface tr1) as [[e|] tr2]; simpl; [done|].
    by destruct (setInterfaceRoutes k NsHandle iface i tr2) as [[e|] tr3].
Qed.

(** AddInterface, once its prelude has returned. *)
Lemma AddInterface_run src dstPrefix options s p i iface f1 :
  addPrelude k src dstPrefix options {| st := s; deferred := [] |} = (inr (p, i, iface), f1) ->
  AddInterface k src dstPrefix options s =
  let (r, f2) := addConfigured k p i iface f1 in
  (r, set_trace (trace (st f2) ++ deferred f2) (st f2)).
Proof. intros H. unfold AddInterface, func, ebind. by rewrite H. Qed.

Lemma rollbackPlacement_trace iface i err tr :
  let rename := EvLinkSetName NsHandle iface (srcName i) in
  let move := EvLinkSetNsFd NsHandle iface (ParseHandlerInt k) in
  let log1 := match on_call k tr rename with
              | Some ne => [EvLog (LogRollbackRename (dstName i) (srcName i) ne err)]
              | None => []
              end in
  let log2 := match on_call k (tr ++ [rename] ++ log1) move with
              | Some ne => [EvLog (LogRollbackMove (srcName i) ne err)]
              | None => []
              end in
  (rollbackPlacement k iface i err tr).2 = tr ++ [rename] ++ log1 ++ [move] ++ log2.
Proof.
  unfold rollbackPlacement, tbind, tret, LinkSetName, LinkSetNsFd, Log, call, emit,
    SrcName, DstName; simpl.
  destruct (on_call k tr _) as [ne1|]; simpl.
  - rewrite <- !app_assoc; simpl. by destruct (on_call k _ _); simpl; rewrite <- ?app_assoc.
  - rewrite <- ?app_assoc; simpl. by destruct (on_call k _ _); simpl; rewrite <- ?app_assoc.
Qed.

End AddFacts.

(** The loop stops at the first step that returns an error, and returns
    that error under the message of the step. *)
Lemma runConfigurators_first_failure nlh iface i configs steps :
  Forall2 (fun c s => c.2 = s.1 /\ stepMakes (c.1 nlh iface i) s.2) configs steps ->
  forall tr j f msg cause tr2,
    configs !! j = Some (f, msg) ->
    (forall j' f' msg',
       (j' < j)%nat -> configs !! j' = Some (f', msg') ->
       (f' nlh iface i (tr ++ concat (map snd (take j' steps)))).1 = None) ->
    f nlh iface i (tr ++ concat (map snd (take j steps))) = (Some cause, tr2) ->
    runConfigurators nlh iface i configs tr = (Some (Errorf msg cause), tr2).
Proof.
  induction 1 as [|[f0 m0] [m0' calls0] configs steps [Hmsg Hstep] _ IH];
    intros tr j f msg cause tr2 Hj Hbefore Hf; [done|].
  simpl in *. subst m0'. unfold tbind.
  destruct j as [|j]; simpl in *.
  - injection Hj as -> ->. rewrite app_nil_r in Hf. by rewrite Hf.
  - pose proof (Hbefore 0%nat f0 m0 ltac:(lia) eq_refl) as H0. simpl in H0.
    rewrite app_nil_r in H0. specialize (Hstep tr).
    destruct (f0 nlh iface i tr) as [r tr1]. simpl in H0. subst r. subst tr1.
    apply (IH (tr ++ calls0) j f msg cause tr2 Hj).
    + intros j' f' msg' Hlt Hj'.
      specialize (Hbefore (S j') f' msg' ltac:(lia) Hj'). simpl in Hbefore.
      by rewrite <- app_assoc.
    + by rewrite <- app_assoc.
Qed.

(** When no step returns an error the loop returns none. *)
Lemma runConfigurators_no_failure nlh iface i configs steps :
  Forall2 (fun c s => c.2 = s.1 /\ stepMakes (c.1 nlh iface i) s.2) configs steps ->
  forall tr,
    (forall j f msg,
       configs !! j = Some (f, msg) ->
       (f nlh iface i (tr ++ concat (map snd (take j steps)))).1 = None) ->
    runConfigurators nlh iface i configs tr = (None, tr ++ concat (map snd steps)).
Proof.
  induction 1 as [|[f0 m0] [m0' calls0] configs steps [Hmsg Hstep] _ IH];
    intros tr Hall; simpl in *.
  - unfold tret. by rewrite app_nil_r.
  - unfold tbind. pose proof (Hall 0%nat f0 m0 eq_refl) as H0. simpl in H0.
    rewrite app_nil_r in H0. specialize (Hstep tr).
    destruct (f0 nlh iface i tr) as [r tr1]. simpl in H0. subst r. subst tr1.
    rewrite (IH (tr ++ calls0)); [by rewrite <- app_assoc|].
    intros j f msg Hj. specialize (Hall (S j) f msg Hj). simpl in Hall.
    by rewrite <- app_assoc.
Qed.

(** The step of a loop that returned an error is the first that failed;
    its calls stop inside that step. *)
Lemma runConfigurators_earlier nlh iface i configs steps :
  Forall2 (fun c s => c.2 = s.1 /\ stepMakes (c.1 nlh iface i) s.2) configs steps ->
  forall tr err tr',
    runConfigurators nlh iface i configs tr = (Some err, tr') ->
    exists j f msg calls cause d,
      configs !! j = Some (f, msg) /\ steps !! j = Some (msg, calls) /\
      err = Errorf msg cause /\
      f nlh iface i (tr ++ concat (map snd (take j steps))) = (Some cause, tr') /\
      d <> [] /\ d `prefix_of` calls /\
      tr' = (tr ++ concat (map snd (take j steps))) ++ d /\
      forall j' f' msg',
        (j' < j)%nat -> configs !! j' = Some (f', msg') ->
        (f' nlh iface i (tr ++ concat (map snd (take j' steps)))).1 = None.
Proof.
  induction 1 as [|[f0 m0] [m0' calls0] configs steps [Hmsg Hstep] _ IH];
    intros tr err tr'; simpl in *; [done|].
  subst m0'. unfold tbind. specialize (Hstep tr).
  destruct (f0 nlh iface i tr) as [[cause|] tr1] eqn:Ef.
  - unfold tret. intros [= <- <-]. destruct Hstep as (d & Hd & Hp & ->).
    exists 0%nat, f0, m0, calls0, cause, d. simpl.
    rewrite app_nil_r. repeat split; try done. intros j' f' msg' Hlt. lia.
  - subst tr1.
    intros (j & f & msg & calls & cause & d & Hj & Hs & -> & Hf & Hd & Hp & -> & Hbefore)%IH.
    exists (S j), f, msg, calls, cause, d. simpl. rewrite <- !app_assoc in *.
    repeat split; try done.
    intros [|j'] f' msg' Hlt Hj'; simpl in *.
    + injection Hj' as <- <-. by rewrite app_nil_r, Ef.
    + specialize (Hbefore j' f' msg' ltac:(lia) Hj'). by rewrite <- app_assoc in Hbefore.
Qed.

(** When the loop returns no error, no step returned one. *)
Lemma runConfigurators_all_succeeded nlh iface i configs steps :
  Forall2 (fun c s => c.2 = s.1 /\ stepMakes (c.1 nlh iface i) s.2) configs steps ->
  forall tr tr',
    runConfigurators nlh iface i configs tr = (None, tr') ->
    forall j f msg,
      configs !! j = Some (f, msg) ->
      (f nlh iface i (tr ++ concat (map snd (take j steps)))).1 = None.
Proof.
  induction 1 as [|[f0 m0] [m0' calls0] configs steps [Hmsg Hstep] _ IH];
    intros tr tr'; simpl in *; [done|].
  unfold tbind. specialize (Hstep tr).
  destruct (f0 nlh iface i tr) as [[cause|] tr1] eqn:Ef; [done|].
  subst tr1. intros Hrun [|j] f msg Hj; simpl in *.
  - injection Hj as <- <-. by rewrite app_nil_r, Ef.
  - specialize (IH _ _ Hrun j f msg Hj). by rewrite <- app_assoc in IH.
Qed.

(** The loop of setInterfaceLinkLocalIPs: one AddrAdd for each address, in
    order, up to the first that fails. *)
Lemma addLinkLocalIPs_calls k nlh iface lls : forall tr,
  let add := fun ll => EvAddrAdd nlh iface
                         {| netlink.IPNet := ll; netlink.Label := ""; netlink.Flags := 0 |} in
  match addLinkLocalIPs k nlh iface lls tr with
  | (None, tr') =>
      tr' = tr ++ map add lls /\
      forall n ll, lls !! n = Some ll -> on_call k (tr ++ map add (take n lls)) (add ll) = None
  | (Some e, tr') =>
      exists n ll err,
        lls !! n = Some ll /\
        (forall m ll', (m < n)%nat -> lls !! m = Some ll' ->
                       on_call k (tr ++ map add (take m lls)) (add ll') = None) /\
        on_call k (tr ++ map add (take n lls)) (add ll) = Some err /\
        e = Errno err /\
        tr' = tr ++ map add (take (S n) lls)
  end.
Proof.
  induction lls as [|l lls IH]; intros tr add; simpl.
  - unfold tret. by rewrite app_nil_r.
  - unfold tbind, AddrAdd, call. fold (add l).
    destruct (on_call k tr (add l)) as [err|] eqn:Er.
    + unfold tret. exists 0%nat, l, err. simpl. rewrite app_nil_r.
      repeat split; try done. intros m ll' Hm. lia.
    + specialize (IH (tr ++ [add l])). cbv zeta in IH. fold add in IH.
      destruct (addLinkLocalIPs k nlh iface lls _) as [[e|] tr'].
      * destruct IH as (n & ll & err & Hn & Hbefore & Herr & -> & ->).
        exists (S n), ll, err. simpl. rewrite <- !app_assoc in *. simpl in *.
        repeat split; try done.
        intros [|m] ll' Hm Hr; simpl in *.
        -- injection Hr as <-. by rewrite app_nil_r.
        -- specialize (Hbefore m ll' ltac:(lia) Hr).
           by rewrite <- app_assoc in Hbefore.
      * destruct IH as [-> Hall]. rewrite <- app_assoc. split; [done|].
        intros [|n] ll Hr; simpl in *.
        -- injection Hr as <-. by rewrite app_nil_r.
        -- specialize (Hall n ll Hr). by rewrite <- app_assoc in Hall.
Qed.

(** C3. configureInterface runs the six steps rename, hardware address,
    IPv4, IPv6, master, link-local addresses in this order, each under its
    message. The first step that returns an error, after the steps before
    it returned none, makes configureInterface return that error wrapped in
    the message of the step, with the calls made up to there and no later
    step run; when no step returns an error configureInterface returns
    none and the calls made are those of the six steps one after the
    other. Conversely an error of configureInterface is the error of the
    first step that failed, and with no error every step succeeded. What
    each step returns follows from the answers of the collaborators: the
    error of its call as it is, and for the address steps the error of
    RouteList, the conflict, or (IPv6) the failure to enable IPv6 under its
    message. A step whose input is absent (no MAC, no IPv4 network, no IPv6
    network, no resolved master, no link-local address) returns success and
    makes no call. *)
Theorem configureInterface_six_steps k nlh iface i tr :
  let ifaceName := netlink.Name iface in
  let steps := stepCalls nlh iface i in
  let before := fun j => tr ++ concat (map snd (take j steps)) in
  let errno := fun r : option syserr =>
                 match r with Some e => Some (Errno e) | None => None end in
  let add := fun ll => EvAddrAdd nlh iface
                         {| netlink.IPNet := ll; netlink.Label := ""; netlink.Flags := 0 |} in
  ifaceConfigurators k iface i =
    [ (setInterfaceName k, MsgRename ifaceName (dstName i));
      (setInterfaceMAC k, MsgMAC ifaceName (mac i));
      (setInterfaceIP k, MsgIP ifaceName (address i));
      (setInterfaceIPv6 k, MsgIPv6 ifaceName (addressIPv6 i));
      (setInterfaceMaster k, MsgMaster ifaceName (dstMaster i));
      (setInterfaceLinkLocalIPs k, MsgLinkLocal ifaceName (llAddrs i)) ] /\
  (forall j f msg cause tr2,
     ifaceConfigurators k iface i !! j = Some (f, msg) ->
     (forall j' f' msg',
        (j' < j)%nat -> ifaceConfigurators k iface i !! j' = Some (f', msg') ->
        (f' nlh iface i (before j')).1 = None) ->
     f nlh iface i (before j) = (Some cause, tr2) ->
     configureInterface k nlh iface i tr = (Some (Errorf msg cause), tr2)) /\
  ((forall j f msg,
      ifaceConfigurators k iface i !! j = Some (f, msg) ->
      (f nlh iface i (before j)).1 = None) ->
   configureInterface k nlh iface i tr = (None, tr ++ concat (map snd steps))) /\
  match configureInterface k nlh iface i tr with
  | (None, tr') =>
      tr' = tr ++ concat (map snd steps) /\
      forall j f msg,
        ifaceConfigurators k iface i !! j = Some (f, msg) ->
        (f nlh iface i (before j)).1 = None
  | (Some err, tr') =>
      exists j f msg calls cause d,
        ifaceConfigurators k iface i !! j = Some (f, msg) /\
        steps !! j = Some (msg, calls) /\
        err = Errorf msg cause /\
        f nlh iface i (before j) = (Some cause, tr') /\
        d <> [] /\ d `prefix_of` calls /\
        tr' = before j ++ d /\
        forall j' f' msg',
          (j' < j)%nat -> ifaceConfigurators k iface i !! j' = Some (f', msg') ->
          (f' nlh iface i (before j')).1 = None
  end /\
  map fst steps =
    [ MsgRename ifaceName (dstName i); MsgMAC ifaceName (mac i);
      MsgIP ifaceName (address i); MsgIPv6 ifaceName (addressIPv6 i);
      MsgMaster ifaceName (dstMaster i); MsgLinkLocal ifaceName (llAddrs i) ] /\
  (forall tr0,
     let c := EvLinkSetName nlh iface (dstName i) in
     setInterfaceName k nlh iface i tr0 = (errno (on_call k tr0 c), tr0 ++ [c])) /\
  (forall tr0,
     setInterfaceMAC k nlh iface i tr0 =
       match mac i with
       | None => (None, tr0)
       | Some m =>
           let c := EvLinkSetHardwareAddr nlh iface m in
           (errno (on_call k tr0 c), tr0 ++ [c])
       end) /\
  (forall tr0,
     setInterfaceIP k nlh iface i tr0 =
       match address i with
       | None => (None, tr0)
       | Some a =>
           let list := EvRouteList nlh netlink.FAMILY_V4 in
           match on_RouteList k tr0 nlh netlink.FAMILY_V4 with
           | inl err => (Some (Errno err), tr0 ++ [list])
           | inr routes =>
               match conflictingRoute a routes with
               | Some e => (Some e, tr0 ++ [list])
               | None =>
                   (errno (on_call k (tr0 ++ [list]) (add (Some a))),
                    tr0 ++ [list; add (Some a)])
               end
           end
       end) /\
  (forall tr0,
     setInterfaceIPv6 k nlh iface i tr0 =
       match addressIPv6 i with
       | None => (None, tr0)
       | Some a =>
           let list := EvRouteList nlh netlink.FAMILY_V6 in
           let enable := EvSetIPv6 (ns_path i) (dstName i) true in
           let addr := EvAddrAdd nlh iface
                         {| netlink.IPNet := Some a; netlink.Label := "";
                            netlink.Flags := IFA_F_NODAD |} in
           match on_RouteList k tr0 nlh netlink.FAMILY_V6 with
           | inl err => (Some (Errno err), tr0 ++ [list])
           | inr routes =>
               match conflictingRoute a routes with
               | Some e => (Some e, tr0 ++ [list])
               | None =>
                   match on_call k (tr0 ++ [list]) enable with
                   | Some err =>
                       (Some (Errorf MsgEnableIPv6 (Errno err)), tr0 ++ [list; enable])
                   | None =>
                       (errno (on_call k (tr0 ++ [list; enable]) addr),
                        tr0 ++ [list; enable; addr])
                   end
               end
           end
       end) /\
  (forall tr0,
     setInterfaceMaster k nlh iface i tr0 =
       if String.eqb (dstMaster i) "" then (None, tr0)
       else
         let c := EvLinkSetMaster nlh iface (dstMaster i) in
         (errno (on_call k tr0 c), tr0 ++ [c])) /\
  (forall tr0,
     match setInterfaceLinkLocalIPs k nlh iface i tr0 with
     | (None, tr') =>
         tr' = tr0 ++ map add (llAddrs i) /\
         forall n ll,
           llAddrs i !! n = Some ll ->
           on_call k (tr0 ++ map add (take n (llAddrs i))) (add ll) = None
     | (Some e, tr') =>
         exists n ll err,
           llAddrs i !! n = Some ll /\
           (forall m ll',
              (m < n)%nat -> llAddrs i !! m = Some ll' ->
              on_call k (tr0 ++ map add (take m (llAddrs i))) (add ll') = None) /\
           on_call k (tr0 ++ map add (take n (llAddrs i))) (add ll) = Some err /\
           e = Errno err /\
           tr' = tr0 ++ map add (take (S n) (llAddrs i))
     end) /\
  (MacAddress i = None -> setInterfaceMAC k nlh iface i tr = (None, tr)) /\
  (Address i = None -> setInterfaceIP k nlh iface i tr = (None, tr)) /\
  (AddressIPv6 i = None -> setInterfaceIPv6 k nlh iface i tr = (None, tr)) /\
  (DstMaster i = "" -> setInterfaceMaster k nlh iface i tr = (None, tr)) /\
  (LinkLocalAddresses i = [] -> setInterfaceLinkLocalIPs k nlh iface i tr = (None, tr)).
Proof.
  intros ifaceName steps before errno add. subst ifaceName steps before.
  pose proof (ifaceConfigurators_steps k nlh iface i) as Htable.
  split; [done|]. split.
  { intros j f msg cause tr2 Hj Hbefore Hf.
    by apply (runConfigurators_first_failure nlh iface i _ _ Htable tr j f msg cause tr2). }
  split.
  { intros Hall. by apply (runConfigurators_no_failure nlh iface i _ _ Htable tr). }
  split.
  { pose proof (runConfigurators_steps nlh iface i _ _ Htable tr) as Hsteps.
    pose proof (runConfigurators_all_succeeded nlh iface i _ _ Htable tr) as Hok.
    pose proof (runConfigurators_earlier nlh iface i _ _ Htable tr) as Hfirst.
    unfold configureInterface.
    destruct (runConfigurators nlh iface i _ tr) as [[err|] tr'].
    - destruct (Hfirst err tr' eq_refl)
        as (j & f & msg & calls & cause & d & Hj & Hs & -> & Hf & Hd & Hp & -> & Hbefore).
      by exists j, f, msg, calls, cause, d.
    - split; [done|]. by apply (Hok tr'). }
  split; [done|].
  split. { intros tr0 c. subst c. unfold setInterfaceName, DstName, tbind, tret, LinkSetName,
             call, sys. done. }
  split. { intros tr0. unfold setInterfaceMAC, MacAddress. destruct (mac i); [|done].
           unfold tbind, tret, LinkSetHardwareAddr, call, sys. done. }
  split. { intros tr0. unfold setInterfaceIP, Address. destruct (address i) as [a|]; [|done].
           unfold checkRouteConflict, tbind, tret, RouteList, AddrAdd, call, sys. simpl.
           destruct (on_RouteList k tr0 nlh netlink.FAMILY_V4) as [err|routes]; [done|].
           destruct (conflictingRoute a routes); [done|]. by rewrite <- app_assoc. }
  split. { intros tr0. unfold setInterfaceIPv6, AddressIPv6, DstName.
           destruct (addressIPv6 i) as [a|]; [|done].
           unfold checkRouteConflict, tbind, tret, RouteList, setIPv6, AddrAdd, call, sys.
           simpl.
           destruct (on_RouteList k tr0 nlh netlink.FAMILY_V6) as [err|routes]; [done|].
           destruct (conflictingRoute a routes); [done|].
           destruct (on_call k _ _); simpl; by rewrite <- ?app_assoc. }
  split. { intros tr0. unfold setInterfaceMaster, DstMaster.
           destruct (String.eqb (dstMaster i) ""); [done|].
           unfold tbind, tret, LinkSetMaster, call, sys. done. }
  split. { intros tr0. apply addLinkLocalIPs_calls. }
  repeat split.
  - intros H. unfold setInterfaceMAC. by rewrite H.
  - intros H. unfold setInterfaceIP. by rewrite H.
  - intros H. unfold setInterfaceIPv6. by rewrite H.
  - intros H. unfold setInterfaceMaster. by rewrite H.
  - intros H. unfold setInterfaceLinkLocalIPs. by rewrite H.
Qed.

(** C4. When configureInterface fails in AddInterface with [err]: the rename
    back to the source name and the move back to the caller's namespace are
    both called, the move also when the rename failed; a failure of either
    only adds a log entry; AddInterface returns [err] itself; the registry
    is the one the prelude left, whose collection is the one AddInterface
    started with, so the entity was not appended. *)
Theorem AddInterface_config_failure k src dstPrefix options s p i iface f1 err tr1 :
  addPrelude k src dstPrefix options {| st := s; deferred := [] |} = (inr (p, i, iface), f1) ->
  configureInterface k NsHandle iface i (trace (st f1)) = (Some err, tr1) ->
  let rename := EvLinkSetName NsHandle iface (srcName i) in
  let move := EvLinkSetNsFd NsHandle iface (ParseHandlerInt k) in
  let log1 := match on_call k tr1 rename with
              | Some ne => [EvLog (LogRollbackRename (dstName i) (srcName i) ne err)]
              | None => []
              end in
  let log2 := match on_call k (tr1 ++ [rename] ++ log1) move with
              | Some ne => [EvLog (LogRollbackMove (srcName i) ne err)]
              | None => []
              end in
  AddInterface k src dstPrefix options s =
    (inl err,
     {| heap := heap (st f1); reg := reg (st f1);
        trace := tr1 ++ [rename] ++ log1 ++ [move] ++ log2 ++ deferred f1 |}) /\
  iFaces (reg (st f1)) = iFaces (reg s) /\
  forallb isClose (deferred f1) = true.
Proof.
  intros Hpre Hcfg rename move log1 log2.
  pose proof (keeps_addPrelude k src dstPrefix options _ _ _ Hpre)
    as (_ & (c & Hc & Hclose) & Hif & _).
  simpl in Hc, Hif. rewrite app_nil_r in Hc. subst c.
  split; [|done].
  rewrite (AddInterface_run k _ _ _ _ _ _ _ _ Hpre), addConfigured_run, Hcfg.
  unfold set_trace; simpl.
  rewrite (rollbackPlacement_trace k iface i err tr1).
  by rewrite <- !app_assoc.
Qed.

Lemma AddInterface_config_failure_witness :
  let r := AddInterface Stub.kernelA "veth0" "eth" [OptAddress Stub.addr1] Stub.sandbox in
  r.1 = inl (Errorf (MsgIP "veth0" (Some Stub.addr1)) (Errno "EEXIST")) /\
  iFaces (reg r.2) = [] /\
  drop 8 (trace r.2) =
    [ EvLinkSetName NsHandle (Stub.eth "veth0") "veth0";
      EvLog (LogRollbackRename "eth0" "veth0" "EBUSY"
               (Errorf (MsgIP "veth0" (Some Stub.addr1)) (Errno "EEXIST")));
      EvLinkSetNsFd NsHandle (Stub.eth "veth0") 3;
      EvClose 9 ].
Proof.
  intros r.
  destruct (AddInterface_config_failure Stub.kernelA "veth0" "eth" [OptAddress Stub.addr1]
              Stub.sandbox 0%nat (Stub.veth0 Stub.addr1) (Stub.eth "veth0") Stub.placedA
              (Errorf (MsgIP "veth0" (Some Stub.addr1)) (Errno "EEXIST")) Stub.configuredA
              ltac:(vm_compute; reflexivity) ltac:(vm_compute; reflexivity))
    as (H & _ & _).
  subst r. rewrite H. vm_compute. repeat split; reflexivity.
Defined.

(** ** Link activation *)

Section ActivationFacts.

Variable k : Kernel.
Variable nlh : Handle.
Variable iface : netlink.Link.

Let up := EvLinkSetUp nlh iface.

Lemma retryTrace_cons tr e errs :
  retryTrace up tr (e :: errs) = retryTrace up (tr ++ [up; EvLog (LogRetryLinkUp e); EvSleep 10]) errs.
Proof. unfold retryTrace. simpl. by rewrite <- !app_assoc. Qed.

Lemma retryLinkSetUp_attempts cnt : forall tr,
  match retryLinkSetUp k nlh iface cnt (on_call k tr up) (tr ++ [up]) with
  | (uerr, tr2) =>
      exists errs,
        (length errs <= cnt)%nat /\
        tr2 = retryTrace up tr errs ++ [up] /\
        (forall j e, errs !! j = Some e -> on_call k (retryTrace up tr (take j errs)) up = Some e) /\
        uerr = on_call k (retryTrace up tr errs) up /\
        (is_Some uerr -> length errs = cnt)
  end.
Proof.
  induction cnt as [|cnt IH]; intros tr; simpl.
  - destruct (on_call k tr up) as [e|] eqn:E; unfold tret.
    + exists []. unfold retryTrace; simpl. rewrite app_nil_r.
      repeat split; try done; by intros [? ?].
    + exists []. unfold retryTrace; simpl. rewrite app_nil_r.
      repeat split; try done; try lia; by intros [? ?].
  - destruct (on_call k tr up) as [e|] eqn:E; unfold tret.
    + unfold tbind, Log, Sleep, emit, LinkSetUp, call; simpl. fold up.
      rewrite <- !app_assoc; simpl.
      specialize (IH (tr ++ [up; EvLog (LogRetryLinkUp e); EvSleep 10])).
      rewrite <- app_assoc in IH; simpl in IH.
      destruct (retryLinkSetUp k nlh iface cnt _ _) as [uerr tr2].
      destruct IH as (errs & Hlen & -> & Hfail & -> & Hall).
      exists (e :: errs). rewrite retryTrace_cons. repeat split; try done.
      * simpl. lia.
      * intros [|j] e' H; simpl in *.
        -- unfold retryTrace; simpl. rewrite app_nil_r. congruence.
        -- rewrite retryTrace_cons. by apply Hfail.
      * intros H. simpl. f_equal. by apply Hall.
    + exists []. unfold retryTrace; simpl. rewrite app_nil_r.
      repeat split; try done; try lia; by intros [? ?].
Qed.

Lemma count_retryTrace errs :
  length (List.filter isLinkSetUp
            (concat (map (fun e => [up; EvLog (LogRetryLinkUp e); EvSleep 10]) errs)))
  = length errs.
Proof. induction errs as [|e errs IH]; simpl; [done|]. by rewrite IH. Qed.

End ActivationFacts.

(** C5. Once configureInterface has succeeded, AddInterface calls LinkSetUp
    at most four times: after each failed attempt but the fourth it logs the
    error, sleeps for the fixed delay and tries again. Two failures and then
    a success make exactly three calls. When an attempt succeeds
    AddInterface goes on to install the routes; when all four fail it
    returns the link-up error with the last LinkSetUp as its last call
    before the deferred ones (no rename, no move back) and with the registry
    the prelude left, whose collection is unchanged. *)
Theorem AddInterface_activation k src dstPrefix options s p i iface f1 tr1 :
  addPrelude k src dstPrefix options {| st := s; deferred := [] |} = (inr (p, i, iface), f1) ->
  configureInterface k NsHandle iface i (trace (st f1)) = (None, tr1) ->
  let up := EvLinkSetUp NsHandle iface in
  match linkSetUpWithRetry k NsHandle iface tr1 with
  | (uerr, tr2) =>
      (exists errs,
         (length errs <= 3)%nat /\
         tr2 = retryTrace up tr1 errs ++ [up] /\
         length (List.filter isLinkSetUp (drop (length tr1) tr2)) = S (length errs) /\
         (forall j e, errs !! j = Some e ->
                      on_call k (retryTrace up tr1 (take j errs)) up = Some e) /\
         uerr = on_call k (retryTrace up tr1 errs) up /\
         (is_Some uerr -> length errs = 3%nat)) /\
      (forall e1 e2,
         on_call k tr1 up = Some e1 ->
         on_call k (retryTrace up tr1 [e1]) up = Some e2 ->
         on_call k (retryTrace up tr1 [e1; e2]) up = None ->
         uerr = None /\ tr2 = retryTrace up tr1 [e1; e2] ++ [up]) /\
      (uerr = None ->
       AddInterface k src dstPrefix options s =
       match setInterfaceRoutes k NsHandle iface i tr2 with
       | (Some e, tr3) =>
           (inl (Errorf (MsgRoutes (netlink.Name iface) (Routes i)) e),
            {| heap := heap (st f1); reg := reg (st f1); trace := tr3 ++ deferred f1 |})
       | (None, tr3) =>
           (inr tt,
            {| heap := heap (st f1);
               reg := set_loV6Enabled (on_checkLoV6 k tr3)
                        (set_iFaces (iFaces (reg (st f1)) ++ [p]) (reg (st f1)));
               trace := tr3 ++ [EvCheckLoV6] ++ deferred f1 |})
       end) /\
      (forall e, uerr = Some e ->
       AddInterface k src dstPrefix options s =
         (inl (Errorf MsgLinkUp (Errno e)),
          {| heap := heap (st f1); reg := reg (st f1); trace := tr2 ++ deferred f1 |}) /\
       iFaces (reg (st f1)) = iFaces (reg s))
  end.
Proof.
  intros Hpre Hcfg up.
  pose proof (keeps_addPrelude k src dstPrefix options _ _ _ Hpre) as (_ & _ & Hif & _).
  simpl in Hif.
  pose proof (retryLinkSetUp_attempts k NsHandle iface 3 tr1) as Hretry.
  pose proof (AddInterface_run k _ _ _ _ _ _ _ _ Hpre) as Hrun.
  rewrite addConfigured_run, Hcfg in Hrun.
  unfold linkSetUpWithRetry, tbind, LinkSetUp, call in *. fold up in Hretry, Hrun |- *.
  destruct (retryLinkSetUp k NsHandle iface 3 (on_call k tr1 up) (tr1 ++ [up])) as [uerr tr2].
  destruct Hretry as (errs & Hlen & -> & Hfail & -> & Hall).
  split; [|split; [|split]].
  - exists errs. repeat split; try done.
    subst up. unfold retryTrace.
    rewrite <- app_assoc, drop_app_length, List.filter_app, length_app.
    rewrite count_retryTrace. simpl. lia.
  - intros e1 e2 H1 H2 H3.
    assert (Hnil : retryTrace up tr1 [] = tr1) by (unfold retryTrace; simpl; apply app_nil_r).
    assert (errs = [e1; e2]) as ->; [|done].
    destruct errs as [|a errs].
    { rewrite Hnil, H1 in Hall. by specialize (Hall (ltac:(by eexists))). }
    pose proof (Hfail 0%nat a eq_refl) as H0. simpl in H0. rewrite Hnil, H1 in H0.
    injection H0 as <-.
    destruct errs as [|b errs].
    { rewrite H2 in Hall. by specialize (Hall (ltac:(by eexists))). }
    pose proof (Hfail 1%nat b eq_refl) as H0. simpl in H0. rewrite H2 in H0.
    injection H0 as <-.
    destruct errs as [|c errs]; [done|].
    pose proof (Hfail 2%nat c eq_refl) as H0. simpl in H0. by rewrite H3 in H0.
  - intros Hnone. rewrite Hnone in Hrun. rewrite Hrun.
    destruct (setInterfaceRoutes k NsHandle iface i _) as [[e|] tr3]; simpl; [done|].
    unfold set_trace; simpl. by rewrite <- app_assoc.
  - intros e He. rewrite He in Hrun. by rewrite Hrun.
Qed.

Lemma AddInterface_activation_witness :
  let r := AddInterface Stub.kernelB "veth0" "eth" [OptAddress Stub.addr1] Stub.sandbox in
  r.1 = inr tt /\
  length (List.filter isLinkSetUp (trace r.2)) = 3%nat /\
  iFaces (reg r.2) = [0%nat].
Proof.
  intros r.
  pose proof (AddInterface_activation Stub.kernelB "veth0" "eth" [OptAddress Stub.addr1]
                Stub.sandbox 0%nat (Stub.veth0 Stub.addr1) (Stub.eth "veth0") Stub.placedB
                Stub.configuredB
                ltac:(vm_compute; reflexivity) ltac:(vm_compute; reflexivity)) as H.
  assert (E : linkSetUpWithRetry Stub.kernelB NsHandle (Stub.eth "veth0") Stub.configuredB
              = (None, Stub.activatedB)) by (vm_compute; reflexivity).
  cbv zeta in H. rewrite E in H.
  destruct H as (_ & _ & Hok & _). specialize (Hok eq_refl).
  subst r. rewrite Hok. vm_compute. repeat split; reflexivity.
Defined.

(** Link-up failing four times: AddInterface returns the link-up error after
    four calls of LinkSetUp and registers nothing. *)
Example AddInterface_four_failed_attempts :
  let K := Stub.kernel (Stub.linkUpFails 4) [] in
  let r := AddInterface K "veth0" "eth" [] Stub.sandbox in
  r.1 = inl (Errorf MsgLinkUp (Errno "EBUSY")) /\
  length (List.filter isLinkSetUp (trace r.2)) = 4%nat /\
  iFaces (reg r.2) = [] /\
  last (trace r.2) = Some (EvClose 9).
Proof. vm_compute. repeat split; reflexivity. Qed.

(** ** Statistics and Remove *)

(** C7. Statistics makes one call, the lookup of the device by the
    destination name of the entity. When the lookup fails it returns the
    lookup error under the statistics message; when the device has no
    statistics object it returns the no-statistics error; otherwise it
    returns a snapshot whose six counters are those of the device. *)
Theorem Statistics_of_device k i tr :
  (Statistics k i tr).2 = tr ++ [EvLinkByName NsHandle (dstName i)] /\
  (forall err,
     on_LinkByName k tr NsHandle (dstName i) = inl err ->
     (Statistics k i tr).1 = inl (Errorf (MsgStatistics (dstName i) (ns_path i)) (Errno err))) /\
  (forall l,
     on_LinkByName k tr NsHandle (dstName i) = inr l ->
     netlink.Statistics l = None ->
     (Statistics k i tr).1 = inl (ErrorNew MsgNoStatistics)) /\
  (forall l stats,
     on_LinkByName k tr NsHandle (dstName i) = inr l ->
     netlink.Statistics l = Some stats ->
     exists snap,
       (Statistics k i tr).1 = inr snap /\
       types.RxBytes snap = netlink.RxBytes stats /\
       types.TxBytes snap = netlink.TxBytes stats /\
       types.RxPackets snap = netlink.RxPackets stats /\
       types.TxPackets snap = netlink.TxPackets stats /\
       types.RxDropped snap = netlink.RxDropped stats /\
       types.TxDropped snap = netlink.TxDropped stats).
Proof.
  unfold Statistics, tbind, tret, LinkByName, DstName; simpl.
  repeat split.
  - destruct (on_LinkByName k tr NsHandle (dstName i)) as [err|l]; [done|].
    by destruct (netlink.Statistics l).
  - by intros err ->.
  - by intros l -> ->.
  - intros l stats -> ->. eexists. by repeat split.
Qed.

Section RemoveFacts.

Variable k : Kernel.

(** The frame Remove leaves when it gets to its bookkeeping with the trace
    [tr]. *)
Let removed (p : ptr) (s : State) (tr : Trace) : (error + unit) * State :=
  (inr tt,
   {| heap := heap s;
      reg := set_loV6Enabled (on_checkLoV6 k tr)
               (set_iFaces (removeIface p (iFaces (reg s))) (reg s));
      trace := tr ++ [EvCheckLoV6] |}).

Lemma Remove_run p i s :
  Remove k p i s =
  let lookup := EvLinkByName NsHandle (dstName i) in
  match on_LinkByName k (trace s) NsHandle (dstName i) with
  | inl err => (inl (Errno err), set_trace (trace s ++ [lookup]) s)
  | inr iface =>
      let down := EvLinkSetDown NsHandle iface in
      let rename := EvLinkSetName NsHandle iface (srcName i) in
      let del := EvLinkDel NsHandle iface in
      let move := EvLinkSetNsFd NsHandle iface (ParseHandlerInt k) in
      match on_call k (trace s ++ [lookup]) down with
      | Some err => (inl (Errno err), set_trace (trace s ++ [lookup; down]) s)
      | None =>
          match on_call k (trace s ++ [lookup; down]) rename with
          | Some err =>
              (inl (Errno err),
               set_trace (trace s ++ [lookup; down; rename;
                                      EvLog (LogSetNameFailed (srcName i) err)]) s)
          | None =>
              if bridge i then
                match on_call k (trace s ++ [lookup; down; rename]) del with
                | Some err =>
                    (inl (Errorf (MsgDeleteBridge (srcName i)) (Errno err)),
                     set_trace (trace s ++ [lookup; down; rename; del]) s)
                | None => removed p s (trace s ++ [lookup; down; rename; del])
                end
              else if isDefault (reg s) then removed p s (trace s ++ [lookup; down; rename])
              else
                match on_call k (trace s ++ [lookup; down; rename]) move with
                | Some err =>
                    (inl (Errno err),
                     set_trace (trace s ++ [lookup; down; rename; move;
                                            EvLog (LogSetNsFailed (srcName i) err)]) s)
                | None => removed p s (trace s ++ [lookup; down; rename; move])
                end
          end
      end
  end.
Proof.
  unfold Remove, func, removeBody, checkLoV6, removed, ebind, eret, throw, gets, modify,
    liftT, check, checked, LinkByName, LinkSetDown, LinkSetName, LinkDel, LinkSetNsFd,
    Log, call, emit, set_trace, set_reg, SrcName, DstName, Bridge; simpl.
  destruct (on_LinkByName k (trace s) NsHandle (dstName i)) as [err|iface]; simpl.
  { by rewrite ?app_nil_r. }
  destruct (on_call k _ (EvLinkSetDown NsHandle iface)) as [err|]; simpl.
  { by rewrite ?app_nil_r, <- ?app_assoc. }
  rewrite <- !app_assoc; simpl.
  destruct (on_call k _ (EvLinkSetName NsHandle iface (srcName i))) as [err|]; simpl.
  { by rewrite ?app_nil_r, <- ?app_assoc. }
  destruct (bridge i); simpl.
  - rewrite <- !app_assoc; simpl.
    destruct (on_call k _ (EvLinkDel NsHandle iface)) as [err|]; simpl;
      by rewrite ?app_nil_r, <- ?app_assoc.
  - destruct (isDefault (reg s)); simpl.
    + by rewrite ?app_nil_r, <- ?app_assoc.
    + rewrite <- !app_assoc; simpl.
      destruct (on_call k _ (EvLinkSetNsFd NsHandle iface (ParseHandlerInt k))) as [err|];
        simpl; by rewrite ?app_nil_r, <- ?app_assoc.
Qed.

End RemoveFacts.

Section RemoveIfaceFacts.

Lemma indexOf_shift p l : forall n, indexOf p l (S n) = S <$> indexOf p l n.
Proof.
  induction l as [|q l IH]; intros n; simpl; [done|].
  case_decide; [done|]. apply IH.
Qed.

Lemma removeIface_cons p q l :
  removeIface p (q :: l) = if decide (q = p) then l else q :: removeIface p l.
Proof.
  unfold removeIface; simpl. case_decide; [done|].
  rewrite indexOf_shift. by destruct (indexOf p l 0).
Qed.


(** A receiver registered once is no longer registered. *)
Lemma removeIface_gone p l : NoDup l -> p ∉ removeIface p l.
Proof.
  induction 1 as [|x l Hx Hnd IH]; [apply not_elem_of_nil|].
  rewrite removeIface_cons. case_decide as Hp.
  - by subst x.
  - apply not_elem_of_cons. split; [congruence|done].
Qed.

Lemma removeIface_absent p l : p ∉ l -> removeIface p l = l.
Proof.
  induction l as [|x l IH]; [done|]. rewrite not_elem_of_cons. intros [Hx Hl].
  rewrite removeIface_cons. case_decide; [congruence|]. by rewrite IH.
Qed.

End RemoveIfaceFacts.



(** What a Remove that returned an error did. *)
Lemma Remove_failed k p i s e s' :
  Remove k p i s = (inl e, s') ->
  heap s' = heap s /\ reg s' = reg s /\
  let lookup := EvLinkByName NsHandle (dstName i) in
  ((exists err,
      on_LinkByName k (trace s) NsHandle (dstName i) = inl err /\ e = Errno err) \/
   (exists iface err,
      on_LinkByName k (trace s) NsHandle (dstName i) = inr iface /\
      let down := EvLinkSetDown NsHandle iface in
      let rename := EvLinkSetName NsHandle iface (srcName i) in
      (on_call k (trace s ++ [lookup]) down = Some err /\ e = Errno err \/
       on_call k (trace s ++ [lookup; down]) rename = Some err /\ e = Errno err \/
       bridge i = true /\
       on_call k (trace s ++ [lookup; down; rename]) (EvLinkDel NsHandle iface) = Some err /\
       e = Errorf (MsgDeleteBridge (srcName i)) (Errno err) \/
       bridge i = false /\ isDefault (reg s) = false /\
       on_call k (trace s ++ [lookup; down; rename])
         (EvLinkSetNsFd NsHandle iface (ParseHandlerInt k)) = Some err /\
       e = Errno err))).
Proof.
  rewrite Remove_run. cbv zeta. intros H.
  destruct (on_LinkByName k (trace s) NsHandle (dstName i)) as [err|iface] eqn:El.
  { injection H as <- <-. split; [done|]. split; [done|]. left. by exists err. }
  destruct (on_call k _ (EvLinkSetDown NsHandle iface)) as [err|] eqn:Ed.
  { injection H as <- <-. split; [done|]. split; [done|]. right. exists iface, err. auto. }
  destruct (on_call k _ (EvLinkSetName NsHandle iface (srcName i))) as [err|] eqn:En.
  { injection H as <- <-. split; [done|]. split; [done|]. right. exists iface, err. auto. }
  destruct (bridge i) eqn:Eb.
  - destruct (on_call k _ (EvLinkDel NsHandle iface)) as [err|] eqn:Edel; [|done].
    injection H as <- <-. split; [done|]. split; [done|]. right. exists iface, err.
    split; [done|]. do 2 right. left. done.
  - destruct (isDefault (reg s)) eqn:Edef; [done|].
    destruct (on_call k _ (EvLinkSetNsFd NsHandle iface (ParseHandlerInt k))) as [err|] eqn:Em;
      [|done].
    injection H as <- <-. split; [done|]. split; [done|]. right. exists iface, err.
    split; [done|]. do 3 right. done.
Qed.


(** C9. When a step of Remove fails, Remove returns the error of that
    step and leaves the heap and the registry as they were, so the entity
    stays registered and no field of it or of the registry changes. This
    holds step by step from the answers of the collaborators: a failed
    lookup by destination name, a failed link set down and a failed rename
    to the source name return the error as it is; after these succeeded, a
    failed deletion of a bridge returns the error under the delete-bridge
    message, and a failed move to the caller's namespace returns the error
    as it is. Conversely a Remove that returns an error failed at one of
    these steps, and left the heap and the registry as they were. *)
Theorem Remove_failure k p i s :
  let lookup := EvLinkByName NsHandle (dstName i) in
  let unchanged := fun tr => {| heap := heap s; reg := reg s; trace := tr |} in
  (forall err,
     on_LinkByName k (trace s) NsHandle (dstName i) = inl err ->
     Remove k p i s = (inl (Errno err), unchanged (trace s ++ [lookup]))) /\
  (forall iface,
     on_LinkByName k (trace s) NsHandle (dstName i) = inr iface ->
     let down := EvLinkSetDown NsHandle iface in
     let rename := EvLinkSetName NsHandle iface (srcName i) in
     let del := EvLinkDel NsHandle iface in
     let move := EvLinkSetNsFd NsHandle iface (ParseHandlerInt k) in
     (forall err,
        on_call k (trace s ++ [lookup]) down = Some err ->
        Remove k p i s = (inl (Errno err), unchanged (trace s ++ [lookup; down]))) /\
     (on_call k (trace s ++ [lookup]) down = None ->
      (forall err,
         on_call k (trace s ++ [lookup; down]) rename = Some err ->
         Remove k p i s =
           (inl (Errno err),
            unchanged (trace s ++ [lookup; down; rename;
                                   EvLog (LogSetNameFailed (srcName i) err)]))) /\
      (on_call k (trace s ++ [lookup; down]) rename = None ->
       (bridge i = true ->
        forall err,
          on_call k (trace s ++ [lookup; down; rename]) del = Some err ->
          Remove k p i s =
            (inl (Errorf (MsgDeleteBridge (srcName i)) (Errno err)),
             unchanged (trace s ++ [lookup; down; rename; del]))) /\
       (bridge i = false -> isDefault (reg s) = false ->
        forall err,
          on_call k (trace s ++ [lookup; down; rename]) move = Some err ->
          Remove k p i s =
            (inl (Errno err),
             unchanged (trace s ++ [lookup; down; rename; move;
                                    EvLog (LogSetNsFailed (srcName i) err)]))))))  /\
  (forall e s',
     Remove k p i s = (inl e, s') ->
     heap s' = heap s /\ reg s' = reg s /\
     ((exists err,
         on_LinkByName k (trace s) NsHandle (dstName i) = inl err /\ e = Errno err) \/
      (exists iface err,
         on_LinkByName k (trace s) NsHandle (dstName i) = inr iface /\
         let down := EvLinkSetDown NsHandle iface in
         let rename := EvLinkSetName NsHandle iface (srcName i) in
         (on_call k (trace s ++ [lookup]) down = Some err /\ e = Errno err \/
          on_call k (trace s ++ [lookup; down]) rename = Some err /\ e = Errno err \/
          bridge i = true /\
          on_call k (trace s ++ [lookup; down; rename]) (EvLinkDel NsHandle iface) = Some err /\
          e = Errorf (MsgDeleteBridge (srcName i)) (Errno err) \/
          bridge i = false /\ isDefault (reg s) = false /\
          on_call k (trace s ++ [lookup; down; rename])
            (EvLinkSetNsFd NsHandle iface (ParseHandlerInt k)) = Some err /\
          e = Errno err)))).
Proof.
  intros lookup unchanged. subst lookup unchanged.
  split; [|split].
  - intros err Hl. rewrite Remove_run. cbv zeta. by rewrite Hl.
  - intros iface Hl down rename del move. subst down rename del move.
    split.
    { intros err Hd. rewrite Remove_run. cbv zeta. by rewrite Hl, Hd. }
    intros Hd. split.
    { intros err Hn. rewrite Remove_run. cbv zeta. by rewrite Hl, Hd, Hn. }
    intros Hn. split.
    + intros Hb err He. rewrite Remove_run. cbv zeta. by rewrite Hl, Hd, Hn, Hb, He.
    + intros Hb Hdef err He. rewrite Remove_run. cbv zeta.
      by rewrite Hl, Hd, Hn, Hb, Hdef, He.
  - intros e s'. apply Remove_failed.
Qed.

Lemma Remove_failure_witness :
  let K := Stub.kernel Stub.delFails [] in
  let r := Remove K 1%nat (Stub.twin true) (Stub.twins true) in
  r.1 = inl (Errorf (MsgDeleteBridge "veth0") (Errno "EBUSY")) /\
  heap r.2 = heap (Stub.twins true) /\ reg r.2 = reg (Stub.twins true) /\
  iFaces (reg r.2) = [0%nat; 1%nat].
Proof.
  intros K r.
  destruct (Remove_failure K 1%nat (Stub.twin true) (Stub.twins true))
    as (_ & Hfwd & _).
  destruct (Hfwd (Stub.eth "eth0") eq_refl) as (_ & Hdown).
  destruct (Hdown eq_refl) as (_ & Hrename).
  destruct (Hrename eq_refl) as (Hdel & _).
  specialize (Hdel eq_refl "EBUSY" eq_refl).
  subst r. rewrite Hdel. by repeat split.
Defined.

(** ** Destination names *)

Lemma processInterfaceOptions_srcName options : forall i,
  srcName (processInterfaceOptions i options) = srcName i.
Proof.
  unfold processInterfaceOptions.
  induction options as [|o options IH]; intros i; simpl; [done|].
  rewrite IH. by destruct o.
Qed.

Lemma effectStep_refl f : effectStep f f.
Proof. done. Qed.

Lemma effectStep_trans f g h : effectStep f g -> effectStep g h -> effectStep f h.
Proof. intros (? & ? & ?) (? & ? & ?). repeat split; congruence. Qed.

Lemma keeps_effect_liftT {A} (m : T A) : keeps effectStep (liftT m).
Proof. intros f r f'. unfold liftT. destruct (m _). by intros [= <- <-]. Qed.

Lemma keeps_effect_defer c : keeps effectStep (defer c).
Proof. by intros f r f' [= <- <-]. Qed.

Lemma keeps_effect_placeIface k i : keeps effectStep (placeIface k i).
Proof.
  unfold placeIface.
  repeat first
    [ apply (keeps_ebind effectStep_trans)
    | apply (keeps_eret effectStep_refl)
    | apply (keeps_gets effectStep_refl)
    | apply (keeps_check effectStep_refl)
    | apply (keeps_checked effectStep_refl)
    | apply keeps_effect_liftT
    | apply keeps_effect_defer
    | match goal with
      | |- keeps _ (if ?b then _ else _) => destruct b
      | |- forall _, _ => intro
      end ].
Qed.

Lemma keeps_effect_addConfigured k p i iface : keeps effectStep (addConfigured k p i iface).
Proof.
  intros f r f'. rewrite addConfigured_run.
  repeat case_match; by intros [= <- <-].
Qed.

(** The first part of AddInterface, case by case. *)
Lemma named_run src dstPrefix options s :
  match named src dstPrefix options s with
  | (inl e, f) =>
      (exists m, e = ErrorNew (MsgMasterNotFound m src)) /\
      reg (st f) = reg s /\ trace (st f) = trace s /\ deferred f = []
  | (inr (p, i), f) =>
      p = length (heap s) /\ srcName i = src /\ heap (st f) !! p = Some i /\
      trace (st f) = trace s /\ deferred f = [] /\
      isDefault (reg (st f)) = isDefault (reg s) /\
      (if isDefault (reg s)
       then dstName i = src /\ nextIfIndex (reg (st f)) = nextIfIndex (reg s)
       else dstName i = dstPrefix +:+ pretty (default 0 (nextIfIndex (reg s) !! dstPrefix)) /\
            nextIfIndex (reg (st f)) =
              <[dstPrefix := wrap64 (default 0 (nextIfIndex (reg s) !! dstPrefix) + 1)]>
                (nextIfIndex (reg s)))
  end.
Proof.
  unfold named, nameIface, newIface, resolveMaster, allocDstName, store, ebind, eret, throw,
    gets, modify, set_heap, set_reg, set_nextIfIndex; simpl.
  set (i0 := processInterfaceOptions _ options).
  assert (Hsrc : srcName i0 = src) by apply processInterfaceOptions_srcName.
  assert (Hlook : forall x h, length h = length (heap s) ->
            <[length (heap s) := x]> (h ++ [i0]) !! length (heap s) = Some x).
  { intros x h Hh. apply list_lookup_insert_eq. rewrite length_app; simpl. lia. }
  destruct (negb (master i0 =? "")%string); simpl.
  - destruct (findDst _ (master i0) true =? "")%string; simpl.
    + split; [|done]. rewrite Hsrc. by eexists.
    + destruct (isDefault (reg s)) eqn:Ed; simpl; rewrite Ed.
      * repeat split; try done.
        rewrite list_insert_insert_eq. by apply Hlook.
      * repeat split; try done.
        rewrite list_insert_insert_eq. by apply Hlook.
  - destruct (isDefault (reg s)) eqn:Ed; simpl; rewrite Ed.
    + repeat split; try done. by apply Hlook.
    + repeat split; try done. by apply Hlook.
Qed.

Lemma AddInterface_phases k src dstPrefix options s :
  AddInterface k src dstPrefix options s =
  match nameIface src dstPrefix options {| st := s; deferred := [] |} with
  | (inl e, f1) => (inl e, set_trace (trace (st f1) ++ deferred f1) (st f1))
  | (inr pi, f1) =>
      match placeIface k pi.2 f1 with
      | (inl e, f2) => (inl e, set_trace (trace (st f2) ++ deferred f2) (st f2))
      | (inr iface, f2) =>
          let (r, f3) := addConfigured k pi.1 pi.2 iface f2 in
          (r, set_trace (trace (st f3) ++ deferred f3) (st f3))
      end
  end.
Proof.
  unfold AddInterface, func, addPrelude, ebind, eret.
  destruct (nameIface src dstPrefix options _) as [[e|pi] f1]; [done|].
  by destruct (placeIface k pi.2 f1) as [[e|iface] f2].
Qed.

(** AddInterface after its first part: the heap, the counters and the
    default flag are those the first part left. *)
Lemma AddInterface_named k src dstPrefix options s :
  match named src dstPrefix options s with
  | (inl e, f) => (AddInterface k src dstPrefix options s).1 = inl e
  | (inr _, _) => True
  end /\
  effectStep (named src dstPrefix options s).2
             {| st := (AddInterface k src dstPrefix options s).2; deferred := [] |}.
Proof.
  rewrite AddInterface_phases. unfold named.
  destruct (nameIface src dstPrefix options _) as [[e|pi] f1] eqn:En; simpl.
  - done.
  - split; [done|].
    destruct (placeIface k pi.2 f1) as [[e|iface] f2] eqn:Ep; simpl.
    + by apply keeps_effect_placeIface in Ep.
    + destruct (addConfigured k pi.1 pi.2 iface f2) as [r f3] eqn:Ec.
      apply keeps_effect_placeIface in Ep. apply keeps_effect_addConfigured in Ec.
      destruct Ep as (? & ? & ?), Ec as (? & ? & ?). repeat split; simpl; congruence.
Qed.

Lemma wrap64_small z : 0 <= z < 2 ^ 63 -> wrap64 z = z.
Proof. intros H. unfold wrap64. rewrite Z.mod_small; lia. Qed.

(** What one call does to the counters and the default flag. *)
Lemma runOp_counters k s o :
  isDefault (reg (runOp k s o)) = isDefault (reg s) /\
  nextIfIndex (reg (runOp k s o)) =
    match o with
    | OpAdd src dstPrefix options => nextIfIndex (reg (st (named src dstPrefix options s).2))
    | _ => nextIfIndex (reg s)
    end.
Proof.
  destruct o as [src dstPrefix options|p|p]; simpl.
  - pose proof (AddInterface_named k src dstPrefix options s) as [_ (_ & Hc & Hd)].
    pose proof (named_run src dstPrefix options s) as Hn.
    simpl in Hc, Hd. split; [|done]. rewrite Hd.
    destruct (named src dstPrefix options s) as [[e|[q i]] f]; simpl.
    + destruct Hn as (_ & -> & _). done.
    + by destruct Hn as (_ & _ & _ & _ & _ & -> & _).
  - unfold method. destruct (heap s !! p) as [i|]; [|done].
    rewrite Remove_run. cbv zeta. repeat case_match; done.
  - unfold method. by destruct (heap s !! p).
Qed.

Lemma allocation_step k s o :
  isDefault (reg s) = false ->
  isDefault (reg (runOp k s o)) = false /\
  (allocation s o = [] /\ nextIfIndex (reg (runOp k s o)) = nextIfIndex (reg s) \/
   exists p,
     allocation s o = [(p, p +:+ pretty (default 0 (nextIfIndex (reg s) !! p)))] /\
     nextIfIndex (reg (runOp k s o)) =
       <[p := wrap64 (default 0 (nextIfIndex (reg s) !! p) + 1)]> (nextIfIndex (reg s))).
Proof.
  intros Hd. pose proof (runOp_counters k s o) as [Hd' Hc]. rewrite Hd' , Hc.
  split; [done|].
  destruct o as [src dstPrefix options|p|p]; simpl; [|by left..].
  pose proof (named_run src dstPrefix options s) as Hn.
  destruct (named src dstPrefix options s) as [[e|[q i]] f]; simpl.
  - left. by destruct Hn as (_ & -> & _).
  - right. exists dstPrefix. rewrite Hd in Hn.
    by destruct Hn as (_ & _ & _ & _ & _ & _ & -> & ->).
Qed.

Lemma countOf_cons p q l :
  countOf p (q :: l) = ((if String.eqb p q then 1 else 0) + countOf p l)%nat.
Proof. unfold countOf; simpl. by destruct (String.eqb p q). Qed.

(** Along a sequence of calls the name given to a call is its prefix and
    the counter the registry started with plus the names given before for
    that prefix. *)
Lemma allocations_names k ops : forall s,
  isDefault (reg s) = false ->
  (forall p, 0 <= default 0 (nextIfIndex (reg s) !! p) /\
             default 0 (nextIfIndex (reg s) !! p) + Z.of_nat (length ops) < 2 ^ 63) ->
  forall j p name,
    allocations k s ops !! j = Some (p, name) ->
    name = p +:+ pretty (default 0 (nextIfIndex (reg s) !! p) +
                         Z.of_nat (countOf p (take j (map fst (allocations k s ops))))).
Proof.
  induction ops as [|o ops IH]; intros s Hd Hb j p name Hj; simpl in *; [done|].
  destruct (allocation_step k s o Hd) as [Hd1 [[Ha Hc]|(q & Ha & Hc)]].
  - rewrite Ha in *; simpl in *.
    assert (Hb1 : forall p', 0 <= default 0 (nextIfIndex (reg (runOp k s o)) !! p') /\
              default 0 (nextIfIndex (reg (runOp k s o)) !! p') + Z.of_nat (length ops) < 2 ^ 63).
    { intros p'. rewrite Hc. specialize (Hb p'). lia. }
    rewrite (IH _ Hd1 Hb1 j p name Hj). by rewrite Hc.
  - rewrite Ha in *; simpl in *.
    assert (Hw : wrap64 (default 0 (nextIfIndex (reg s) !! q) + 1)
                 = default 0 (nextIfIndex (reg s) !! q) + 1).
    { apply wrap64_small. specialize (Hb q). lia. }
    rewrite Hw in Hc.
    assert (Hb1 : forall p', 0 <= default 0 (nextIfIndex (reg (runOp k s o)) !! p') /\
              default 0 (nextIfIndex (reg (runOp k s o)) !! p') + Z.of_nat (length ops) < 2 ^ 63).
    { intros p'. rewrite Hc. specialize (Hb p').
      destruct (decide (q = p')) as [->|Hpq].
      - rewrite lookup_insert_eq; simpl. lia.
      - rewrite lookup_insert_ne by done. lia. }
    destruct j as [|j]; simpl in *.
    + injection Hj as <- <-. unfold countOf; simpl. by rewrite Z.add_0_r.
    + rewrite (IH _ Hd1 Hb1 j p name Hj).
      rewrite Hc, countOf_cons. f_equal. f_equal.
      destruct (String.eqb_spec p q) as [->|Hpq].
      * rewrite lookup_insert_eq; simpl. lia.
      * rewrite lookup_insert_ne by done. lia.
Qed.

Lemma countOf_take_lt p (l : list string) j1 j2 :
  (j1 < j2)%nat -> l !! j1 = Some p ->
  (countOf p (take j1 l) < countOf p (take j2 l))%nat.
Proof.
  revert j1 j2. induction l as [|x l IH]; intros j1 j2 Hlt Hj1; [done|].
  destruct j2 as [|j2]; [lia|]. destruct j1 as [|j1]; simpl in *.
  - injection Hj1 as ->. rewrite countOf_cons, String.eqb_refl. unfold countOf; simpl. lia.
  - rewrite !countOf_cons. specialize (IH j1 j2 ltac:(lia) Hj1). lia.
Qed.

(** C2, as the code has it. A call of AddInterface either stops at the
    master lookup, and then gives out no name and leaves the counters, or
    names its entity: with the source name in the default namespace,
    whatever the prefix, and otherwise with the prefix followed by the
    counter of that prefix, which is then incremented. In a sequence of
    fewer than 2^63 calls on a registry that is not the default one and
    starts with no counter, the number in a name is the count of the names
    given before for the same prefix, and two names given for the same
    prefix differ. (Names given for different prefixes can be equal.) *)
Theorem AddInterface_dstName k src dstPrefix options s :
  match named src dstPrefix options s with
  | (inl e, _) =>
      (exists m, e = ErrorNew (MsgMasterNotFound m src)) /\
      (AddInterface k src dstPrefix options s).1 = inl e /\
      nextIfIndex (reg (AddInterface k src dstPrefix options s).2) = nextIfIndex (reg s)
  | (inr (p, i), _) =>
      p = length (heap s) /\
      heap (AddInterface k src dstPrefix options s).2 !! p = Some i /\
      srcName i = src /\
      if isDefault (reg s)
      then dstName i = src /\
           nextIfIndex (reg (AddInterface k src dstPrefix options s).2) = nextIfIndex (reg s)
      else dstName i = dstPrefix +:+ pretty (default 0 (nextIfIndex (reg s) !! dstPrefix)) /\
           nextIfIndex (reg (AddInterface k src dstPrefix options s).2) =
             <[dstPrefix := wrap64 (default 0 (nextIfIndex (reg s) !! dstPrefix) + 1)]>
               (nextIfIndex (reg s))
  end /\
  forall ops,
    isDefault (reg s) = false ->
    nextIfIndex (reg s) = ∅ ->
    Z.of_nat (length ops) < 2 ^ 63 ->
    (forall j p name,
       allocations k s ops !! j = Some (p, name) ->
       name = p +:+ pretty (Z.of_nat (countOf p (take j (map fst (allocations k s ops)))))) /\
    (forall j1 j2 p name1 name2,
       j1 <> j2 ->
       allocations k s ops !! j1 = Some (p, name1) ->
       allocations k s ops !! j2 = Some (p, name2) ->
       name1 <> name2).
Proof.
  split.
  - pose proof (named_run src dstPrefix options s) as Hn.
    pose proof (AddInterface_named k src dstPrefix options s) as [He (Hh & Hc & _)].
    simpl in Hh, Hc.
    destruct (named src dstPrefix options s) as [[e|[p i]] f]; simpl in *.
    + destruct Hn as (Hm & Hr & _). rewrite Hc, Hr. done.
    + destruct Hn as (-> & Hsrc & Hp & _ & _ & _ & Hname).
      rewrite Hh, Hc. repeat split; try done.
  - intros ops Hd Hempty Hlen.
    assert (Hb : forall p, 0 <= default 0 (nextIfIndex (reg s) !! p) /\
                 default 0 (nextIfIndex (reg s) !! p) + Z.of_nat (length ops) < 2 ^ 63).
    { intros p. rewrite Hempty, lookup_empty; simpl. lia. }
    assert (Hnames : forall j p name,
       allocations k s ops !! j = Some (p, name) ->
       name = p +:+ pretty (Z.of_nat (countOf p (take j (map fst (allocations k s ops)))))).
    { intros j p name Hj. rewrite (allocations_names k ops s Hd Hb j p name Hj).
      by rewrite Hempty, lookup_empty. }
    split; [done|].
    assert (Hlt : forall j1 j2 p name1 name2,
       (j1 < j2)%nat ->
       allocations k s ops !! j1 = Some (p, name1) ->
       allocations k s ops !! j2 = Some (p, name2) ->
       name1 <> name2).
    { intros j1 j2 p name1 name2 Hj H1 H2.
      rewrite (Hnames _ _ _ H1), (Hnames _ _ _ H2).
      intros Heq%(inj (String.app p))%(inj pretty)%Nat2Z.inj.
      assert (Hp : map fst (allocations k s ops) !! j1 = Some p).
      { by rewrite list_lookup_fmap, H1. }
      pose proof (countOf_take_lt p _ j1 j2 Hj Hp). lia. }
    intros j1 j2 p name1 name2 Hne H1 H2.
    destruct (Nat.lt_total j1 j2) as [Hj|[Hj|Hj]]; [by eapply Hlt|done|].
    intros Heq. symmetry in Heq. revert Heq. by eapply Hlt.
Qed.

(** The claim C2 as stated fails: on one registry the prefix eth1 with
    counter 0 and the prefix eth with counter 10 give the same destination
    name, and both entities are registered. *)
Lemma dstName_collision :
  let K := Stub.kernel Stub.never [] in
  let ops := OpAdd "veth1" "eth1" [] :: replicate 11 (OpAdd "veth0" "eth" []) in
  let s := runOps K Stub.sandbox ops in
  allocations K Stub.sandbox ops !! 0%nat = Some ("eth1", "eth10") /\
  allocations K Stub.sandbox ops !! 11%nat = Some ("eth", "eth10") /\
  iFaces (reg s) = seq 0 12 /\
  dstName <$> heap s !! 0%nat = Some "eth10" /\
  dstName <$> heap s !! 11%nat = Some "eth10".
Proof. vm_compute. repeat split; reflexivity. Qed.

(** ** The route conflict check *)

Section ConflictFacts.

Variable k : Kernel.
Variable nlh : Handle.

Lemma conflictingRoute_error a routes e :
  conflictingRoute a routes = Some e ->
  exists route dst,
    e = ErrorNew (MsgConflict a route) /\ route ∈ routes /\ netlink.Dst route = Some dst /\
    Contains dst (IP a) || Contains a (IP dst) = true.
Proof.
  induction routes as [|r routes IH]; simpl; [done|].
  destruct (netlink.Dst r) as [dst|] eqn:Ed.
  - destruct (Contains dst (IP a) || Contains a (IP dst)) eqn:Ec.
    + intros [= <-]. exists r, dst. repeat split; try done. apply list_elem_of_here.
    + intros (route & d & ? & ? & ?)%IH. exists route, d. repeat split; try tauto.
      by apply list_elem_of_further.
  - intros (route & d & ? & ? & ?)%IH. exists route, d. repeat split; try tauto.
    by apply list_elem_of_further.
Qed.

Lemma conflictingRoute_none a routes :
  conflictingRoute a routes = None ->
  forall route dst,
    route ∈ routes -> netlink.Dst route = Some dst ->
    Contains dst (IP a) || Contains a (IP dst) = false.
Proof.
  induction routes as [|r routes IH]; simpl; intros H route dst Hin Hd.
  - by apply elem_of_nil in Hin.
  - apply elem_of_cons in Hin as [->|Hin].
    + rewrite Hd in H. by destruct (Contains dst (IP a) || Contains a (IP dst)).
    + destruct (netlink.Dst r) as [d|]; [|by eapply IH].
      destruct (Contains d (IP a) || Contains a (IP d)); [done|by eapply IH].
Qed.

(** Over canonical networks the loop finds a route exactly when the
    candidate and a destination are nested. *)
Lemma conflictingRoute_nested a routes :
  canonical a ->
  (forall route dst, route ∈ routes -> netlink.Dst route = Some dst -> canonical dst) ->
  (exists route, conflictingRoute a routes = Some (ErrorNew (MsgConflict a route))) <->
  conflictsWith a routes.
Proof.
  intros Ha Hroutes. split.
  - intros (route & (r & dst & _ & Hin & Hd & Hc)%conflictingRoute_error).
    exists r, dst. repeat split; try done.
    apply overlap_iff_nested; eauto.
  - intros (route & dst & Hin & Hd & Hn).
    destruct (conflictingRoute a routes) as [e|] eqn:Ec.
    + apply conflictingRoute_error in Ec as (r & _ & -> & _). by exists r.
    + pose proof (conflictingRoute_none a routes Ec route dst Hin Hd) as Hf.
      apply overlap_iff_nested in Hn; eauto. congruence.
Qed.

Lemma checkRouteConflict_run a family tr :
  checkRouteConflict k nlh a family tr =
  (match on_RouteList k tr nlh family with
   | inl err => Some (Errno err)
   | inr routes => conflictingRoute a routes
   end, tr ++ [EvRouteList nlh family]).
Proof.
  unfold checkRouteConflict, tbind, tret, RouteList.
  by destruct (on_RouteList k tr nlh family).
Qed.

(** An address step that returns an error of its own making returns the
    conflict error, right after the route check. *)
Lemma setInterfaceIP_own_error iface i tr m tr' :
  setInterfaceIP k nlh iface i tr = (Some (ErrorNew m), tr') ->
  tr' = tr ++ [EvRouteList nlh netlink.FAMILY_V4] /\
  exists a routes,
    address i = Some a /\ on_RouteList k tr nlh netlink.FAMILY_V4 = inr routes /\
    conflictingRoute a routes = Some (ErrorNew m).
Proof.
  unfold setInterfaceIP, Address. destruct (address i) as [a|]; [|done].
  unfold tbind at 1. rewrite checkRouteConflict_run.
  destruct (on_RouteList k tr nlh netlink.FAMILY_V4) as [err|routes]; [done|].
  destruct (conflictingRoute a routes) as [e|] eqn:Ec.
  - unfold tret. intros [= -> <-]. split; [done|]. by exists a, routes.
  - unfold tbind, tret, AddrAdd, call, sys. by destruct (on_call k _ _).
Qed.

Lemma setInterfaceIPv6_own_error iface i tr m tr' :
  setInterfaceIPv6 k nlh iface i tr = (Some (ErrorNew m), tr') ->
  tr' = tr ++ [EvRouteList nlh netlink.FAMILY_V6] /\
  exists a routes,
    addressIPv6 i = Some a /\ on_RouteList k tr nlh netlink.FAMILY_V6 = inr routes /\
    conflictingRoute a routes = Some (ErrorNew m).
Proof.
  unfold setInterfaceIPv6, AddressIPv6. destruct (addressIPv6 i) as [a|]; [|done].
  unfold tbind at 1. rewrite checkRouteConflict_run.
  destruct (on_RouteList k tr nlh netlink.FAMILY_V6) as [err|routes]; [done|].
  destruct (conflictingRoute a routes) as [e|] eqn:Ec.
  - unfold tret. intros [= -> <-]. split; [done|]. by exists a, routes.
  - unfold tbind, tret, setIPv6, AddrAdd, call, sys.
    destruct (on_call k _ _); [done|]. by destruct (on_call k _ _).
Qed.

Lemma addLinkLocalIPs_errno iface lls : forall tr m tr',
  addLinkLocalIPs k nlh iface lls tr <> (Some (ErrorNew m), tr').
Proof.
  induction lls as [|ll lls IH]; intros tr m tr'; simpl; [done|].
  unfold tbind, tret, AddrAdd, call. destruct (on_call k tr _); [done|]. apply IH.
Qed.

Lemma addRoutes_errno iface rs : forall tr e tr',
  addRoutes k nlh iface rs tr = (Some e, tr') -> exists x, e = Errno x.
Proof.
  induction rs as [|r rs IH]; intros tr e tr'; simpl; [done|].
  unfold tbind, tret, RouteAdd, call. destruct (on_call k tr _) as [x|].
  - intros [= <- _]. by exists x.
  - apply IH.
Qed.

End ConflictFacts.

Section ConflictInAdd.

Variable k : Kernel.

Lemma forallb_weaken {A} (P Q : A -> bool) (l : list A) :
  (forall x, P x = true -> Q x = true) -> forallb P l = true -> forallb Q l = true.
Proof.
  intros HPQ. induction l as [|x l IH]; simpl; [done|].
  intros [Hx Hl]%andb_true_iff. by rewrite (HPQ x Hx), IH.
Qed.

Lemma placement_calls_add_no_address d :
  forallb isPlacementCall d = true -> noAddrAdd d = true /\ noSetIPv6 d = true.
Proof.
  intros H. split; revert H; apply forallb_weaken; by intros [].
Qed.

Lemma closes_add_no_address d :
  forallb isClose d = true -> noAddrAdd d = true /\ noSetIPv6 d = true.
Proof.
  intros H. split; revert H; apply forallb_weaken; by intros [].
Qed.

Lemma rollback_adds_no_address iface i err tr :
  exists d, (rollbackPlacement k iface i err tr).2 = tr ++ d /\
            noAddrAdd d = true /\ noSetIPv6 d = true.
Proof.
  rewrite rollbackPlacement_trace. eexists. split; [done|].
  destruct (on_call k tr _); simpl; by destruct (on_call k _ _).
Qed.

(** A conflict error returned by AddInterface comes from the IPv4 or the
    IPv6 step, whose check listed routes one of which meets the address; no
    address is added after the route check that found it, and before an
    IPv4 conflict none was added at all. *)
Lemma AddInterface_conflict src dstPrefix options s m a route :
  (AddInterface k src dstPrefix options s).1 = inl (Errorf m (ErrorNew (MsgConflict a route))) ->
  exists d1 family d2 ifaceName routes,
    trace (AddInterface k src dstPrefix options s).2 =
      trace s ++ d1 ++ [EvRouteList NsHandle family] ++ d2 /\
    noAddrAdd d2 = true /\ noSetIPv6 d2 = true /\
    iFaces (reg (AddInterface k src dstPrefix options s).2) = iFaces (reg s) /\
    on_RouteList k (trace s ++ d1) NsHandle family = inr routes /\
    route ∈ routes /\ overlapsWith a routes /\
    (m = MsgIP ifaceName (Some a) /\ family = netlink.FAMILY_V4 /\
     noAddrAdd d1 = true /\ noSetIPv6 d1 = true \/
     m = MsgIPv6 ifaceName (Some a) /\ family = netlink.FAMILY_V6 /\ noSetIPv6 d1 = true).
Proof.
  destruct (addPrelude k src dstPrefix options {| st := s; deferred := [] |})
    as [[e|[[p i] iface]] f1] eqn:Hpre.
  { pose proof (raises_addPrelude k src dstPrefix options _ _ _ Hpre) as He.
    unfold AddInterface, func, ebind. rewrite Hpre. simpl. intros [= ->].
    by destruct m. }
  pose proof (keeps_addPrelude k src dstPrefix options _ _ _ Hpre)
    as ((d0 & Hd0 & Hplace) & (c & Hc & Hclose) & Hif & _).
  simpl in Hd0, Hc, Hif. rewrite app_nil_r in Hc.
  apply placement_calls_add_no_address in Hplace as [Hp1 Hp2].
  apply closes_add_no_address in Hclose as [Hc1 Hc2].
  rewrite (AddInterface_run k _ _ _ _ _ _ _ _ Hpre), addConfigured_run.
  pose proof (runConfigurators_steps NsHandle iface i _ _
                (ifaceConfigurators_steps k NsHandle iface i) (trace (st f1))) as Hcfg.
  unfold configureInterface.
  destruct (runConfigurators NsHandle iface i _ _) as [[err|] tr1].
  - simpl. intros [= ->].
    destruct Hcfg as (j & f & msg & calls & cause & d & Hf & Hs & [= <- <-] & Hrun & _ & _ & _).
    destruct (rollback_adds_no_address iface i
                (Errorf m (ErrorNew (MsgConflict a route))) tr1) as (dr & -> & Hr1 & Hr2).
    assert (Hd2 : noAddrAdd (dr ++ deferred f1) = true /\ noSetIPv6 (dr ++ deferred f1) = true).
    { unfold noAddrAdd, noSetIPv6 in *. rewrite !forallb_app, Hc. by rewrite Hr1, Hr2, Hc1, Hc2. }
    destruct Hd2 as [Hd2a Hd2b].
    destruct j as [|[|[|[|[|[|j]]]]]]; simpl in Hf, Hs; try done;
      injection Hf as <- <-; injection Hs as <-; simpl in Hrun.
    + unfold setInterfaceName, tbind, tret, LinkSetName, call, sys in Hrun.
      by destruct (on_call k _ _).
    + unfold setInterfaceMAC, tbind, tret, LinkSetHardwareAddr, call, sys, MacAddress in Hrun.
      destruct (mac i); [|done]. by destruct (on_call k _ _).
    + apply setInterfaceIP_own_error in Hrun as (-> & a' & routes & Ha & Hlist & Hcr).
      apply conflictingRoute_error in Hcr as (r' & dst & [= <- <-] & Hin & Hdst & Hov).
      exists (d0 ++ EvLinkSetName NsHandle iface (dstName i) ::
              match mac i with
              | Some m => [EvLinkSetHardwareAddr NsHandle iface m]
              | None => []
              end),
        netlink.FAMILY_V4, (dr ++ deferred f1), (netlink.Name iface), routes.
      simpl. rewrite Hd0, app_nil_r, <- !app_assoc. simpl.
      split; [done|]. split; [done|]. split; [done|]. split; [done|].
      split. { rewrite <- Hlist, Hd0, <- !app_assoc. simpl. by destruct (mac i). }
      split; [done|]. split; [by exists route, dst|].
      left. unfold Address. rewrite Ha. repeat split; try done.
      * unfold noAddrAdd in *. rewrite forallb_app, Hp1. simpl. by destruct (mac i).
      * unfold noSetIPv6 in *. rewrite forallb_app, Hp2. simpl. by destruct (mac i).
    + apply setInterfaceIPv6_own_error in Hrun as (-> & a' & routes & Ha & Hlist & Hcr).
      apply conflictingRoute_error in Hcr as (r' & dst & [= <- <-] & Hin & Hdst & Hov).
      exists (d0 ++ EvLinkSetName NsHandle iface (dstName i) ::
              match mac i with
              | Some m => [EvLinkSetHardwareAddr NsHandle iface m]
              | None => []
              end ++
              match address i with
              | Some a4 =>
                  [EvRouteList NsHandle netlink.FAMILY_V4;
                   EvAddrAdd NsHandle iface
                     {| netlink.IPNet := Some a4; netlink.Label := ""; netlink.Flags := 0 |}]
              | None => []
              end),
        netlink.FAMILY_V6, (dr ++ deferred f1), (netlink.Name iface), routes.
      simpl. rewrite Hd0, app_nil_r, <- !app_assoc. simpl. rewrite <- !app_assoc.
      split; [done|]. split; [done|]. split; [done|]. split; [done|].
      split.
      { rewrite <- Hlist, Hd0, <- !app_assoc. simpl. rewrite <- ?app_assoc.
        by destruct (mac i), (address i). }
      split; [done|]. split; [by exists route, dst|].
      right. unfold AddressIPv6. rewrite Ha. repeat split; try done.
      unfold noSetIPv6 in *. rewrite forallb_app, Hp2. simpl.
      rewrite forallb_app. by destruct (mac i), (address i).
    + unfold setInterfaceMaster, tbind, tret, LinkSetMaster, call, sys, DstMaster in Hrun.
      destruct (String.eqb (dstMaster i) ""); [done|]. by destruct (on_call k _ _).
    + by apply addLinkLocalIPs_errno in Hrun.
  - destruct (linkSetUpWithRetry k NsHandle iface tr1) as [[e|] tr2]; [done|].
    destruct (setInterfaceRoutes k NsHandle iface i tr2) as [[e|] tr3] eqn:Hr; [|done].
    simpl. intros [= <- ->]. by apply addRoutes_errno in Hr as [x [=]].
Qed.

End ConflictInAdd.

(** The loop of the check finds a route exactly when the test holds for
    some route of the list, and the route it reports is one of the list. *)
Lemma conflictingRoute_overlaps a routes :
  (overlapsWith a routes ->
   exists route,
     route ∈ routes /\ conflictingRoute a routes = Some (ErrorNew (MsgConflict a route))) /\
  (forall e, conflictingRoute a routes = Some e -> overlapsWith a routes) /\
  (conflictingRoute a routes = None <-> ~ overlapsWith a routes).
Proof.
  assert (Hfwd : overlapsWith a routes ->
                 exists route,
                   route ∈ routes /\
                   conflictingRoute a routes = Some (ErrorNew (MsgConflict a route))).
  { intros (route & dst & Hin & Hd & Hc).
    destruct (conflictingRoute a routes) as [e|] eqn:Ec.
    - apply conflictingRoute_error in Ec as (r & _ & -> & Hr & _). by exists r.
    - by rewrite (conflictingRoute_none a routes Ec route dst Hin Hd) in Hc. }
  assert (Hbwd : forall e, conflictingRoute a routes = Some e -> overlapsWith a routes).
  { intros e (r & dst & _ & Hin & Hd & Hc)%conflictingRoute_error. by exists r, dst. }
  split; [done|]. split; [done|]. split.
  - intros Hnone (route & _ & Hr)%Hfwd. congruence.
  - intros Hno. destruct (conflictingRoute a routes) as [e|] eqn:Ec; [|done].
    destruct Hno. by eapply Hbwd.
Qed.

Section ConflictForward.

Variable k : Kernel.

(** AddInterface when the address step of the pipeline, the third for IPv4
    and the fourth for IPv6, finds a conflict after the steps before it
    succeeded. *)
Lemma AddInterface_conflict_forward src dstPrefix options s p i iface f1 n f msg route tr :
  addPrelude k src dstPrefix options {| st := s; deferred := [] |} = (inr (p, i, iface), f1) ->
  ifaceConfigurators k iface i !! n = Some (f, msg) ->
  tr = trace (st f1) ++ concat (map snd (take n (stepCalls NsHandle iface i))) ->
  (forall j f' msg',
     (j < n)%nat -> ifaceConfigurators k iface i !! j = Some (f', msg') ->
     (f' NsHandle iface i
         (trace (st f1) ++ concat (map snd (take j (stepCalls NsHandle iface i))))).1 = None) ->
  forall family a,
    f NsHandle iface i tr =
      (Some (ErrorNew (MsgConflict a route)), tr ++ [EvRouteList NsHandle family]) ->
    exists d,
      (AddInterface k src dstPrefix options s).1 =
        inl (Errorf msg (ErrorNew (MsgConflict a route))) /\
      trace (AddInterface k src dstPrefix options s).2 =
        tr ++ [EvRouteList NsHandle family] ++ d /\
      noAddrAdd d = true /\ noSetIPv6 d = true /\
      reg (AddInterface k src dstPrefix options s).2 = reg (st f1) /\
      iFaces (reg (AddInterface k src dstPrefix options s).2) = iFaces (reg s) /\
      exists d0, trace (st f1) = trace s ++ d0 /\ noAddrAdd d0 = true /\ noSetIPv6 d0 = true.
Proof.
  intros Hpre Hn -> Hbefore family a Hf.
  pose proof (keeps_addPrelude k src dstPrefix options _ _ _ Hpre)
    as ((d0 & Hd0 & Hplace) & (c & Hc & Hclose) & Hif & _).
  simpl in Hd0, Hc, Hif. rewrite app_nil_r in Hc.
  apply placement_calls_add_no_address in Hplace as [Hp1 Hp2].
  apply closes_add_no_address in Hclose as [Hc1 Hc2].
  pose proof (runConfigurators_first_failure NsHandle iface i _ _
                (ifaceConfigurators_steps k NsHandle iface i) (trace (st f1)) n f msg _ _
                Hn Hbefore Hf) as Hcfg.
  fold (configureInterface k NsHandle iface i (trace (st f1))) in Hcfg.
  rewrite (AddInterface_run k _ _ _ _ _ _ _ _ Hpre), addConfigured_run, Hcfg.
  destruct (rollback_adds_no_address k iface i (Errorf msg (ErrorNew (MsgConflict a route)))
              ((trace (st f1) ++ concat (map snd (take n (stepCalls NsHandle iface i)))) ++
               [EvRouteList NsHandle family])) as (dr & Hdr & Hr1 & Hr2).
  exists (dr ++ deferred f1). simpl. rewrite Hdr, <- !app_assoc.
  split; [done|]. split; [done|].
  unfold noAddrAdd, noSetIPv6 in *. rewrite !forallb_app, Hc, Hr1, Hr2, Hc1, Hc2.
  split; [done|]. split; [done|]. split; [done|]. split; [done|].
  by exists d0.
Qed.

End ConflictForward.

(** C1. The route check lists the routes of the family and reports a
    conflict exactly when, for some route with a destination, the
    destination holds the address of the candidate or the candidate holds
    the address of the destination; for networks whose masks are prefixes
    that is exactly when the candidate contains, or is contained by, the
    destination of some route. The IPv4 and the IPv6 step make the check
    their first call: on a conflict they return the conflict error right
    after it, having added nothing; with no conflict they go on to add the
    address. When the address step of AddInterface finds a conflict, after
    the steps before it succeeded, AddInterface returns the conflict error
    under the message of the step, adds no address and makes no IPv6
    toggle after the check, added none before an IPv4 conflict, and
    registers nothing. Conversely a conflict error of AddInterface comes
    from one of the two steps, with no address added after its check. *)
Theorem address_conflict k nlh iface i a family tr routes :
  on_RouteList k tr nlh family = inr routes ->
  let list := EvRouteList nlh family in
  let errno := fun r : option syserr =>
                 match r with Some e => Some (Errno e) | None => None end in
  (checkRouteConflict k nlh a family tr).2 = tr ++ [list] /\
  ((exists route,
      (checkRouteConflict k nlh a family tr).1 = Some (ErrorNew (MsgConflict a route))) <->
   overlapsWith a routes) /\
  (~ overlapsWith a routes -> (checkRouteConflict k nlh a family tr).1 = None) /\
  (canonical a ->
   (forall route dst, route ∈ routes -> netlink.Dst route = Some dst -> canonical dst) ->
   (overlapsWith a routes <-> conflictsWith a routes)) /\
  (family = netlink.FAMILY_V4 -> address i = Some a ->
   let addr := EvAddrAdd nlh iface
                 {| netlink.IPNet := Some a; netlink.Label := ""; netlink.Flags := 0 |} in
   (overlapsWith a routes ->
    exists route,
      route ∈ routes /\
      setInterfaceIP k nlh iface i tr =
        (Some (ErrorNew (MsgConflict a route)), tr ++ [list])) /\
   (~ overlapsWith a routes ->
    setInterfaceIP k nlh iface i tr =
      (errno (on_call k (tr ++ [list]) addr), tr ++ [list; addr]))) /\
  (family = netlink.FAMILY_V6 -> addressIPv6 i = Some a ->
   let enable := EvSetIPv6 (ns_path i) (dstName i) true in
   let addr := EvAddrAdd nlh iface
                 {| netlink.IPNet := Some a; netlink.Label := "";
                    netlink.Flags := IFA_F_NODAD |} in
   (overlapsWith a routes ->
    exists route,
      route ∈ routes /\
      setInterfaceIPv6 k nlh iface i tr =
        (Some (ErrorNew (MsgConflict a route)), tr ++ [list])) /\
   (~ overlapsWith a routes ->
    setInterfaceIPv6 k nlh iface i tr =
      match on_call k (tr ++ [list]) enable with
      | Some err => (Some (Errorf MsgEnableIPv6 (Errno err)), tr ++ [list; enable])
      | None => (errno (on_call k (tr ++ [list; enable]) addr), tr ++ [list; enable; addr])
      end)) /\
  (forall src dstPrefix options s p f1 n,
     nlh = NsHandle ->
     addPrelude k src dstPrefix options {| st := s; deferred := [] |}
       = (inr (p, i, iface), f1) ->
     (family = netlink.FAMILY_V4 /\ address i = Some a /\ n = 2%nat \/
      family = netlink.FAMILY_V6 /\ addressIPv6 i = Some a /\ n = 3%nat) ->
     tr = trace (st f1) ++ concat (map snd (take n (stepCalls NsHandle iface i))) ->
     (forall j f msg,
        (j < n)%nat -> ifaceConfigurators k iface i !! j = Some (f, msg) ->
        (f NsHandle iface i
           (trace (st f1) ++ concat (map snd (take j (stepCalls NsHandle iface i))))).1
        = None) ->
     overlapsWith a routes ->
     exists route d,
       route ∈ routes /\
       (AddInterface k src dstPrefix options s).1 =
         inl (Errorf ((if (n =? 2)%nat then MsgIP else MsgIPv6) (netlink.Name iface) (Some a))
                (ErrorNew (MsgConflict a route))) /\
       trace (AddInterface k src dstPrefix options s).2 =
         tr ++ [EvRouteList NsHandle family] ++ d /\
       noAddrAdd d = true /\ noSetIPv6 d = true /\
       reg (AddInterface k src dstPrefix options s).2 = reg (st f1) /\
       iFaces (reg (AddInterface k src dstPrefix options s).2) = iFaces (reg s) /\
       exists d0,
         tr = trace s ++ d0 /\ noSetIPv6 d0 = true /\ (n = 2%nat -> noAddrAdd d0 = true)) /\
  (forall src dstPrefix options s m a' route,
     (AddInterface k src dstPrefix options s).1
       = inl (Errorf m (ErrorNew (MsgConflict a' route))) ->
     exists d1 fam d2 ifaceName listed,
       trace (AddInterface k src dstPrefix options s).2 =
         trace s ++ d1 ++ [EvRouteList NsHandle fam] ++ d2 /\
       noAddrAdd d2 = true /\ noSetIPv6 d2 = true /\
       iFaces (reg (AddInterface k src dstPrefix options s).2) = iFaces (reg s) /\
       on_RouteList k (trace s ++ d1) NsHandle fam = inr listed /\
       route ∈ listed /\ overlapsWith a' listed /\
       (m = MsgIP ifaceName (Some a') /\ fam = netlink.FAMILY_V4 /\
        noAddrAdd d1 = true /\ noSetIPv6 d1 = true \/
        m = MsgIPv6 ifaceName (Some a') /\ fam = netlink.FAMILY_V6 /\ noSetIPv6 d1 = true)).
Proof.
  intros Hlist list errno. subst list.
  destruct (conflictingRoute_overlaps a routes) as (Hfwd & Hbwd & Hnone).
  assert (Hcheck : checkRouteConflict k nlh a family tr =
                   (conflictingRoute a routes, tr ++ [EvRouteList nlh family])).
  { by rewrite checkRouteConflict_run, Hlist. }
  assert (H4 : address i = Some a ->
               setInterfaceIP k nlh iface i tr =
               match conflictingRoute a routes with
               | Some e => (Some e, tr ++ [EvRouteList nlh netlink.FAMILY_V4])
               | None =>
                   let addr := EvAddrAdd nlh iface
                                 {| netlink.IPNet := Some a; netlink.Label := "";
                                    netlink.Flags := 0 |} in
                   (errno (on_call k (tr ++ [EvRouteList nlh netlink.FAMILY_V4]) addr),
                    tr ++ [EvRouteList nlh netlink.FAMILY_V4; addr])
               end \/ family <> netlink.FAMILY_V4).
  { intros Hi. destruct (decide (family = netlink.FAMILY_V4)) as [->|]; [left|by right].
    unfold setInterfaceIP, Address. rewrite Hi. unfold tbind at 1.
    rewrite checkRouteConflict_run, Hlist.
    destruct (conflictingRoute a routes); [done|].
    unfold tbind, tret, AddrAdd, call, sys. by rewrite <- app_assoc. }
  assert (H6 : addressIPv6 i = Some a ->
               setInterfaceIPv6 k nlh iface i tr =
               match conflictingRoute a routes with
               | Some e => (Some e, tr ++ [EvRouteList nlh netlink.FAMILY_V6])
               | None =>
                   let enable := EvSetIPv6 (ns_path i) (dstName i) true in
                   let addr := EvAddrAdd nlh iface
                                 {| netlink.IPNet := Some a; netlink.Label := "";
                                    netlink.Flags := IFA_F_NODAD |} in
                   match on_call k (tr ++ [EvRouteList nlh netlink.FAMILY_V6]) enable with
                   | Some err =>
                       (Some (Errorf MsgEnableIPv6 (Errno err)),
                        tr ++ [EvRouteList nlh netlink.FAMILY_V6; enable])
                   | None =>
                       (errno (on_call k (tr ++ [EvRouteList nlh netlink.FAMILY_V6; enable])
                                 addr),
                        tr ++ [EvRouteList nlh netlink.FAMILY_V6; enable; addr])
                   end
               end \/ family <> netlink.FAMILY_V6).
  { intros Hi. destruct (decide (family = netlink.FAMILY_V6)) as [->|]; [left|by right].
    unfold setInterfaceIPv6, AddressIPv6, DstName. rewrite Hi. unfold tbind at 1.
    rewrite checkRouteConflict_run, Hlist.
    destruct (conflictingRoute a routes); [done|].
    unfold tbind, tret, setIPv6, AddrAdd, call, sys. simpl.
    destruct (on_call k _ _); simpl; by rewrite <- ?app_assoc. }
  assert (Hiff : (exists route,
                    conflictingRoute a routes = Some (ErrorNew (MsgConflict a route))) <->
                 overlapsWith a routes).
  { split; [intros [route Hr]; by eapply Hbwd|].
    intros (route & _ & Hr)%Hfwd. by exists route. }
  split; [by rewrite Hcheck|].
  split; [by rewrite Hcheck|].
  split; [intros Hno; rewrite Hcheck; by apply Hnone|].
  split.
  { intros Ha Hroutes. rewrite <- Hiff. by apply conflictingRoute_nested. }
  split.
  { intros -> Hi addr. destruct (H4 Hi) as [E|]; [|done]. split.
    - intros (route & Hin & Hr)%Hfwd. exists route. by rewrite E, Hr.
    - intros Hno%Hnone. by rewrite E, Hno. }
  split.
  { intros -> Hi enable addr. destruct (H6 Hi) as [E|]; [|done]. split.
    - intros (route & Hin & Hr)%Hfwd. exists route. by rewrite E, Hr.
    - intros Hno%Hnone. by rewrite E, Hno. }
  split; [|apply AddInterface_conflict].
  intros src dstPrefix options s p f1 n -> Hpre Hfam Htr Hbefore (route & Hin & Hr)%Hfwd.
  destruct Hfam as [(-> & Hi & ->)|(-> & Hi & ->)].
  - destruct (H4 Hi) as [E|]; [|done]. rewrite Hr in E.
    destruct (AddInterface_conflict_forward k src dstPrefix options s p i iface f1 2%nat
                (setInterfaceIP k) (MsgIP (netlink.Name iface) (address i)) route tr
                Hpre eq_refl Htr Hbefore netlink.FAMILY_V4 a E)
      as (d & Hres & Htrace & Hd1 & Hd2 & Hreg & Hif & d0 & Hd0 & Hn1 & Hn2).
    exists route, d. rewrite Hi in Hres. simpl.
    split; [done|]. split; [done|]. split; [done|]. split; [done|]. split; [done|].
    split; [done|]. split; [done|].
    exists (d0 ++ concat (map snd (take 2 (stepCalls NsHandle iface i)))).
    rewrite Htr, Hd0, <- app_assoc. split; [done|].
    unfold noAddrAdd, noSetIPv6 in *. rewrite !forallb_app, Hn1, Hn2. simpl.
    split; [by destruct (mac i)|]. intros _. by destruct (mac i).
  - destruct (H6 Hi) as [E|]; [|done]. rewrite Hr in E.
    destruct (AddInterface_conflict_forward k src dstPrefix options s p i iface f1 3%nat
                (setInterfaceIPv6 k) (MsgIPv6 (netlink.Name iface) (addressIPv6 i)) route tr
                Hpre eq_refl Htr Hbefore netlink.FAMILY_V6 a E)
      as (d & Hres & Htrace & Hd1 & Hd2 & Hreg & Hif & d0 & Hd0 & Hn1 & Hn2).
    exists route, d. rewrite Hi in Hres. simpl.
    split; [done|]. split; [done|]. split; [done|]. split; [done|]. split; [done|].
    split; [done|]. split; [done|].
    exists (d0 ++ concat (map snd (take 3 (stepCalls NsHandle iface i)))).
    rewrite Htr, Hd0, <- app_assoc. split; [done|].
    unfold noSetIPv6 in *. rewrite !forallb_app, Hn2. simpl.
    split; [|done]. rewrite !forallb_app. by destruct (mac i), (address i).
Qed.

Lemma canonical_net a b c d ones : canonical (Stub.net a b c d ones).
Proof.
  unfold canonical, Stub.net, networkNumberAndMask, To4. cbn [IP Mask].
  rewrite length_cidr_bytes. simpl. split; [done|]. by exists ones.
Qed.

Lemma address_conflict_witness :
  let route := Stub.routeTo (Stub.net 10 0 0 0 24) in
  let r := AddInterface Stub.kernelC "veth0" "eth" [OptAddress Stub.addr0] Stub.sandbox in
  overlapsWith Stub.addr0 [route] /\
  conflictsWith Stub.addr0 [route] /\
  r.1 = inl (Errorf (MsgIP "veth0" (Some Stub.addr0))
               (ErrorNew (MsgConflict Stub.addr0 route))) /\
  noAddrAdd (trace r.2) = true /\
  iFaces (reg r.2) = [].
Proof.
  intros route r.
  set (i := Stub.veth0 Stub.addr0).
  set (iface := Stub.eth "veth0").
  set (tr := trace (st Stub.placedC) ++ concat (map snd (take 2 (stepCalls NsHandle iface i)))).
  assert (Hlist : on_RouteList Stub.kernelC tr NsHandle netlink.FAMILY_V4 = inr [route])
    by (vm_compute; reflexivity).
  assert (Hover : overlapsWith Stub.addr0 [route]).
  { exists route, (Stub.net 10 0 0 0 24).
    split; [apply list_elem_of_here|]. split; vm_compute; reflexivity. }
  assert (Hroutes : forall x dst, x ∈ [route] -> netlink.Dst x = Some dst -> canonical dst).
  { intros x dst ->%list_elem_of_singleton [= <-]. apply canonical_net. }
  assert (Hpre : addPrelude Stub.kernelC "veth0" "eth" [OptAddress Stub.addr0]
                   {| st := Stub.sandbox; deferred := [] |}
                 = (inr (0%nat, i, iface), Stub.placedC))
    by (vm_compute; reflexivity).
  assert (Hbefore : forall j f msg,
            (j < 2)%nat -> ifaceConfigurators Stub.kernelC iface i !! j = Some (f, msg) ->
            (f NsHandle iface i
               (trace (st Stub.placedC) ++
                concat (map snd (take j (stepCalls NsHandle iface i))))).1 = None).
  { intros [|[|j]] f msg Hj; [| |lia]; intros [= <- _]; vm_compute; reflexivity. }
  destruct (address_conflict Stub.kernelC NsHandle iface i Stub.addr0 netlink.FAMILY_V4
              tr [route] Hlist)
    as (_ & _ & _ & Hnested & _ & _ & Hadd & _).
  destruct (Hadd "veth0" "eth" [OptAddress Stub.addr0] Stub.sandbox 0%nat Stub.placedC 2%nat
              eq_refl Hpre (or_introl (conj eq_refl (conj eq_refl eq_refl))) eq_refl
              Hbefore Hover)
    as (x & d & ->%list_elem_of_singleton & Hres & Htrace & Hd1 & _ & _ & Hif & d0 & Hd0 & _ & Hn).
  split; [done|].
  split; [by apply (Hnested (canonical_net 10 0 0 5 24) Hroutes)|].
  split; [exact Hres|].
  split; [|exact Hif].
  subst r. rewrite Htrace, Hd0. unfold noAddrAdd in *.
  rewrite !forallb_app, (Hn eq_refl), Hd1. reflexivity.
Defined.

(** A candidate whose mask is no prefix: 10.0.0.5 under 255.0.255.0 holds
    the address of the destination 10.1.0.0/16, so the IPv4 step and
    AddInterface report a conflict, though neither network contains the
    other (10.2.0.7 is in the candidate only, 10.1.5.0 in the destination
    only). *)
Lemma conflict_without_containment :
  let route := Stub.routeTo (Stub.net 10 1 0 0 16) in
  let K := Stub.kernel Stub.never [route] in
  let r := AddInterface K "veth0" "eth" [OptAddress Stub.gappy] Stub.sandbox in
  setInterfaceIP K NsHandle (Stub.eth "veth0") (Stub.veth0 Stub.gappy) []
  = (Some (ErrorNew (MsgConflict Stub.gappy route)), [EvRouteList NsHandle netlink.FAMILY_V4]) /\
  r.1 = inl (Errorf (MsgIP "veth0" (Some Stub.gappy))
               (ErrorNew (MsgConflict Stub.gappy route))) /\
  ~ conflictsWith Stub.gappy [route].
Proof.
  intros route K r.
  split; [vm_compute; reflexivity|]. split; [vm_compute; reflexivity|].
  intros (x & dst & ->%list_elem_of_singleton & [= <-] & [Hn|Hn]).
  - specialize (Hn [10; 1; 5; 0] eq_refl). vm_compute in Hn. discriminate.
  - specialize (Hn [10; 2; 0; 7] eq_refl). vm_compute in Hn. discriminate.
Qed.

(** With a route to 10.0.0.0/24, adding 10.0.0.5/24 fails with the conflict
    error, no address is added and nothing is registered. *)
Example AddInterface_conflicting_address :
  let K := Stub.kernel Stub.never [Stub.routeTo (Stub.net 10 0 0 0 24)] in
  let a := Stub.net 10 0 0 5 24 in
  let r := AddInterface K "veth0" "eth" [OptAddress a] Stub.sandbox in
  r.1 = inl (Errorf (MsgIP "veth0" (Some a))
               (ErrorNew (MsgConflict a (Stub.routeTo (Stub.net 10 0 0 0 24))))) /\
  noAddrAdd (trace r.2) = true /\ iFaces (reg r.2) = [].
Proof. vm_compute. repeat split; reflexivity. Qed.

(** With the same route, adding 192.168.1.5/24 succeeds: the address is
    added and the entity registered. *)
Example AddInterface_disjoint_address :
  let K := Stub.kernel Stub.never [Stub.routeTo (Stub.net 10 0 0 0 24)] in
  let a := Stub.net 192 168 1 5 24 in
  let r := AddInterface K "veth0" "eth" [OptAddress a] Stub.sandbox in
  r.1 = inr tt /\
  List.filter isAddrAdd (trace r.2) =
    [EvAddrAdd NsHandle (Stub.eth "veth0")
       {| netlink.IPNet := Some a; netlink.Label := ""; netlink.Flags := 0 |}] /\
  iFaces (reg r.2) = [0%nat].
Proof. vm_compute. repeat split; reflexivity. Qed.

(** ** The accessors over the store *)

Section StoreFacts.

Import Refs.

Lemma extends_refl st : extends st st.
Proof. by repeat split. Qed.

Lemma extends_trans st1 st2 st3 : extends st1 st2 -> extends st2 st3 -> extends st1 st3.
Proof. intros (? & ? & ?) (? & ? & ?). repeat split; by etrans. Qed.

Lemma extends_allocBytes st v : extends st (allocBytes v st).2.
Proof. repeat split; simpl; try done. by apply prefix_app_r. Qed.

Lemma extends_allocNet st n : extends st (allocNet n st).2.
Proof. repeat split; simpl; try done. by apply prefix_app_r. Qed.

Lemma extends_allocArray st v : extends st (allocArray v st).2.
Proof. repeat split; simpl; try done. by apply prefix_app_r. Qed.

Lemma prefix_insert_ge {A} (l0 l : list A) a x :
  (length l0 <= a)%nat -> l0 `prefix_of` l -> l0 `prefix_of` <[a := x]> l.
Proof.
  intros Ha [k ->]. exists (<[(a - length l0)%nat := x]> k).
  by rewrite insert_app_r_alt.
Qed.

Lemma prefix_lookup_Some {A} (l0 l : list A) a x :
  l0 `prefix_of` l -> l0 !! a = Some x -> l !! a = Some x.
Proof. intros [k ->] H. by apply lookup_app_l_Some. Qed.

Lemma extends_setElem st0 st a j q :
  (length (arrays st0) <= a)%nat -> extends st0 st -> extends st0 (setElem a j q st).
Proof.
  intros Ha (? & ? & ?). repeat split; simpl; try done. by apply prefix_insert_ge.
Qed.

(** A write to memory that [st0] does not have keeps what [st0] has. *)
Lemma extends_write st0 st w :
  freshFor st0 w -> extends st0 st -> extends st0 (write st w).
Proof.
  intros Hw (Hb & Hn & Ha). destruct w as [a j v|p s|p s|a j q]; simpl in *.
  - repeat split; simpl; try done. by apply prefix_insert_ge.
  - repeat split; simpl; try done. destruct (nets st !! p); [|done].
    by apply prefix_insert_ge.
  - repeat split; simpl; try done. destruct (nets st !! p); [|done].
    by apply prefix_insert_ge.
  - by apply extends_setElem.
Qed.

Lemma extends_writes st0 ws : forall st,
  Forall (freshFor st0) ws -> extends st0 st -> extends st0 (fold_left write ws st).
Proof.
  induction ws as [|w ws IH]; intros st Hws Hext; simpl; [done|].
  apply Forall_cons in Hws as [Hw Hws]. apply IH; [done|]. by apply extends_write.
Qed.

(** What a valid reference denotes is the same in a larger store. *)
Lemma bytesAt_extends st st' a :
  (a < length (bytes st))%nat -> extends st st' -> bytesAt st' a = bytesAt st a.
Proof.
  intros Ha (Hb & _). unfold bytesAt.
  destruct (lookup_lt_is_Some_2 _ _ Ha) as [v Hv].
  by rewrite Hv, (prefix_lookup_Some _ _ _ _ Hb Hv).
Qed.

Lemma bytesOf_extends st st' s :
  sliceIn (bytes st) s -> extends st st' -> bytesOf st' s = bytesOf st s.
Proof.
  destruct s as [a|]; simpl; [|done]. intros Ha Hext. f_equal. by apply bytesAt_extends.
Qed.

Lemma netOf_extends st st' p :
  wfStore st -> sliceIn (nets st) p -> extends st st' -> netOf st' p = netOf st p.
Proof.
  intros Hwf Hp Hext. destruct p as [p|]; simpl in *; [|done].
  destruct (lookup_lt_is_Some_2 _ _ Hp) as [n Hn].
  destruct Hext as (Hb & Hnets & Ha).
  rewrite Hn, (prefix_lookup_Some _ _ _ _ Hnets Hn).
  destruct (wf_nets st Hwf p n Hn) as [Hip Hmask].
  by rewrite !(bytesOf_extends st st') by (done || by repeat split).
Qed.

Lemma netsOf_extends st st' s :
  wfStore st -> sliceIn (arrays st) s -> extends st st' -> netsOf st' s = netsOf st s.
Proof.
  intros Hwf Hs Hext. destruct s as [a|]; simpl in *; [|done].
  destruct (lookup_lt_is_Some_2 _ _ Hs) as [l Hl].
  unfold arrayAt. destruct Hext as (Hb & Hnets & Ha).
  rewrite Hl, (prefix_lookup_Some _ _ _ _ Ha Hl). simpl.
  apply map_ext_in. intros q Hq%list_elem_of_In.
  apply netOf_extends; [done| |by repeat split]. by eapply wf_arrays.
Qed.

(** The entity a valid stored entity denotes is the same in a larger
    store. *)
Lemma load_extends st st' i :
  wfStore st -> wfIface st i -> extends st st' -> load st' i = load st i.
Proof.
  intros Hwf [] Hext. unfold load.
  rewrite (bytesOf_extends st st'), !(netOf_extends st st'), !(netsOf_extends st st'); done.
Qed.

End StoreFacts.

Section CopyFacts.

Import Refs.

Lemma sliceIn_extends {A} (l l' : list A) s : l `prefix_of` l' -> sliceIn l s -> sliceIn l' s.
Proof.
  intros [k ->]. destruct s as [a|]; simpl; [|done]. rewrite length_app. lia.
Qed.

Lemma sliceFresh_extends {A} (l l' : list A) s :
  l `prefix_of` l' -> sliceFresh l' s -> sliceFresh l s.
Proof.
  intros [k ->]. destruct s as [a|]; simpl; [|done]. rewrite length_app. lia.
Qed.

Lemma newOnly_refl st : newOnly st st.
Proof.
  split.
  - intros p n Hp Hn. apply lookup_lt_Some in Hn. lia.
  - intros a l q Ha Hl. apply lookup_lt_Some in Hl. lia.
Qed.

Lemma GetMacCopy_spec st from :
  sliceIn (bytes st) from ->
  match GetMacCopy from st with
  | (r, st') =>
      extends st st' /\ nets st' = nets st /\ arrays st' = arrays st /\
      bytesOf st' r = bytesOf st from /\
      sliceIn (bytes st') r /\ sliceFresh (bytes st) r
  end.
Proof.
  destruct from as [a|]; simpl; intros Ha.
  - split; [apply (extends_allocBytes st)|]. repeat split; try done.
    + f_equal. unfold bytesAt at 1; simpl. by rewrite list_lookup_middle.
    + rewrite length_app; simpl. lia.
  - repeat split; try done.
Qed.

Lemma bytesOf_same st st' s : bytes st = bytes st' -> bytesOf st s = bytesOf st' s.
Proof. intros H. destruct s as [a|]; simpl; [|done]. unfold bytesAt. by rewrite H. Qed.

Lemma netOf_same st st' p :
  bytes st = bytes st' -> nets st = nets st' -> netOf st p = netOf st' p.
Proof.
  intros Hb Hn. destruct p as [p|]; simpl; [|done]. rewrite Hn.
  destruct (nets st' !! p); [|done]. by rewrite !(bytesOf_same st st').
Qed.

Lemma GetIPCopy_spec st from :
  sliceIn (bytes st) from ->
  match GetIPCopy from st with
  | (r, st') =>
      extends st st' /\ nets st' = nets st /\ arrays st' = arrays st /\
      bytesOf st' r = bytesOf st from /\
      sliceIn (bytes st') r /\ sliceFresh (bytes st) r
  end.
Proof. apply GetMacCopy_spec. Qed.

Lemma lookup_snoc_Some {A} (l : list A) x p y :
  (l ++ [x]) !! p = Some y -> l !! p = Some y \/ p = length l /\ y = x.
Proof.
  intros H. destruct (decide (p < length l)%nat) as [Hp|Hp].
  - left. by rewrite lookup_app_l in H.
  - right. rewrite lookup_app_r in H by lia.
    destruct (p - length l)%nat as [|n] eqn:E; simpl in H; [|done].
    split; [lia|congruence].
Qed.

Lemma GetIPNetCopy_spec st0 st from :
  wfStore st -> sliceIn (nets st) from -> extends st0 st -> newOnly st0 st ->
  match GetIPNetCopy from st with
  | (r, st') =>
      extends st st' /\ wfStore st' /\ newOnly st0 st' /\ arrays st' = arrays st /\
      netOf st' r = netOf st from /\ sliceIn (nets st') r /\ sliceFresh (nets st) r
  end.
Proof.
  intros Hwf Hfrom Hext Hnew. destruct from as [p|]; simpl in *.
  2:{ split; [apply extends_refl|]. by do 5 (split; [done|]). }
  destruct (lookup_lt_is_Some_2 _ _ Hfrom) as [n Hn]. rewrite Hn.
  destruct (wf_nets st Hwf p n Hn) as [Hip Hmask].
  set (mask := match Mask n with Some a => bytesAt st a | None => [] end).
  set (st1 := {| bytes := bytes st ++ [mask]; nets := nets st; arrays := arrays st |}).
  assert (Hext1 : extends st st1) by apply (extends_allocBytes st mask).
  assert (Hip1 : sliceIn (bytes st1) (IP n)).
  { eapply sliceIn_extends; [apply Hext1|done]. }
  pose proof (GetIPCopy_spec st1 (IP n) Hip1) as Hcopy.
  destruct (GetIPCopy (IP n) st1) as [ip st2].
  destruct Hcopy as (Hext2 & Hnets2 & Harr2 & Hval & Hin2 & Hfresh2).
  assert (Hb2 : bytes st1 `prefix_of` bytes st2) by apply Hext2.
  assert (Hmasklen : (length (bytes st) < length (bytes st2))%nat).
  { destruct Hb2 as [kk ->]. simpl. rewrite !length_app. simpl. lia. }
  split; [|split; [|split; [|split; [|split; [|split]]]]].
  - repeat split; simpl.
    + etrans; [apply Hext1|done].
    + rewrite Hnets2. simpl. by apply prefix_app_r.
    + by rewrite Harr2.
  - split; simpl.
    + intros q m [Hq|[-> ->]]%lookup_snoc_Some.
      * rewrite Hnets2 in Hq. simpl in Hq.
        destruct (wf_nets st Hwf q m Hq) as [? ?].
        split; (eapply sliceIn_extends; [|done]); by (etrans; [apply Hext1|]).
      * simpl. split; [done|lia].
    + intros a l q Hl Hq. rewrite Harr2 in Hl. simpl in Hl.
      pose proof (wf_arrays st Hwf a l q Hl Hq) as Hs.
      rewrite Hnets2. simpl. eapply sliceIn_extends; [|done]. by apply prefix_app_r.
  - destruct Hnew as [Hn1 Hn2]. split; simpl.
    + intros q m Hq0 [Hq|[-> ->]]%lookup_snoc_Some.
      * rewrite Hnets2 in Hq. by apply (Hn1 q m).
      * simpl. split.
        -- eapply sliceFresh_extends; [|done]. etrans; [apply Hext|apply Hext1].
        -- destruct Hext as [[kk Hk] _]. rewrite Hk, length_app. lia.
    + intros a l q Ha Hl Hq. rewrite Harr2 in Hl. by apply (Hn2 a l q).
  - simpl. by rewrite Harr2.
  - simpl. rewrite Hnets2. simpl. rewrite list_lookup_middle by done. f_equal. f_equal.
    + cbn [IP]. rewrite (bytesOf_same _ st2) by done.
      rewrite Hval. by rewrite (bytesOf_extends st st1).
    + cbn [Mask]. rewrite (bytesOf_same _ st2) by done. simpl. unfold bytesAt.
      rewrite (prefix_lookup_Some _ _ (length (bytes st)) mask Hb2);
        [|simpl; by rewrite list_lookup_middle].
      subst mask. simpl. by destruct (Mask n).
  - simpl. rewrite length_app; simpl. lia.
  - simpl. rewrite Hnets2. simpl. lia.
Qed.

End CopyFacts.

Section RoutesFacts.

Import Refs.

(** One round of the loop of Routes: the copy [c] is stored at the next
    index of the new array. *)
Lemma setElem_copy st0 st dst pre c n :
  wfStore st -> newOnly st0 st -> extends st0 st ->
  (length (arrays st0) <= dst)%nat ->
  arrays st !! dst = Some (pre ++ None :: replicate n None) ->
  sliceIn (nets st) c -> sliceFresh (nets st0) c ->
  wfStore (setElem dst (length pre) c st) /\
  newOnly st0 (setElem dst (length pre) c st) /\
  extends st0 (setElem dst (length pre) c st) /\
  arrays (setElem dst (length pre) c st) !! dst = Some ((pre ++ [c]) ++ replicate n None).
Proof.
  intros Hwf [Hn1 Hn2] Hext Hdst Harr Hc Hfresh.
  assert (Hnew : <[length pre := c]> (arrayAt st dst) = (pre ++ [c]) ++ replicate n None).
  { unfold arrayAt. rewrite Harr. simpl.
    rewrite insert_app_r_alt by reflexivity. rewrite Nat.sub_diag. simpl. by rewrite <- app_assoc. }
  assert (Hin : forall q, q ∈ (pre ++ [c]) ++ replicate n None ->
                  q ∈ pre ++ None :: replicate n None \/ q = c).
  { intros q. rewrite !elem_of_app, !elem_of_cons, elem_of_nil. tauto. }
  unfold setElem. rewrite Hnew.
  split; [|split; [|split]].
  - split; simpl; [apply Hwf|].
    intros a l q [(-> & <- & _)|[_ Hl]]%list_lookup_insert_Some Hq.
    + apply Hin in Hq as [Hq| ->]; [|done]. by apply (wf_arrays st Hwf _ _ q Harr).
    + by apply (wf_arrays st Hwf a l q).
  - split; simpl; [done|].
    intros a l q Ha [(-> & <- & _)|[_ Hl]]%list_lookup_insert_Some Hq.
    + apply Hin in Hq as [Hq| ->]; [|done]. by apply (Hn2 _ _ q Hdst Harr).
    + by apply (Hn2 a l q).
  - pose proof (extends_setElem st0 st dst (length pre) c Hdst Hext) as H.
    unfold setElem in H. by rewrite Hnew in H.
  - simpl. apply list_lookup_insert_eq. by apply lookup_lt_Some in Harr.
Qed.

Lemma map_netOf_extends st st' l :
  wfStore st -> Forall (sliceIn (nets st)) l -> extends st st' ->
  map (netOf st') l = map (netOf st) l.
Proof.
  intros Hwf Hl Hext. apply map_ext_in. intros q Hq%list_elem_of_In.
  apply netOf_extends; [done| |done]. by rewrite Forall_forall in Hl; apply Hl.
Qed.

(** The loop of Routes. *)
Lemma copyRoutes_spec st0 dst :
  wfStore st0 -> (length (arrays st0) <= dst)%nat ->
  forall rs pre st1,
    wfStore st1 -> extends st0 st1 -> newOnly st0 st1 ->
    Forall (sliceIn (nets st0)) rs ->
    arrays st1 !! dst = Some (pre ++ replicate (length rs) None) ->
    wfStore (copyRoutes dst (length pre) rs st1) /\
    extends st0 (copyRoutes dst (length pre) rs st1) /\
    newOnly st0 (copyRoutes dst (length pre) rs st1) /\
    exists copies,
      arrays (copyRoutes dst (length pre) rs st1) !! dst = Some (pre ++ copies) /\
      map (netOf (copyRoutes dst (length pre) rs st1)) copies = map (netOf st0) rs /\
      map (netOf (copyRoutes dst (length pre) rs st1)) pre = map (netOf st1) pre.
Proof.
  intros Hwf0 Hdst. induction rs as [|route rs IH]; intros pre st1 Hwf Hext Hnew Hrs Harr.
  - simpl in *. split; [done|]. split; [done|]. split; [done|].
    exists []. rewrite app_nil_r in Harr. by rewrite app_nil_r.
  - apply Forall_cons in Hrs as [Hroute Hrs]. simpl in Harr |- *.
    assert (Hroute1 : sliceIn (nets st1) route).
    { eapply sliceIn_extends; [apply Hext|done]. }
    pose proof (GetIPNetCopy_spec st0 st1 route Hwf Hroute1 Hext Hnew) as Hcopy.
    destruct (GetIPNetCopy route st1) as [c st2].
    destruct Hcopy as (Hext2 & Hwf2 & Hnew2 & Harr2 & Hval & Hin & Hfresh).
    assert (Hext02 : extends st0 st2) by (by eapply extends_trans).
    assert (Hfresh0 : sliceFresh (nets st0) c).
    { eapply sliceFresh_extends; [apply Hext|done]. }
    rewrite <- Harr2 in Harr.
    destruct (setElem_copy st0 st2 dst pre c (length rs) Hwf2 Hnew2 Hext02 Hdst Harr Hin Hfresh0)
      as (Hwf3 & Hnew3 & Hext3 & Harr3).
    set (st3 := setElem dst (length pre) c st2) in *.
    specialize (IH (pre ++ [c]) st3 Hwf3 Hext3 Hnew3 Hrs Harr3).
    rewrite length_app in IH. simpl in IH. rewrite Nat.add_1_r in IH.
    destruct IH as (Hwf' & Hext' & Hnew' & copies & Harr' & Hcopies & Hdone).
    split; [done|]. split; [done|]. split; [done|].
    exists (c :: copies). rewrite <- app_assoc in Harr'. split; [done|].
    rewrite !map_app in Hdone. simpl in Hdone.
    apply app_inj_1 in Hdone as [Hdone Hc]; [|by rewrite !length_map].
    injection Hc as Hc.
    assert (Hvalid : Forall (sliceIn (nets st1)) pre).
    { apply Forall_forall. intros q Hq. rewrite Harr2 in Harr.
      apply (wf_arrays st1 Hwf dst _ q Harr). rewrite elem_of_app. by left. }
    split; simpl.
    + rewrite Hcopies. f_equal. rewrite Hc.
      rewrite (netOf_same st3 st2) by done. rewrite Hval.
      by apply netOf_extends.
    + rewrite Hdone. etrans; [|by apply (map_netOf_extends st1 st2)].
      apply map_ext. intros q. by apply netOf_same.
Qed.

End RoutesFacts.

Section AccessorFacts.

Import Refs.

Lemma Routes_spec st i :
  wfStore st -> wfIface st i ->
  match Refs.Routes i st with
  | (r, st') =>
      extends st st' /\ newOnly st st' /\ sliceFresh (arrays st) r /\
      netsOf st' r = netsOf st (routes i)
  end.
Proof.
  intros Hwf Hi. unfold Refs.Routes.
  set (rs := match routes i with Some a => arrayAt st a | None => [] end).
  unfold allocArray.
  set (st1 := {| bytes := bytes st; nets := nets st;
                 arrays := arrays st ++ [replicate (length rs) None] |}).
  assert (Hrs : Forall (sliceIn (nets st)) rs).
  { apply Forall_forall. intros q Hq. subst rs.
    destruct (routes i) as [a|] eqn:Er; [|by apply elem_of_nil in Hq].
    unfold arrayAt in Hq. destruct (arrays st !! a) as [l|] eqn:El; simpl in Hq.
    - by apply (wf_arrays st Hwf a l q).
    - by apply elem_of_nil in Hq. }
  assert (Hwf1 : wfStore st1).
  { split; simpl; [apply Hwf|].
    intros a l q [Hl|[-> ->]]%lookup_snoc_Some Hq.
    - by apply (wf_arrays st Hwf a l q).
    - by apply elem_of_replicate in Hq as [-> _]. }
  assert (Hext1 : extends st st1) by apply (extends_allocArray st).
  assert (Hnew1 : newOnly st st1).
  { split; simpl.
    - intros p n Hp Hn. apply lookup_lt_Some in Hn. lia.
    - intros a l q Ha [Hl|[-> ->]]%lookup_snoc_Some Hq.
      + apply lookup_lt_Some in Hl. lia.
      + by apply elem_of_replicate in Hq as [-> _]. }
  assert (Harr1 : arrays st1 !! length (arrays st) = Some ([] ++ replicate (length rs) None)).
  { simpl. by rewrite list_lookup_middle. }
  destruct (copyRoutes_spec st (length (arrays st)) Hwf (le_n _) rs [] st1
              Hwf1 Hext1 Hnew1 Hrs Harr1) as (_ & Hext & Hnew & copies & Harr & Hval & _).
  simpl in *. split; [done|]. split; [done|]. split; [done|].
  unfold arrayAt. rewrite Harr. simpl. rewrite Hval. subst rs.
  by destruct (routes i).
Qed.

(** A write through a fresh copy goes to memory the old store lacks. *)
Lemma throughBytes_fresh st r w :
  sliceFresh (bytes st) r -> throughBytes r w -> freshFor st w.
Proof. destruct w; simpl; try done. by intros H ->. Qed.

Lemma throughNet_fresh st st' r w :
  newOnly st st' -> sliceFresh (nets st) r -> throughNet st' r w -> freshFor st w.
Proof.
  intros [Hn1 _] Hr. destruct r as [p|]; [|done]. simpl in Hr.
  destruct w as [a j v|q s|q s|a j q]; simpl; try done; try by intros ->.
  intros (n & Hn & Ha). destruct (Hn1 p n Hr Hn) as [Hip Hmask].
  destruct Ha as [Ha|Ha]; [by rewrite Ha in Hip|by rewrite Ha in Hmask].
Qed.

Lemma throughNets_fresh st st' r w :
  newOnly st st' -> sliceFresh (arrays st) r -> throughNets st' r w -> freshFor st w.
Proof.
  intros Hnew Hr. destruct r as [a|]; [|done]. simpl in Hr.
  assert (Hel : forall p, p ∈ arrayAt st' a -> sliceFresh (nets st) p).
  { intros p Hp. unfold arrayAt in Hp.
    destruct (arrays st' !! a) as [l|] eqn:El; simpl in Hp; [|by apply elem_of_nil in Hp].
    by apply (proj2 Hnew a l p). }
  destruct w as [b j v|q s|q s|b j q]; simpl;
    try (intros (p & Hp & Hthrough);
         by apply (throughNet_fresh st st' p _ Hnew (Hel p Hp) Hthrough)).
  by intros ->.
Qed.

(** Writes to fresh memory leave the entity as it was. *)
Lemma load_after_writes st st' i ws :
  wfStore st -> wfIface st i -> extends st st' -> Forall (freshFor st) ws ->
  load (fold_left write ws st') i = load st i.
Proof.
  intros Hwf Hi Hext Hws. apply load_extends; [done..|]. by apply extends_writes.
Qed.

End AccessorFacts.

(** C8. Over a store whose references are valid, MacAddress, Address,
    AddressIPv6 and Routes return a value that denotes what the field
    denotes, every write through the returned value (to the slice, to the
    struct a pointer leads to, to its address or mask bytes, to an element
    of the array) goes to memory made by the call, and writes to such memory
    leave the entity as it was. *)
Theorem accessors_return_copies st i :
  Refs.wfStore st -> Refs.wfIface st i ->
  match Refs.MacAddress i st with
  | (r, st') =>
      Refs.bytesOf st' r = MacAddress (load st i) /\
      (forall w, Refs.throughBytes r w -> Refs.freshFor st w) /\
      (forall ws, Forall (Refs.freshFor st) ws ->
                  load (fold_left Refs.write ws st') i = load st i)
  end /\
  match Refs.Address i st with
  | (r, st') =>
      Refs.netOf st' r = Address (load st i) /\
      (forall w, Refs.throughNet st' r w -> Refs.freshFor st w) /\
      (forall ws, Forall (Refs.freshFor st) ws ->
                  load (fold_left Refs.write ws st') i = load st i)
  end /\
  match Refs.AddressIPv6 i st with
  | (r, st') =>
      Refs.netOf st' r = AddressIPv6 (load st i) /\
      (forall w, Refs.throughNet st' r w -> Refs.freshFor st w) /\
      (forall ws, Forall (Refs.freshFor st) ws ->
                  load (fold_left Refs.write ws st') i = load st i)
  end /\
  match Refs.Routes i st with
  | (r, st') =>
      Refs.netsOf st' r = Routes (load st i) /\
      (forall w, Refs.throughNets st' r w -> Refs.freshFor st w) /\
      (forall ws, Forall (Refs.freshFor st) ws ->
                  load (fold_left Refs.write ws st') i = load st i)
  end.
Proof.
  intros Hwf Hi. split; [|split; [|split]].
  - pose proof (GetMacCopy_spec st (Refs.mac i) (Refs.wf_mac st i Hi)) as H.
    unfold Refs.MacAddress. destruct (Refs.GetMacCopy (Refs.mac i) st) as [r st'].
    destruct H as (Hext & _ & _ & Hval & _ & Hfresh).
    split; [done|]. split.
    + intros w. by apply throughBytes_fresh.
    + intros ws. by apply load_after_writes.
  - pose proof (GetIPNetCopy_spec st st (Refs.address i) Hwf (Refs.wf_address st i Hi)
                  (extends_refl st) (newOnly_refl st)) as H.
    unfold Refs.Address. destruct (Refs.GetIPNetCopy (Refs.address i) st) as [r st'].
    destruct H as (Hext & _ & Hnew & _ & Hval & _ & Hfresh).
    split; [done|]. split.
    + intros w. by apply throughNet_fresh.
    + intros ws. by apply load_after_writes.
  - pose proof (GetIPNetCopy_spec st st (Refs.addressIPv6 i) Hwf (Refs.wf_addressIPv6 st i Hi)
                  (extends_refl st) (newOnly_refl st)) as H.
    unfold Refs.AddressIPv6. destruct (Refs.GetIPNetCopy (Refs.addressIPv6 i) st) as [r st'].
    destruct H as (Hext & _ & Hnew & _ & Hval & _ & Hfresh).
    split; [done|]. split.
    + intros w. by apply throughNet_fresh.
    + intros ws. by apply load_after_writes.
  - pose proof (Routes_spec st i Hwf Hi) as H.
    destruct (Refs.Routes i st) as [r st'].
    destruct H as (Hext & Hnew & Hfresh & Hval).
    split; [done|]. split.
    + intros w. by apply throughNets_fresh.
    + intros ws. by apply load_after_writes.
Qed.

Lemma wfStore_memory : Refs.wfStore Stub.memory.
Proof.
  split.
  - intros p n H. destruct p as [|p]; simpl in H.
    + injection H as <-. simpl. lia.
    + by rewrite lookup_nil in H.
  - intros a l q H Hq. destruct a as [|a]; simpl in H.
    + injection H as <-. apply list_elem_of_singleton in Hq as ->. simpl. lia.
    + by rewrite lookup_nil in H.
Qed.

Lemma wfIface_stored : Refs.wfIface Stub.memory Stub.stored.
Proof. split; simpl; lia || done. Qed.

Lemma accessors_return_copies_witness :
  Refs.Routes Stub.stored Stub.memory = (Some 1%nat, Stub.copied) /\
  Refs.netsOf Stub.copied (Some 1%nat) = [Some (Stub.net 10 0 0 5 24)] /\
  load (fold_left Refs.write
          [Refs.WElem 1 0 None; Refs.WByte 4 0 99; Refs.WNetMask 1 None] Stub.copied)
       Stub.stored
  = load Stub.memory Stub.stored.
Proof.
  destruct (accessors_return_copies Stub.memory Stub.stored wfStore_memory wfIface_stored)
    as (_ & _ & _ & H).
  assert (E : Refs.Routes Stub.stored Stub.memory = (Some 1%nat, Stub.copied))
    by (vm_compute; reflexivity).
  rewrite E in H. destruct H as (Hval & _ & Hwrites).
  split; [done|]. split.
  - rewrite Hval. vm_compute. reflexivity.
  - apply Hwrites. repeat constructor; simpl; lia.
Defined.

(** C10. LinkLocalAddresses returns the field itself: the same slice over
    the same array of the same pointers, with no call to the store. A write
    to an element through the returned slice is a write to memory the store
    already has, and the link-local addresses of the entity change with
    it. *)
Theorem LinkLocalAddresses_shares st i a l j q :
  Refs.llAddrs i = Some a ->
  Refs.arrays st !! a = Some l ->
  (j < length l)%nat ->
  Refs.LinkLocalAddresses i = Refs.llAddrs i /\
  Refs.throughNets st (Refs.LinkLocalAddresses i) (Refs.WElem a j q) /\
  (a < length (Refs.arrays st))%nat /\
  LinkLocalAddresses (load (Refs.write st (Refs.WElem a j q)) i)
  = <[j := Refs.netOf st q]> (LinkLocalAddresses (load st i)).
Proof.
  intros Hll Harr Hj. split; [done|].
  unfold Refs.LinkLocalAddresses, LinkLocalAddresses, load. simpl. rewrite Hll. simpl.
  split; [done|].
  assert (Ha : (a < length (Refs.arrays st))%nat) by (by apply lookup_lt_Some in Harr).
  split; [done|].
  assert (Hat : Refs.arrayAt st a = l) by (unfold Refs.arrayAt; by rewrite Harr).
  assert (Hat' : Refs.arrayAt (Refs.setElem a j q st) a = <[j := q]> l).
  { unfold Refs.arrayAt at 1. unfold Refs.setElem. cbn [Refs.arrays].
    rewrite list_lookup_insert_eq by done. by rewrite Hat. }
  rewrite Hat', Hat.
  change (map ?f ?x) with (f <$> x). by rewrite list_fmap_insert.
Qed.

Lemma LinkLocalAddresses_shares_witness :
  LinkLocalAddresses (load Stub.memory Stub.stored) = [Some (Stub.net 10 0 0 5 24)] /\
  LinkLocalAddresses (load (Refs.write Stub.memory (Refs.WElem 0 0 None)) Stub.stored) = [None] /\
  LinkLocalAddresses (load (Refs.write Stub.memory (Refs.WByte 1 3 9)) Stub.stored)
  = [Some (Stub.net 10 0 0 9 24)].
Proof.
  destruct (LinkLocalAddresses_shares Stub.memory Stub.stored 0%nat [Some 0%nat] 0%nat None
              eq_refl eq_refl ltac:(simpl; lia)) as (_ & _ & _ & H).
  split; [vm_compute; reflexivity|]. split.
  - rewrite H. vm_compute. reflexivity.
  - vm_compute. reflexivity.
Defined.

(** * Further properties *)

(** ** findDst and the master of an entity *)

Lemma isDstFor_test src isBridge i :
  String.eqb (SrcName i) src && (negb isBridge || Bridge i) = true <-> isDstFor src isBridge i.
Proof.
  unfold isDstFor, SrcName, Bridge. rewrite andb_true_iff, String.eqb_eq, orb_true_iff.
  destruct isBridge, (bridge i); simpl; intuition congruence.
Qed.

Lemma findDstIn_none h l src isBridge :
  (forall q j, q ∈ l -> h !! q = Some j -> ~ isDstFor src isBridge j) ->
  findDstIn h l src isBridge = "".
Proof.
  induction l as [|p l IH]; intros H; simpl; [done|].
  destruct (h !! p) as [i|] eqn:Ep.
  - destruct (String.eqb (SrcName i) src && (negb isBridge || Bridge i)) eqn:Et.
    + apply isDstFor_test in Et. destruct (H p i); [apply list_elem_of_here|done..].
    + apply IH. intros q j Hq. apply H. by apply list_elem_of_further.
  - apply IH. intros q j Hq. apply H. by apply list_elem_of_further.
Qed.

Lemma findDstIn_first h l1 p l2 i src isBridge :
  h !! p = Some i -> isDstFor src isBridge i ->
  (forall q j, q ∈ l1 -> h !! q = Some j -> ~ isDstFor src isBridge j) ->
  findDstIn h (l1 ++ p :: l2) src isBridge = dstName i.
Proof.
  intros Hp Hi. induction l1 as [|q l1 IH]; intros H; simpl.
  - rewrite Hp. apply isDstFor_test in Hi. by rewrite Hi.
  - destruct (h !! q) as [j|] eqn:Eq.
    + destruct (String.eqb (SrcName j) src && (negb isBridge || Bridge j)) eqn:Et.
      * apply isDstFor_test in Et. destruct (H q j); [apply list_elem_of_here|done..].
      * apply IH. intros q' j' Hq'. apply H. by apply list_elem_of_further.
    + apply IH. intros q' j' Hq'. apply H. by apply list_elem_of_further.
Qed.

Lemma findDstIn_found h l src isBridge :
  findDstIn h l src isBridge <> "" ->
  exists p i, p ∈ l /\ h !! p = Some i /\ isDstFor src isBridge i /\
              findDstIn h l src isBridge = dstName i.
Proof.
  induction l as [|p l IH]; simpl; [done|].
  destruct (h !! p) as [i|] eqn:Ep.
  - destruct (String.eqb (SrcName i) src && (negb isBridge || Bridge i)) eqn:Et.
    + intros _. exists p, i. apply isDstFor_test in Et.
      split; [apply list_elem_of_here|done].
    + intros (q & j & Hq & ?)%IH. exists q, j. split; [by apply list_elem_of_further|done].
  - intros (q & j & Hq & ?)%IH. exists q, j. split; [by apply list_elem_of_further|done].
Qed.

(** X1. findDst returns the destination name of the first registered entity
    that has the source name asked for and, when a bridge is asked for, is
    a bridge; entities before it that fail the test are passed over. It
    returns the empty string when no registered entity passes the test, so
    a result that is not empty is the destination name of a registered
    entity that passes it. *)
Theorem findDst_first_match s src isBridge :
  (forall l1 p l2 i,
     iFaces (reg s) = l1 ++ p :: l2 -> heap s !! p = Some i -> isDstFor src isBridge i ->
     (forall q j, q ∈ l1 -> heap s !! q = Some j -> ~ isDstFor src isBridge j) ->
     findDst s src isBridge = dstName i) /\
  ((forall q j, q ∈ iFaces (reg s) -> heap s !! q = Some j -> ~ isDstFor src isBridge j) ->
   findDst s src isBridge = "") /\
  (findDst s src isBridge <> "" ->
   exists p i, p ∈ iFaces (reg s) /\ heap s !! p = Some i /\ isDstFor src isBridge i /\
               findDst s src isBridge = dstName i).
Proof.
  unfold findDst. split; [|split].
  - intros l1 p l2 i -> Hp Hi H. by apply findDstIn_first.
  - apply findDstIn_none.
  - apply findDstIn_found.
Qed.






(** ** The placement of the device *)

Section PlacementFacts.

Variable k : Kernel.

(** The second lookup and the link set down, from the trace [tr] with the
    deferred calls [dfr]. *)
Let settle (i : nwIface) (s : State) (tr : Trace) (dfr : list Call)
  : (error + netlink.Link) * Frame :=
  let lookup := EvLinkByName NsHandle (srcName i) in
  match on_LinkByName k tr NsHandle (srcName i) with
  | inl err =>
      (inl (Errorf (MsgLinkByName (srcName i)) (Errno err)),
       {| st := set_trace (tr ++ [lookup]) s; deferred := dfr |})
  | inr iface =>
      let down := EvLinkSetDown NsHandle iface in
      match on_call k (tr ++ [lookup]) down with
      | Some err =>
          (inl (Errorf MsgLinkDown (Errno err)),
           {| st := set_trace (tr ++ [lookup; down]) s; deferred := dfr |})
      | None => (inr iface, {| st := set_trace (tr ++ [lookup; down]) s; deferred := dfr |})
      end
  end.

Lemma placeIface_run i f :
  placeIface k i f =
  let s := st f in
  let tr := trace s in
  let src := srcName i in
  if bridge i then
    let add := EvLinkAdd NsHandle src in
    match on_call k tr add with
    | Some err =>
        (inl (Errorf (MsgCreateBridge src) (Errno err)),
         {| st := set_trace (tr ++ [add]) s; deferred := deferred f |})
    | None => settle i s (tr ++ [add]) (deferred f)
    end
  else
    let find := EvLinkByName HostHandle src in
    match on_LinkByName k tr HostHandle src with
    | inl err =>
        (inl (Errorf (MsgLinkByName src) (Errno err)),
         {| st := set_trace (tr ++ [find]) s; deferred := deferred f |})
    | inr iface =>
        if isDefault (reg s) then settle i s (tr ++ [find]) (deferred f)
        else
          let get := EvGetFromPath (path (reg s)) in
          match on_GetFromPath k (tr ++ [find]) (path (reg s)) with
          | inl err =>
              (inl (Errorf (MsgGetNamespace (path (reg s))) (Errno err)),
               {| st := set_trace (tr ++ [find; get]) s; deferred := deferred f |})
          | inr newNs =>
              let move := EvLinkSetNsFd HostHandle iface newNs in
              match on_call k (tr ++ [find; get]) move with
              | Some err =>
                  (inl (Errorf (MsgSetNamespace src) (Errno err)),
                   {| st := set_trace (tr ++ [find; get; move]) s;
                      deferred := EvClose newNs :: deferred f |})
              | None =>
                  settle i s (tr ++ [find; get; move]) (EvClose newNs :: deferred f)
              end
          end
    end.
Proof.
  unfold placeIface, settle, ebind, eret, throw, gets, liftT, defer, check, checked,
    LinkByName, LinkAdd, LinkSetDown, LinkSetNsFd, GetFromPath, call, set_trace; simpl.
  destruct (bridge i); simpl.
  - destruct (on_call k (trace (st f)) _) as [err|]; simpl; [done|].
    destruct (on_LinkByName k _ NsHandle (srcName i)) as [err|iface]; simpl; [done|].
    rewrite <- ?app_assoc; simpl.
    by destruct (on_call k _ (EvLinkSetDown NsHandle iface)).
  - destruct (on_LinkByName k (trace (st f)) HostHandle (srcName i)) as [err|hostIface]; simpl;
      [done|].
    destruct (isDefault (reg (st f))); simpl.
    + destruct (on_LinkByName k _ NsHandle (srcName i)) as [err|iface]; simpl; [done|].
      rewrite <- ?app_assoc; simpl.
      by destruct (on_call k _ (EvLinkSetDown NsHandle iface)).
    + destruct (on_GetFromPath k _ (path (reg (st f)))) as [err|newNs]; simpl;
        [by rewrite <- ?app_assoc|].
      rewrite <- ?app_assoc; simpl.
      destruct (on_call k _ (EvLinkSetNsFd HostHandle hostIface newNs)) as [err|]; simpl;
        [by rewrite <- ?app_assoc|].
      rewrite <- ?app_assoc; simpl.
      destruct (on_LinkByName k _ NsHandle (srcName i)) as [err|iface]; simpl;
        [by rewrite <- ?app_assoc|].
      rewrite <- ?app_assoc; simpl.
      by destruct (on_call k _ (EvLinkSetDown NsHandle iface)).
Qed.

End PlacementFacts.

(** ** The calls of AddInterface *)

Section MakesOnly.

Variable k : Kernel.
Variable P : Call -> bool.

Lemma makesOnly_tret {A} (a : A) : makesOnly P (tret a).
Proof. intros tr. exists []. by rewrite app_nil_r. Qed.

Lemma makesOnly_tbind {A B} (m : T A) (f : A -> T B) :
  makesOnly P m -> (forall a, makesOnly P (f a)) -> makesOnly P (tbind m f).
Proof.
  intros Hm Hf tr. unfold tbind. destruct (Hm tr) as (d1 & E1 & H1).
  destruct (m tr) as [a tr1]; simpl in E1; subst tr1.
  destruct (Hf a (tr ++ d1)) as (d2 & E2 & H2).
  exists (d1 ++ d2). rewrite E2, app_assoc, forallb_app, H1, H2. done.
Qed.

Lemma makesOnly_call c : P c = true -> makesOnly P (call k c).
Proof. intros Hc tr. exists [c]. simpl. by rewrite Hc. Qed.

Lemma makesOnly_emit c : P c = true -> makesOnly P (emit c).
Proof. intros Hc tr. exists [c]. simpl. by rewrite Hc. Qed.

Lemma makesOnly_RouteList h family :
  P (EvRouteList h family) = true -> makesOnly P (RouteList k h family).
Proof. intros Hc tr. exists [EvRouteList h family]. simpl. by rewrite Hc. Qed.

End MakesOnly.

Section ConfigCalls.

Variable k : Kernel.
Variable iface : netlink.Link.

Ltac makes_tac :=
  repeat first
    [ assumption
    | match goal with IH : forall _, makesOnly _ _ |- _ => apply IH end
    | apply makesOnly_tbind
    | apply makesOnly_tret
    | by apply makesOnly_call
    | by apply makesOnly_emit
    | by apply makesOnly_RouteList
    | match goal with
      | |- makesOnly _ (if ?b then _ else _) => destruct b
      | |- makesOnly _ (match ?x with _ => _ end) => destruct x
      | |- forall _, _ => intro
      end ].

Lemma makesOnly_configurators i :
  Forall (fun c => makesOnly isConfigCall (c.1 NsHandle iface i)) (ifaceConfigurators k iface i).
Proof.
  unfold ifaceConfigurators. repeat apply Forall_cons_2; [..|apply Forall_nil_2]; simpl.
  - unfold setInterfaceName, LinkSetName. makes_tac.
  - unfold setInterfaceMAC, LinkSetHardwareAddr. makes_tac.
  - unfold setInterfaceIP, checkRouteConflict, AddrAdd. makes_tac.
  - unfold setInterfaceIPv6, checkRouteConflict, setIPv6, AddrAdd. makes_tac.
  - unfold setInterfaceMaster, LinkSetMaster. makes_tac.
  - unfold setInterfaceLinkLocalIPs.
    induction (LinkLocalAddresses i) as [|ll lls IH]; simpl; unfold AddrAdd; makes_tac.
Qed.

Lemma makesOnly_runConfigurators i configs :
  Forall (fun c => makesOnly isConfigCall (c.1 NsHandle iface i)) configs ->
  makesOnly isConfigCall (runConfigurators NsHandle iface i configs).
Proof.
  induction 1 as [|c configs Hc _ IH]; simpl; [apply makesOnly_tret|].
  apply makesOnly_tbind; [done|]. intros [err|]; [apply makesOnly_tret|done].
Qed.

Lemma makesOnly_configureInterface i :
  makesOnly isConfigCall (configureInterface k NsHandle iface i).
Proof. apply makesOnly_runConfigurators, makesOnly_configurators. Qed.

Lemma makesOnly_rollbackPlacement i err :
  makesOnly isConfigCall (rollbackPlacement k iface i err).
Proof. unfold rollbackPlacement, LinkSetName, LinkSetNsFd, Log. makes_tac. Qed.

Lemma makesOnly_retryLinkSetUp cnt : forall err,
  makesOnly isConfigCall (retryLinkSetUp k NsHandle iface cnt err).
Proof.
  induction cnt as [|cnt IH]; intros [e|]; simpl; unfold Log, Sleep, LinkSetUp; makes_tac.
Qed.

Lemma makesOnly_linkSetUpWithRetry :
  makesOnly isConfigCall (linkSetUpWithRetry k NsHandle iface).
Proof.
  unfold linkSetUpWithRetry, LinkSetUp.
  apply makesOnly_tbind; [by apply makesOnly_call|apply makesOnly_retryLinkSetUp].
Qed.

End ConfigCalls.

(** The loop of setInterfaceRoutes makes RouteAdd calls only. *)
Lemma addRoutes_trace k nlh iface rs : forall tr,
  exists rs', (addRoutes k nlh iface rs tr).2 = tr ++ map (routeAdd nlh iface) rs'.
Proof.
  induction rs as [|r rs IH]; intros tr; simpl.
  - exists []. by rewrite app_nil_r.
  - unfold tbind, RouteAdd, call. fold (routeAdd nlh iface r).
    destruct (on_call k tr (routeAdd nlh iface r)) as [err|].
    + by exists [r].
    + destruct (IH (tr ++ [routeAdd nlh iface r])) as [rs' Hrs'].
      exists (r :: rs'). rewrite Hrs', <- app_assoc. done.
Qed.

Lemma forallb_routeAdd nlh iface rs : forallb isRouteAdd (map (routeAdd nlh iface) rs) = true.
Proof. by induction rs. Qed.

Section AddCalls.

Variable k : Kernel.

Lemma opened_app tr d1 d2 :
  opened k tr (d1 ++ d2) = opened k tr d1 ++ opened k (tr ++ d1) d2.
Proof.
  revert tr. induction d1 as [|c d1 IH]; intros tr; simpl.
  - by rewrite app_nil_r.
  - rewrite IH, <- !app_assoc. done.
Qed.

Lemma opened_none tr d :
  forallb (fun c => negb (isGetFromPath c)) d = true -> opened k tr d = [].
Proof.
  revert tr. induction d as [|c d IH]; intros tr; simpl; [done|].
  intros [Hc Hd]%andb_true_iff. rewrite (IH _ Hd). by destruct c.
Qed.

(** The activation: calls on the sandbox only, the last of them a
    LinkSetUp whose answer is the result. *)
Lemma linkSetUpWithRetry_calls iface tr :
  match linkSetUpWithRetry k NsHandle iface tr with
  | (uerr, tr') =>
      exists d0,
        tr' = tr ++ d0 ++ [EvLinkSetUp NsHandle iface] /\
        forallb isConfigCall (d0 ++ [EvLinkSetUp NsHandle iface]) = true /\
        uerr = on_call k (tr ++ d0) (EvLinkSetUp NsHandle iface)
  end.
Proof.
  pose proof (makesOnly_linkSetUpWithRetry k iface tr) as (d & Ed & Hd).
  pose proof (retryLinkSetUp_attempts k NsHandle iface 3 tr) as Hretry.
  unfold linkSetUpWithRetry, tbind, LinkSetUp, call in *.
  destruct (retryLinkSetUp k NsHandle iface 3 _ _) as [uerr tr'].
  destruct Hretry as (errs & _ & Htr & _ & Hu & _). simpl in Ed.
  unfold retryTrace in *. rewrite <- app_assoc in Htr.
  eexists. split; [exact Htr|]. split; [|done].
  rewrite Htr in Ed. apply app_inv_head in Ed. by rewrite Ed.
Qed.

(** What AddInterface does from the call of configureInterface on: calls
    on the sandbox; the routes only after a LinkSetUp that succeeded;
    checkLoV6 last, and only when it succeeds. *)
Lemma addConfigured_calls p i iface f1 :
  match addConfigured k p i iface f1 with
  | (r, f2) =>
      deferred f2 = deferred f1 /\ heap (st f2) = heap (st f1) /\
      exists dc dr,
        forallb isConfigCall dc = true /\
        (exists rs, dr = map (routeAdd NsHandle iface) rs) /\
        trace (st f2) =
          trace (st f1) ++ dc ++ dr ++
          match r with inr _ => [EvCheckLoV6] | inl _ => [] end /\
        (dr <> [] \/ (exists u, r = inr u) ->
         exists d0,
           dc = d0 ++ [EvLinkSetUp NsHandle iface] /\
           on_call k (trace (st f1) ++ d0) (EvLinkSetUp NsHandle iface) = None) /\
        reg (st f2) =
          match r with
          | inr _ => set_loV6Enabled (on_checkLoV6 k (trace (st f1) ++ dc ++ dr))
                       (set_iFaces (iFaces (reg (st f1)) ++ [p]) (reg (st f1)))
          | inl _ => reg (st f1)
          end
  end.
Proof.
  rewrite addConfigured_run.
  destruct (makesOnly_configureInterface k iface i (trace (st f1))) as (d1 & E1 & H1).
  destruct (configureInterface k NsHandle iface i (trace (st f1))) as [[err|] tr1];
    simpl in E1; subst tr1.
  - destruct (makesOnly_rollbackPlacement k iface i err (trace (st f1) ++ d1))
      as (d2 & E2 & H2).
    split; [done|]. split; [done|]. exists (d1 ++ d2), [].
    rewrite forallb_app, H1, H2. simpl. rewrite E2, !app_nil_r, app_assoc.
    repeat split; try done; [by exists []|]. by intros [?|[? ?]].
  - pose proof (linkSetUpWithRetry_calls iface (trace (st f1) ++ d1)) as Hup.
    destruct (linkSetUpWithRetry k NsHandle iface (trace (st f1) ++ d1)) as [uerr tr2].
    destruct Hup as (d0 & -> & H2 & ->).
    destruct (on_call k ((trace (st f1) ++ d1) ++ d0) _) as [e|] eqn:Eup.
    + split; [done|]. split; [done|]. exists (d1 ++ d0 ++ [EvLinkSetUp NsHandle iface]), [].
      rewrite forallb_app, H1, H2. simpl. rewrite !app_nil_r, <- !app_assoc.
      repeat split; try done; [by exists []|]. by intros [?|[? ?]].
    + pose proof (addRoutes_trace k NsHandle iface (Routes i)
                    ((trace (st f1) ++ d1) ++ d0 ++ [EvLinkSetUp NsHandle iface]))
        as [rs' Hr].
      fold (setInterfaceRoutes k NsHandle iface i) in Hr.
      destruct (setInterfaceRoutes k NsHandle iface i _) as [[e|] tr3];
        simpl in Hr; subst tr3.
      * split; [done|]. split; [done|].
        exists (d1 ++ d0 ++ [EvLinkSetUp NsHandle iface]),
               (map (routeAdd NsHandle iface) rs').
        rewrite forallb_app, H1, H2. simpl.
        rewrite !app_nil_r, <- !app_assoc.
        repeat split; try done; [by eexists|]. intros _. exists (d1 ++ d0).
        by rewrite <- !app_assoc in *.
      * split; [done|]. split; [done|].
        exists (d1 ++ d0 ++ [EvLinkSetUp NsHandle iface]),
               (map (routeAdd NsHandle iface) rs').
        rewrite forallb_app, H1, H2. simpl.
        rewrite <- !app_assoc.
        repeat split; try done; [by eexists|]. intros _. exists (d1 ++ d0).
        by rewrite <- !app_assoc in *.
Qed.

Ltac placed_tac :=
  split; [done|]; split; [done|]; eexists;
  split; [simpl; rewrite <- ?app_assoc; reflexivity|];
  split; [done|];
  cbn [opened app];
  try match goal with E : on_GetFromPath _ _ _ = _ |- _ => rewrite E end;
  simpl; split; [done|]; split; [lia|]; try done; by intros [|].

(** What the placement does: placement calls only, and one Close deferred
    for each descriptor GetFromPath gave. *)
Lemma placeIface_calls i f :
  match placeIface k i f with
  | (r, f1) =>
      heap (st f1) = heap (st f) /\ reg (st f1) = reg (st f) /\
      exists dp,
        trace (st f1) = trace (st f) ++ dp /\
        forallb isPlacementCall dp = true /\
        deferred f1 = map EvClose (opened k (trace (st f)) dp) ++ deferred f /\
        (length (List.filter isGetFromPath dp) <= 1)%nat /\
        (bridge i = true \/ isDefault (reg (st f)) = true ->
         forallb (fun c => negb (isGetFromPath c)) dp = true)
  end.
Proof.
  rewrite placeIface_run. cbv zeta.
  destruct (bridge i) eqn:Eb.
  - destruct (on_call k (trace (st f)) _) as [err|]; [placed_tac|].
    destruct (on_LinkByName k _ NsHandle (srcName i)) as [err|iface]; [placed_tac|].
    destruct (on_call k _ (EvLinkSetDown NsHandle iface)) as [err|]; placed_tac.
  - destruct (on_LinkByName k (trace (st f)) HostHandle (srcName i)) as [err|hostIface];
      [placed_tac|].
    destruct (isDefault (reg (st f))) eqn:Ed.
    + destruct (on_LinkByName k _ NsHandle (srcName i)) as [err|iface]; [placed_tac|].
      destruct (on_call k _ (EvLinkSetDown NsHandle iface)) as [err|]; placed_tac.
    + destruct (on_GetFromPath k _ (path (reg (st f)))) as [err|newNs] eqn:Eg; [placed_tac|].
      destruct (on_call k _ (EvLinkSetNsFd HostHandle hostIface newNs)) as [err|];
        [placed_tac|].
      destruct (on_LinkByName k _ NsHandle (srcName i)) as [err|iface]; [placed_tac|].
      destruct (on_call k _ (EvLinkSetDown NsHandle iface)) as [err|]; placed_tac.
Qed.

End AddCalls.

Section AddShape.

Variable k : Kernel.

(** The calls of one AddInterface: those that place the device, those made
    on the placed device, the routes, checkLoV6 when it succeeds, and last
    the Close of what GetFromPath opened; with what became of the
    registry. *)
Lemma AddInterface_calls src dstPrefix options s :
  exists dp dc dr,
    trace (AddInterface k src dstPrefix options s).2 =
      trace s ++ dp ++ dc ++ dr ++
      match (AddInterface k src dstPrefix options s).1 with
      | inr _ => [EvCheckLoV6]
      | inl _ => []
      end ++ map EvClose (opened k (trace s) dp) /\
    forallb isPlacementCall dp = true /\
    forallb isConfigCall dc = true /\
    forallb isRouteAdd dr = true /\
    (length (List.filter isGetFromPath dp) <= 1)%nat /\
    (isDefault (reg s) = true -> forallb (fun c => negb (isGetFromPath c)) dp = true) /\
    (dr <> [] \/ (exists u, (AddInterface k src dstPrefix options s).1 = inr u) ->
     exists d0 iface,
       dc = d0 ++ [EvLinkSetUp NsHandle iface] /\
       on_call k (trace s ++ dp ++ d0) (EvLinkSetUp NsHandle iface) = None) /\
    path (reg (AddInterface k src dstPrefix options s).2) = path (reg s) /\
    isDefault (reg (AddInterface k src dstPrefix options s).2) = isDefault (reg s) /\
    match (AddInterface k src dstPrefix options s).1 with
    | inr _ =>
        iFaces (reg (AddInterface k src dstPrefix options s).2) =
          iFaces (reg s) ++ [length (heap s)] /\
        loV6Enabled (reg (AddInterface k src dstPrefix options s).2) =
          on_checkLoV6 k (trace s ++ dp ++ dc ++ dr)
    | inl _ =>
        iFaces (reg (AddInterface k src dstPrefix options s).2) = iFaces (reg s) /\
        loV6Enabled (reg (AddInterface k src dstPrefix options s).2) = loV6Enabled (reg s)
    end.
Proof.
  rewrite AddInterface_phases.
  pose proof (named_run src dstPrefix options s) as Hn. unfold named in Hn.
  destruct (nameIface src dstPrefix options _) as [[e|[p i]] f0] eqn:En.
  - destruct Hn as (_ & Hreg & Htr & Hdef). exists [], [], []. simpl.
    rewrite Hdef, Htr, Hreg, !app_nil_r. repeat split; try done; try lia.
    by intros [?|[? ?]].
  - apply keeps_nameIface in En as (_ & _ & Hif & Hpath & Hdflt & Hlo). simpl in *.
    destruct Hn as (-> & _ & _ & Htr & Hdef & _).
    pose proof (placeIface_calls k i f0) as Hp.
    destruct (placeIface k i f0) as [[e|iface] f1].
    + destruct Hp as (_ & Hreg & dp & Etr & Hdp & Edef & Hlen & Hnone).
      rewrite Htr in *. exists dp, [], []. simpl.
      rewrite Etr, Edef, Hdef, Hreg, !app_nil_r, <- app_assoc.
      split; [done|]. split; [done|]. split; [done|]. split; [done|]. split; [done|].
      split; [intros Hd; apply Hnone; right; congruence|].
      split; [by intros [?|[? ?]]|]. done.
    + destruct Hp as (_ & Hreg & dp & Etr & Hdp & Edef & Hlen & Hnone).
      rewrite Htr in *.
      pose proof (addConfigured_calls k (length (heap s)) i iface f1) as Hc.
      destruct (addConfigured k (length (heap s)) i iface f1) as [r f2].
      destruct Hc as (Edef2 & _ & dc & dr & Hdc & [rs ->] & Etr2 & Hup & Hreg2).
      pose proof (forallb_routeAdd NsHandle iface rs) as Hdr.
      exists dp, dc, (map (routeAdd NsHandle iface) rs). simpl. rewrite Etr, Hreg in Hreg2. rewrite Etr in Hup.
      rewrite Etr2, Edef2, Edef, Hdef, Etr, Hreg2, app_nil_r, <- !app_assoc.
      split; [done|]. split; [done|]. split; [done|]. split; [done|]. split; [done|].
      split; [intros Hd; apply Hnone; right; congruence|].
      split.
      { intros H. destruct (Hup H) as (d0 & -> & Hcall). exists d0, iface.
        by rewrite <- app_assoc in Hcall. }
      destruct r as [e|[]]; simpl; rewrite ?Hif, ?app_assoc; repeat split; congruence.
Qed.

End AddShape.

Lemma forallb_map_Close l : forallb isClose (map EvClose l) = true.
Proof. by induction l. Qed.

Lemma config_calls_kinds d :
  forallb isConfigCall d = true ->
  forallb (fun c => negb (isGetFromPath c)) d = true /\
  forallb (fun c => negb (isClose c)) d = true /\
  forallb (fun c => negb (isCheckLoV6 c)) d = true /\
  forallb (fun c => negb (isRouteAdd c)) d = true.
Proof.
  intros H. repeat split; revert H; apply forallb_weaken; by intros [[]| | | | | | | | | | | | | | | | |].
Qed.

Lemma placement_calls_kinds d :
  forallb isPlacementCall d = true ->
  forallb (fun c => negb (isClose c)) d = true /\
  forallb (fun c => negb (isCheckLoV6 c)) d = true /\
  forallb (fun c => negb (isRouteAdd c)) d = true.
Proof.
  intros H. repeat split; revert H; apply forallb_weaken; by intros [].
Qed.

Lemma route_calls_kinds d :
  forallb isRouteAdd d = true ->
  forallb (fun c => negb (isGetFromPath c)) d = true /\
  forallb (fun c => negb (isClose c)) d = true /\
  forallb (fun c => negb (isCheckLoV6 c)) d = true.
Proof.
  intros H. repeat split; revert H; apply forallb_weaken; by intros [].
Qed.

Lemma filter_none {A} (P : A -> bool) (l : list A) :
  forallb (fun c => negb (P c)) l = true -> List.filter P l = [].
Proof.
  induction l as [|x l IH]; simpl; [done|].
  intros [Hx Hl]%andb_true_iff. destruct (P x); [done|]. by apply IH.
Qed.

(** X3. AddInterface registers its entity exactly when it returns no
    error. Then the new entity is appended at the end of the collection and
    checkLoV6 is called once, after every other call but the deferred
    Close, and sets the loopback flag. When AddInterface returns an error,
    the collection and the loopback flag are as they were and checkLoV6 was
    not called. The path and the default flag of the registry never
    change. *)
Theorem AddInterface_registers k src dstPrefix options s :
  let r := AddInterface k src dstPrefix options s in
  path (reg r.2) = path (reg s) /\
  isDefault (reg r.2) = isDefault (reg s) /\
  exists d cl,
    forallb (fun c => negb (isCheckLoV6 c)) d = true /\
    forallb isClose cl = true /\
    match r.1 with
    | inr _ =>
        iFaces (reg r.2) = iFaces (reg s) ++ [length (heap s)] /\
        trace r.2 = trace s ++ d ++ [EvCheckLoV6] ++ cl /\
        loV6Enabled (reg r.2) = on_checkLoV6 k (trace s ++ d)
    | inl _ =>
        iFaces (reg r.2) = iFaces (reg s) /\
        loV6Enabled (reg r.2) = loV6Enabled (reg s) /\
        trace r.2 = trace s ++ d ++ cl
    end.
Proof.
  intros r. subst r.
  destruct (AddInterface_calls k src dstPrefix options s)
    as (dp & dc & dr & Htr & Hdp & Hdc & Hdr & _ & _ & _ & Hpath & Hdflt & Hreg).
  split; [done|]. split; [done|].
  exists (dp ++ dc ++ dr), (map EvClose (opened k (trace s) dp)).
  apply placement_calls_kinds in Hdp as (_ & Hdp & _).
  apply config_calls_kinds in Hdc as (_ & _ & Hdc & _).
  apply route_calls_kinds in Hdr as (_ & _ & Hdr).
  rewrite !forallb_app, Hdp, Hdc, Hdr.
  split; [done|]. split; [apply forallb_map_Close|].
  rewrite Htr.
  destruct (AddInterface k src dstPrefix options s).1 as [e|u]; simpl.
  - destruct Hreg as [-> ->]. by rewrite <- !app_assoc.
  - destruct Hreg as [-> ->]. by rewrite <- !app_assoc.
Qed.

(** X4. AddInterface closes what it opened: the trace of a call is the
    calls it made, none of them a Close, followed by one Close for each
    descriptor that GetFromPath returned among them, whether the call
    succeeded or failed. GetFromPath is called at most once, and not at
    all in the default namespace. *)
Theorem AddInterface_closes_namespace k src dstPrefix options s :
  exists d,
    trace (AddInterface k src dstPrefix options s).2 =
      trace s ++ d ++ map EvClose (opened k (trace s) d) /\
    forallb (fun c => negb (isClose c)) d = true /\
    (length (List.filter isGetFromPath d) <= 1)%nat /\
    (isDefault (reg s) = true -> List.filter isGetFromPath d = []).
Proof.
  destruct (AddInterface_calls k src dstPrefix options s)
    as (dp & dc & dr & Htr & Hdp & Hdc & Hdr & Hone & Hnone & _).
  set (last := match (AddInterface k src dstPrefix options s).1 with
               | inr _ => [EvCheckLoV6]
               | inl _ => []
               end) in *.
  assert (Hlast : forallb (fun c => negb (isGetFromPath c)) last = true /\
                  forallb (fun c => negb (isClose c)) last = true).
  { subst last. by destruct (AddInterface k src dstPrefix options s).1. }
  destruct Hlast as [Hl1 Hl2].
  apply config_calls_kinds in Hdc as (Hc1 & Hc2 & _).
  apply route_calls_kinds in Hdr as (Hr1 & Hr2 & _).
  apply placement_calls_kinds in Hdp as (Hp2 & _).
  assert (Hrest : forallb (fun c => negb (isGetFromPath c)) (dc ++ dr ++ last) = true)
    by (by rewrite !forallb_app, Hc1, Hr1, Hl1).
  exists (dp ++ dc ++ dr ++ last).
  rewrite opened_app, (opened_none k _ _ Hrest), app_nil_r, <- !app_assoc.
  split; [done|]. split; [by rewrite !forallb_app, Hp2, Hc2, Hr2, Hl2|].
  rewrite List.filter_app, (filter_none _ _ Hrest), app_nil_r.
  split; [done|]. intros Hd. by apply filter_none, Hnone.
Qed.

(** ** The routes *)

(** X5. setInterfaceRoutes adds the routes of the entity in their order,
    each as a link-scope route through the device, with one RouteAdd for
    each. It stops at the first RouteAdd that fails and returns its error
    as it is; the routes added before stay. With no route it makes no
    call. *)
Theorem setInterfaceRoutes_calls k nlh iface i tr :
  match setInterfaceRoutes k nlh iface i tr with
  | (None, tr') =>
      tr' = tr ++ map (routeAdd nlh iface) (routes i) /\
      forall n route,
        routes i !! n = Some route ->
        on_call k (tr ++ map (routeAdd nlh iface) (take n (routes i)))
          (routeAdd nlh iface route) = None
  | (Some e, tr') =>
      exists n route err,
        routes i !! n = Some route /\
        (forall m route',
           (m < n)%nat -> routes i !! m = Some route' ->
           on_call k (tr ++ map (routeAdd nlh iface) (take m (routes i)))
             (routeAdd nlh iface route') = None) /\
        on_call k (tr ++ map (routeAdd nlh iface) (take n (routes i)))
          (routeAdd nlh iface route) = Some err /\
        e = Errno err /\
        tr' = tr ++ map (routeAdd nlh iface) (take (S n) (routes i))
  end.
Proof.
  unfold setInterfaceRoutes, Routes. revert tr.
  generalize (routes i). intros rs.
  induction rs as [|r rs IH]; intros tr; simpl.
  - unfold tret. by rewrite app_nil_r.
  - unfold tbind, RouteAdd, call. fold (routeAdd nlh iface r).
    destruct (on_call k tr (routeAdd nlh iface r)) as [err|] eqn:Er.
    + unfold tret. exists 0%nat, r, err. simpl. rewrite app_nil_r.
      repeat split; try done. intros m route' Hm. lia.
    + specialize (IH (tr ++ [routeAdd nlh iface r])).
      destruct (addRoutes k nlh iface rs _) as [[e|] tr'].
      * destruct IH as (n & route & err & Hn & Hbefore & Herr & -> & ->).
        exists (S n), route, err. simpl. rewrite <- !app_assoc in *. simpl in *.
        repeat split; try done.
        intros [|m] route' Hm Hr; simpl in *.
        -- injection Hr as <-. by rewrite app_nil_r.
        -- specialize (Hbefore m route' ltac:(lia) Hr).
           by rewrite <- app_assoc in Hbefore.
      * destruct IH as [-> Hall]. rewrite <- app_assoc. split; [done|].
        intros [|n] route Hr; simpl in *.
        -- injection Hr as <-. by rewrite app_nil_r.
        -- specialize (Hall n route Hr). by rewrite <- app_assoc in Hall.
Qed.


(** X6. AddInterface adds routes only to a device that is up: in the trace
    of a call every RouteAdd comes in one run, and when there is one, or
    when the call succeeds, the call before that run is a LinkSetUp on the
    sandbox that returned no error. *)
Theorem AddInterface_routes_after_link_up k src dstPrefix options s :
  exists d dr dl,
    trace (AddInterface k src dstPrefix options s).2 = trace s ++ d ++ dr ++ dl /\
    forallb (fun c => negb (isRouteAdd c)) d = true /\
    forallb isRouteAdd dr = true /\
    forallb (fun c => negb (isRouteAdd c)) dl = true /\
    (dr <> [] \/ (exists u, (AddInterface k src dstPrefix options s).1 = inr u) ->
     exists d0 iface,
       d = d0 ++ [EvLinkSetUp NsHandle iface] /\
       on_call k (trace s ++ d0) (EvLinkSetUp NsHandle iface) = None).
Proof.
  destruct (AddInterface_calls k src dstPrefix options s)
    as (dp & dc & dr & Htr & Hdp & Hdc & Hdr & _ & _ & Hup & _).
  apply placement_calls_kinds in Hdp as (_ & _ & Hdp).
  apply config_calls_kinds in Hdc as (_ & _ & _ & Hdc).
  exists (dp ++ dc), dr,
    (match (AddInterface k src dstPrefix options s).1 with
     | inr _ => [EvCheckLoV6]
     | inl _ => []
     end ++ map EvClose (opened k (trace s) dp)).
  rewrite Htr, <- !app_assoc. split; [done|].
  rewrite !forallb_app, Hdp, Hdc. split; [done|]. split; [done|]. split.
  - apply andb_true_iff. split.
    + by destruct (AddInterface k src dstPrefix options s).1.
    + generalize (opened k (trace s) dp). intros l. by induction l.
  - intros H. destruct (Hup H) as (d0 & iface & -> & Hcall).
    exists (dp ++ d0), iface. by rewrite <- !app_assoc.
Qed.

(** ** The registry along a sequence of calls *)

Lemma insert_snoc {A} (h : list A) (x y : A) : <[length h := x]> (h ++ [y]) = h ++ [x].
Proof. rewrite insert_app_r_alt by lia. by rewrite Nat.sub_diag. Qed.

(** The first part of AddInterface adds one entity to the heap and writes
    to no other. *)
Lemma named_heap src dstPrefix options s :
  exists i, heap (st (named src dstPrefix options s).2) = heap s ++ [i].
Proof.
  unfold named, nameIface, newIface, resolveMaster, allocDstName, store, ebind, eret, throw,
    gets, modify, set_heap, set_reg, set_nextIfIndex; simpl.
  set (i0 := processInterfaceOptions _ options).
  destruct (negb (master i0 =? "")%string); simpl.
  - destruct (findDst _ (master i0) true =? "")%string; simpl.
    + rewrite insert_snoc. by eexists.
    + destruct (isDefault (reg s)); simpl; rewrite insert_snoc, insert_snoc; by eexists.
  - destruct (isDefault (reg s)); simpl; rewrite insert_snoc; by eexists.
Qed.

Lemma AddInterface_heap k src dstPrefix options s :
  exists i, heap (AddInterface k src dstPrefix options s).2 = heap s ++ [i].
Proof.
  destruct (named_heap src dstPrefix options s) as [i Hi]. exists i.
  pose proof (AddInterface_named k src dstPrefix options s) as [_ (Hh & _)].
  simpl in Hh. congruence.
Qed.

Lemma removeIface_sublist p l : removeIface p l `sublist_of` l.
Proof.
  unfold removeIface. destruct (indexOf p l 0) as [index|]; [|done].
  rewrite <- delete_take_drop. apply sublist_delete.
Qed.

Lemma Remove_collection k p i s :
  heap (Remove k p i s).2 = heap s /\
  (iFaces (reg (Remove k p i s).2) = iFaces (reg s) \/
   iFaces (reg (Remove k p i s).2) = removeIface p (iFaces (reg s))).
Proof. rewrite Remove_run. cbv zeta. repeat case_match; simpl; auto. Qed.

Lemma wfState_sublist s s' :
  wfState s -> heap s `prefix_of` heap s' -> iFaces (reg s') `sublist_of` iFaces (reg s) ->
  wfState s'.
Proof.
  intros [Hnd Hin] Hheap Hsub. split; [by eapply sublist_NoDup|].
  apply Forall_forall. intros q Hq. rewrite Forall_forall in Hin.
  specialize (Hin q (elem_of_sublist _ _ _ Hq Hsub)).
  apply prefix_length in Hheap. lia.
Qed.

Lemma runOp_registered_once k s o :
  wfState s -> wfState (runOp k s o) /\ heap s `prefix_of` heap (runOp k s o).
Proof.
  intros Hwf. destruct o as [src dstPrefix options|p|p]; simpl.
  - destruct (AddInterface_heap k src dstPrefix options s) as [i Hheap].
    destruct (AddInterface_calls k src dstPrefix options s)
      as (dp & dc & dr & _ & _ & _ & _ & _ & _ & _ & _ & _ & Hreg).
    assert (Hpre : heap s `prefix_of` heap (AddInterface k src dstPrefix options s).2)
      by (rewrite Hheap; by apply prefix_app_r).
    split; [|done].
    destruct ((AddInterface k src dstPrefix options s).1) as [e|u].
    + destruct Hreg as [Hif _]. apply (wfState_sublist s); [done..|by rewrite Hif].
    + destruct Hreg as [Hif _]. destruct Hwf as [Hnd Hin]. unfold wfState.
      rewrite Hif, Hheap, length_app. simpl. split.
      * apply NoDup_app. split; [done|]. split; [|apply NoDup_singleton].
        intros q Hq Hq'%list_elem_of_singleton. rewrite Forall_forall in Hin.
        specialize (Hin _ Hq). simpl in Hin. lia.
      * apply Forall_app. split; [|apply Forall_singleton; lia].
        eapply Forall_impl; [exact Hin|]. intros q Hq. simpl in Hq. lia.
  - unfold method. destruct (heap s !! p) as [i|]; [|done].
    destruct (Remove_collection k p i s) as [Hh [Hif|Hif]].
    + split; [|by rewrite Hh]. apply (wfState_sublist s); [done|by rewrite Hh|by rewrite Hif].
    + split; [|by rewrite Hh]. apply (wfState_sublist s); [done|by rewrite Hh|].
      rewrite Hif. apply removeIface_sublist.
  - unfold method. by destruct (heap s !! p).
Qed.

(** X7. Along any sequence of AddInterface, Remove and Statistics calls on
    one registry in which no entity is registered twice and every
    registered pointer leads to an entity, this stays so; and no call
    writes to an entity that was there before it: the heap only grows, so
    the fields an entity has when its AddInterface returns are its fields
    for good. *)
Theorem runOps_registered_once k ops : forall s,
  wfState s ->
  wfState (runOps k s ops) /\ heap s `prefix_of` heap (runOps k s ops).
Proof.
  unfold runOps. induction ops as [|o ops IH]; intros s Hwf; simpl; [done|].
  destruct (runOp_registered_once k s o Hwf) as [Hwf' Hpre].
  destruct (IH _ Hwf') as [Hwf'' Hpre']. split; [done|]. by etrans.
Qed.

Lemma runOps_registered_once_witness :
  let K := Stub.kernel Stub.never [] in
  let ops := [OpAdd "veth0" "eth" []; OpAdd "veth1" "eth" []; OpRemove 0%nat;
              OpStatistics 1%nat] in
  iFaces (reg (runOps K Stub.sandbox ops)) = [1%nat] /\
  NoDup (iFaces (reg (runOps K Stub.sandbox ops))) /\
  dstName <$> heap (runOps K Stub.sandbox ops) !! 0%nat = Some "eth0".
Proof.
  intros K ops.
  assert (Hwf : wfState Stub.sandbox) by (split; constructor).
  destruct (runOps_registered_once K ops Stub.sandbox Hwf) as [[Hnd _] _].
  split; [vm_compute; reflexivity|]. split; [exact Hnd|]. vm_compute. reflexivity.
Defined.

Lemma removeIface_snoc p l : p ∉ l -> removeIface p (l ++ [p]) = l.
Proof.
  induction l as [|x l IH]; simpl.
  - intros _. rewrite removeIface_cons. by case_decide.
  - rewrite not_elem_of_cons. intros [Hx Hl].
    rewrite removeIface_cons. case_decide; [congruence|]. by rewrite IH.
Qed.

(** What a Remove that succeeds leaves. *)
Lemma Remove_done k p i s s' :
  Remove k p i s = (inr tt, s') ->
  heap s' = heap s /\
  iFaces (reg s') = removeIface p (iFaces (reg s)) /\
  nextIfIndex (reg s') = nextIfIndex (reg s).
Proof.
  rewrite Remove_run. cbv zeta. repeat case_match; try done; by intros [= <-].
Qed.

(** X8. Remove undoes the registration of AddInterface but not the naming.
    After an AddInterface that succeeds, the new entity has the source name
    asked for and the destination name given to it; a Remove of that entity
    that succeeds leaves the collection as it was before the AddInterface,
    while the counter of the prefix stays advanced, so the suffix is not
    given out again. *)
Theorem Add_then_Remove k src dstPrefix options s s1 :
  Forall (fun p => (p < length (heap s))%nat) (iFaces (reg s)) ->
  AddInterface k src dstPrefix options s = (inr tt, s1) ->
  exists i,
    heap s1 !! length (heap s) = Some i /\
    iFaces (reg s1) = iFaces (reg s) ++ [length (heap s)] /\
    srcName i = src /\
    dstName i = (if isDefault (reg s) then src
                 else dstPrefix +:+ pretty (default 0 (nextIfIndex (reg s) !! dstPrefix))) /\
    forall s2,
      Remove k (length (heap s)) i s1 = (inr tt, s2) ->
      iFaces (reg s2) = iFaces (reg s) /\
      heap s2 = heap s1 /\
      (isDefault (reg s) = false ->
       nextIfIndex (reg s2) !! dstPrefix =
         Some (wrap64 (default 0 (nextIfIndex (reg s) !! dstPrefix) + 1))).
Proof.
  intros Hin Hadd.
  pose proof (named_run src dstPrefix options s) as Hn.
  pose proof (AddInterface_named k src dstPrefix options s) as [Herr (Hheap & Hctr & _)].
  destruct (AddInterface_calls k src dstPrefix options s)
    as (dp & dc & dr & _ & _ & _ & _ & _ & _ & _ & _ & _ & Hreg).
  rewrite Hadd in *. simpl in *.
  destruct (named src dstPrefix options s) as [[e|[p i]] f]; [done|]. simpl in *.
  destruct Hn as (-> & Hsrc & Hi & _ & _ & _ & Hname). destruct Hreg as [Hif _].
  exists i. rewrite Hheap. split; [done|]. split; [done|]. split; [done|].
  split; [by destruct (isDefault (reg s)); destruct Hname|].
  intros s2 (Hh2 & Hif2 & Hc2)%Remove_done.
  split; [|split; [congruence|]].
  - rewrite Hif2, Hif. apply removeIface_snoc. intros Hp.
    rewrite Forall_forall in Hin. specialize (Hin _ Hp). simpl in Hin. lia.
  - intros Hd. rewrite Hd in Hname. destruct Hname as [_ Hc].
    by rewrite Hc2, Hctr, Hc, lookup_insert_eq.
Qed.

Lemma Add_then_Remove_witness :
  let K := Stub.kernel Stub.never [] in
  AddInterface K "veth0" "eth" [] Stub.sandbox = (inr tt, Stub.added) /\
  exists i,
    heap Stub.added !! 0%nat = Some i /\
    iFaces (reg Stub.added) = [0%nat] /\
    forall s2, Remove K 0%nat i Stub.added = (inr tt, s2) -> iFaces (reg s2) = [].
Proof.
  intros K.
  assert (Hadd : AddInterface K "veth0" "eth" [] Stub.sandbox = (inr tt, Stub.added))
    by (vm_compute; reflexivity).
  split; [done|].
  destruct (Add_then_Remove K "veth0" "eth" [] Stub.sandbox Stub.added
              (Forall_nil_2 _) Hadd) as (i & Hi & Hif & _ & _ & Hrm).
  exists i. split; [exact Hi|]. split; [exact Hif|].
  intros s2 Hs2. by destruct (Hrm s2 Hs2) as [-> _].
Defined.

(** ** A placement that fails *)

Section PlacementFailure.

Variable k : Kernel.



End PlacementFailure.



(** ** The calls on the caller's namespace *)

Section HostCalls.

Variable k : Kernel.



End HostCalls.




(** ** The errors of AddInterface *)

Section AddErrors.

Variable k : Kernel.
Variable nlh : Handle.
Variable iface : netlink.Link.






End AddErrors.




(** ** The route check, case by case *)

Lemma conflictingRoute_first a routes :
  match conflictingRoute a routes with
  | Some e =>
      exists pre route dst post,
        routes = pre ++ route :: post /\
        netlink.Dst route = Some dst /\
        Contains dst (IP a) || Contains a (IP dst) = true /\
        e = ErrorNew (MsgConflict a route) /\
        forall r d, r ∈ pre -> netlink.Dst r = Some d ->
                    Contains d (IP a) || Contains a (IP d) = false
  | None =>
      forall r d, r ∈ routes -> netlink.Dst r = Some d ->
                  Contains d (IP a) || Contains a (IP d) = false
  end.
Proof.
  induction routes as [|x routes IH]; simpl.
  - intros r d Hr. by apply elem_of_nil in Hr.
  - destruct (netlink.Dst x) as [dst|] eqn:Ex.
    + destruct (Contains dst (IP a) || Contains a (IP dst)) eqn:Ec.
      * exists [], x, dst, routes. repeat split; try done.
        intros r d Hr. by apply elem_of_nil in Hr.
      * destruct (conflictingRoute a routes) as [e|].
        -- destruct IH as (pre & route & d0 & post & -> & Hd & Hc & -> & Hpre).
           exists (x :: pre), route, d0, post. repeat split; try done.
           intros r d [->|Hr]%elem_of_cons Hrd; [congruence|by eapply Hpre].
        -- intros r d [->|Hr]%elem_of_cons Hrd; [congruence|by eapply IH].
    + destruct (conflictingRoute a routes) as [e|].
      * destruct IH as (pre & route & d0 & post & -> & Hd & Hc & -> & Hpre).
        exists (x :: pre), route, d0, post. repeat split; try done.
        intros r d [->|Hr]%elem_of_cons Hrd; [congruence|by eapply Hpre].
      * intros r d [->|Hr]%elem_of_cons Hrd; [congruence|by eapply IH].
Qed.

(** X12. checkRouteConflict makes one call, RouteList for the family, and
    when that fails returns its error as it is; the address steps then
    return that error and add no address. Otherwise it goes through the
    routes in the order RouteList gave them, passes over a route with no
    destination, and reports the first route whose destination holds the
    address of the candidate or whose address the candidate holds; with
    no such route it returns no error. *)
Theorem checkRouteConflict_first_route k nlh a family tr :
  (checkRouteConflict k nlh a family tr).2 = tr ++ [EvRouteList nlh family] /\
  match on_RouteList k tr nlh family with
  | inl err =>
      (checkRouteConflict k nlh a family tr).1 = Some (Errno err) /\
      (forall iface i,
         family = netlink.FAMILY_V4 -> address i = Some a ->
         setInterfaceIP k nlh iface i tr =
           (Some (Errno err), tr ++ [EvRouteList nlh netlink.FAMILY_V4])) /\
      (forall iface i,
         family = netlink.FAMILY_V6 -> addressIPv6 i = Some a ->
         setInterfaceIPv6 k nlh iface i tr =
           (Some (Errno err), tr ++ [EvRouteList nlh netlink.FAMILY_V6]))
  | inr routes =>
      match (checkRouteConflict k nlh a family tr).1 with
      | Some e =>
          exists pre route dst post,
            routes = pre ++ route :: post /\
            netlink.Dst route = Some dst /\
            Contains dst (IP a) || Contains a (IP dst) = true /\
            e = ErrorNew (MsgConflict a route) /\
            forall r d, r ∈ pre -> netlink.Dst r = Some d ->
                        Contains d (IP a) || Contains a (IP d) = false
      | None =>
          forall r d, r ∈ routes -> netlink.Dst r = Some d ->
                      Contains d (IP a) || Contains a (IP d) = false
      end
  end.
Proof.
  split; [apply checkRouteConflict_trace|].
  rewrite checkRouteConflict_run.
  destruct (on_RouteList k tr nlh family) as [err|routes] eqn:El; simpl.
  - split; [done|]. split.
    + intros iface i -> Hi. unfold setInterfaceIP, Address. rewrite Hi.
      unfold tbind at 1. by rewrite checkRouteConflict_run, El.
    + intros iface i -> Hi. unfold setInterfaceIPv6, AddressIPv6. rewrite Hi.
      unfold tbind at 1. by rewrite checkRouteConflict_run, El.
  - apply conflictingRoute_first.
Qed.

(** ** Remove and the collection *)

(** X13. Remove does not ask whether its entity is registered: the error
    it returns and the calls it makes are the same in any two states with
    the same trace and the same default flag, whatever their collections.
    When the entity is not in the collection, the collection is as it was
    afterwards, also when Remove returns no error; so a second Remove of
    an entity is not refused. *)
Theorem Remove_unregistered k p i s :
  (forall s0,
     trace s0 = trace s -> isDefault (reg s0) = isDefault (reg s) ->
     (Remove k p i s0).1 = (Remove k p i s).1 /\
     trace (Remove k p i s0).2 = trace (Remove k p i s).2) /\
  (p ∉ iFaces (reg s) -> iFaces (reg (Remove k p i s).2) = iFaces (reg s)) /\
  (forall s1 s2,
     NoDup (iFaces (reg s)) ->
     Remove k p i s = (inr tt, s1) -> Remove k p i s1 = (inr tt, s2) ->
     iFaces (reg s2) = iFaces (reg s1)).
Proof.
  split; [|split].
  - intros s0 Htr Hd. rewrite !Remove_run. cbv zeta. rewrite Htr, Hd.
    repeat case_match; done.
  - intros Hp. destruct (Remove_collection k p i s) as [_ [H|H]]; [done|].
    by rewrite H, removeIface_absent.
  - intros s1 s2 Hnd (_ & H1 & _)%Remove_done (_ & H2 & _)%Remove_done.
    rewrite H2. apply removeIface_absent. rewrite H1. by apply removeIface_gone.
Qed.

(** A second Remove of the same entity makes the same calls again and
    returns no error. *)
Example Remove_twice :
  let K := Stub.kernel Stub.never [] in
  let r1 := Remove K 0%nat Stub.plain Stub.added in
  let r2 := Remove K 0%nat Stub.plain r1.2 in
  r1.1 = inr tt /\ iFaces (reg r1.2) = [] /\
  r2.1 = inr tt /\ iFaces (reg r2.2) = [] /\
  length (trace r2.2) = (length (trace r1.2) + 5)%nat.
Proof. vm_compute. repeat split; reflexivity. Qed.

(** ** AddInterface when nothing fails *)

Section Quiet.

Variable k : Kernel.
Variable i : nwIface.
Hypothesis Hquiet : quiet k i.

Lemma quiet_call tr c : on_call k tr c = None.
Proof. apply Hquiet. Qed.

Lemma quiet_configurators nlh iface :
  Forall (fun c => forall tr, (c.1 nlh iface i tr).1 = None) (ifaceConfigurators k iface i).
Proof.
  destruct Hquiet as (_ & _ & _ & Hroutes).
  unfold ifaceConfigurators. repeat apply Forall_cons_2; [..|apply Forall_nil_2]; simpl;
    intros tr.
  - unfold setInterfaceName, tbind, tret, LinkSetName, call, sys. by rewrite quiet_call.
  - unfold setInterfaceMAC. destruct (MacAddress i); [|done].
    unfold tbind, tret, LinkSetHardwareAddr, call, sys. by rewrite quiet_call.
  - unfold setInterfaceIP, Address. destruct (address i) as [a|] eqn:Ea; [|done].
    destruct (Hroutes tr nlh netlink.FAMILY_V4 a (or_introl eq_refl)) as (routes & Hl & Hc).
    unfold tbind at 1. rewrite checkRouteConflict_run, Hl, Hc.
    unfold tbind, tret, AddrAdd, call, sys. by rewrite quiet_call.
  - unfold setInterfaceIPv6, AddressIPv6. destruct (addressIPv6 i) as [a|] eqn:Ea; [|done].
    destruct (Hroutes tr nlh netlink.FAMILY_V6 a (or_intror eq_refl)) as (routes & Hl & Hc).
    unfold tbind at 1. rewrite checkRouteConflict_run, Hl, Hc.
    unfold tbind, tret, setIPv6, AddrAdd, call, sys. by rewrite !quiet_call.
  - unfold setInterfaceMaster. destruct (String.eqb (DstMaster i) ""); [done|].
    unfold tbind, tret, LinkSetMaster, call, sys. by rewrite quiet_call.
  - unfold setInterfaceLinkLocalIPs. revert tr.
    induction (LinkLocalAddresses i) as [|ll lls IH]; intros tr; simpl; [done|].
    unfold tbind, AddrAdd, call. rewrite quiet_call. apply IH.
Qed.

Lemma quiet_runConfigurators nlh iface configs :
  Forall (fun c => forall tr, (c.1 nlh iface i tr).1 = None) configs ->
  forall tr, (runConfigurators nlh iface i configs tr).1 = None.
Proof.
  induction 1 as [|[f m] configs Hc _ IH]; intros tr; simpl in *; [done|].
  unfold tbind. specialize (Hc tr). destruct (f nlh iface i tr) as [r tr1].
  simpl in Hc. subst r. apply IH.
Qed.

Lemma quiet_configureInterface nlh iface tr :
  configureInterface k nlh iface i tr =
    (None, tr ++ concat (map snd (stepCalls nlh iface i))).
Proof.
  pose proof (quiet_runConfigurators nlh iface _ (quiet_configurators nlh iface) tr) as Hnone.
  pose proof (runConfigurators_steps nlh iface i _ _
                (ifaceConfigurators_steps k nlh iface i) tr) as Hsteps.
  unfold configureInterface.
  destruct (runConfigurators nlh iface i _ tr) as [r tr']. simpl in Hnone. subst r.
  by rewrite Hsteps.
Qed.

Lemma quiet_linkSetUpWithRetry nlh iface tr :
  linkSetUpWithRetry k nlh iface tr = (None, tr ++ [EvLinkSetUp nlh iface]).
Proof. unfold linkSetUpWithRetry, tbind, LinkSetUp, call. by rewrite quiet_call. Qed.

Lemma quiet_addRoutes nlh iface rs : forall tr,
  addRoutes k nlh iface rs tr = (None, tr ++ map (routeAdd nlh iface) rs).
Proof.
  induction rs as [|r rs IH]; intros tr; simpl.
  - unfold tret. by rewrite app_nil_r.
  - unfold tbind, RouteAdd, call. rewrite quiet_call, IH, <- app_assoc. done.
Qed.

End Quiet.

(** AddInterface from the call of configureInterface on, when nothing
    fails. *)
Lemma quiet_addConfigured k i p iface f1 :
  quiet k i ->
  addConfigured k p i iface f1 =
    let tr := trace (st f1) ++ concat (map snd (stepCalls NsHandle iface i)) ++
              [EvLinkSetUp NsHandle iface] ++ map (routeAdd NsHandle iface) (routes i) in
    (inr tt,
     {| st := {| heap := heap (st f1);
                 reg := set_loV6Enabled (on_checkLoV6 k tr)
                          (set_iFaces (iFaces (reg (st f1)) ++ [p]) (reg (st f1)));
                 trace := tr ++ [EvCheckLoV6] |};
        deferred := deferred f1 |}).
Proof.
  intros Hq. rewrite addConfigured_run, (quiet_configureInterface k i Hq),
    (quiet_linkSetUpWithRetry k i Hq).
  unfold setInterfaceRoutes, Routes. rewrite (quiet_addRoutes k i Hq).
  cbv zeta. by rewrite <- !app_assoc.
Qed.

(** X14. With collaborators that answer every call without an error, and
    routes that conflict with no address of the entity, an AddInterface
    that got past the master lookup succeeds, and its calls are, in this
    order: the placement (LinkAdd for a bridge; otherwise the lookup on
    the host handle and, outside the default namespace, GetFromPath and
    the move of the device found into the descriptor returned), the lookup
    in the sandbox and the link set down of the device found there; the
    calls of the six steps of the pipeline; one LinkSetUp; one RouteAdd for
    each route; checkLoV6; and the Close of the descriptor when one was
    opened. *)
Theorem AddInterface_quiet k src dstPrefix options s p i f0 :
  quiet k i ->
  named src dstPrefix options s = (inr (p, i), f0) ->
  exists hostIface fd iface,
    let find := EvLinkByName HostHandle src in
    let dp := if bridge i then [EvLinkAdd NsHandle src]
              else find ::
                   if isDefault (reg s) then []
                   else [EvGetFromPath (path (reg s));
                         EvLinkSetNsFd HostHandle hostIface fd] in
    let cl := if bridge i || isDefault (reg s) then [] else [EvClose fd] in
    (AddInterface k src dstPrefix options s).1 = inr tt /\
    trace (AddInterface k src dstPrefix options s).2 =
      trace s ++ dp ++
      [EvLinkByName NsHandle src; EvLinkSetDown NsHandle iface] ++
      concat (map snd (stepCalls NsHandle iface i)) ++
      [EvLinkSetUp NsHandle iface] ++
      map (routeAdd NsHandle iface) (routes i) ++
      [EvCheckLoV6] ++ cl /\
    on_LinkByName k (trace s ++ dp) NsHandle src = inr iface /\
    (bridge i = false -> on_LinkByName k (trace s) HostHandle src = inr hostIface) /\
    (bridge i = false -> isDefault (reg s) = false ->
     on_GetFromPath k (trace s ++ [find]) (path (reg s)) = inr fd).
Proof.
  intros Hq Hnamed.
  pose proof (named_run src dstPrefix options s) as Hn. rewrite Hnamed in Hn.
  destruct Hn as (_ & Hsrc & _ & Htr & Hdef & Hd & _).
  pose proof (AddInterface_phases k src dstPrefix options s) as Hrun.
  unfold named in Hnamed. rewrite Hnamed in Hrun. simpl in Hrun.
  apply keeps_nameIface in Hnamed as (_ & _ & _ & Hpath & _). simpl in Hpath.
  rewrite placeIface_run in Hrun. cbv zeta in Hrun.
  rewrite Hsrc, Htr, Hdef, Hpath, Hd in Hrun.
  pose proof Hq as (Hcall & Hlook & Hget & _).
  destruct (bridge i) eqn:Eb.
  - rewrite Hcall in Hrun.
    destruct (Hlook (trace s ++ [EvLinkAdd NsHandle src]) NsHandle src) as [iface Hi].
    rewrite Hi, Hcall, (quiet_addConfigured k i p iface _ Hq) in Hrun.
    exists iface, 0, iface. cbv zeta. rewrite Hrun.
    cbn [fst snd st trace deferred heap reg set_trace orb app].
    split; [done|]. split; [by rewrite ?app_nil_r, <- ?app_assoc|]. by split.
  - destruct (Hlook (trace s) HostHandle src) as [hostIface Hh]. rewrite Hh in Hrun.
    destruct (isDefault (reg s)) eqn:Ed.
    + destruct (Hlook (trace s ++ [EvLinkByName HostHandle src]) NsHandle src) as [iface Hi].
      rewrite Hi, Hcall, (quiet_addConfigured k i p iface _ Hq) in Hrun.
      exists hostIface, 0, iface. cbv zeta. rewrite Hrun.
      cbn [fst snd st trace deferred heap reg set_trace orb app].
      split; [done|]. split; [by rewrite ?app_nil_r, <- ?app_assoc|]. by split.
    + destruct (Hget (trace s ++ [EvLinkByName HostHandle src]) (path (reg s))) as [fd Hfd].
      rewrite Hfd, Hcall in Hrun.
      destruct (Hlook (trace s ++ [EvLinkByName HostHandle src; EvGetFromPath (path (reg s));
                                   EvLinkSetNsFd HostHandle hostIface fd]) NsHandle src)
        as [iface Hi].
      rewrite Hi, Hcall, (quiet_addConfigured k i p iface _ Hq) in Hrun.
      exists hostIface, fd, iface. cbv zeta. rewrite Hrun.
      cbn [fst snd st trace deferred heap reg set_trace orb app].
      split; [done|]. split; [by rewrite ?app_nil_r, <- ?app_assoc|]. by split.
Qed.

Lemma quiet_never i : quiet (Stub.kernel Stub.never []) i.
Proof.
  split; [done|]. split; [by eexists|]. split; [by eexists|].
  intros tr h family a _. by exists [].
Qed.

Lemma AddInterface_quiet_witness :
  let K := Stub.kernel Stub.never [] in
  let r := AddInterface K "veth0" "eth" [] Stub.sandbox in
  r.1 = inr tt /\
  trace r.2 =
    [ EvLinkByName HostHandle "veth0"; EvGetFromPath "/var/run/netns/sb";
      EvLinkSetNsFd HostHandle (Stub.eth "veth0") 9; EvLinkByName NsHandle "veth0";
      EvLinkSetDown NsHandle (Stub.eth "veth0");
      EvLinkSetName NsHandle (Stub.eth "veth0") "eth0";
      EvLinkSetUp NsHandle (Stub.eth "veth0"); EvCheckLoV6; EvClose 9 ].
Proof.
  intros K r.
  destruct (AddInterface_quiet K "veth0" "eth" [] Stub.sandbox 0%nat Stub.plain
              Stub.namedPlain (quiet_never Stub.plain) ltac:(vm_compute; reflexivity))
    as (hostIface & fd & iface & Hok & _).
  split; [exact Hok|]. vm_compute. reflexivity.
Defined.
